(** * A shallow embedding of the custom shell's command library

    The development follows [src/commands.cpp] (the built-in command
    handlers) and [src/shell.cpp] (the interaction loop that renders a
    handler's result).  Handlers are state-passing functions over an
    abstract operating system (class [OS]); a small in-memory file system
    ([Mem]) instantiates the class so that every statement can be run. *)

From Stdlib Require Import String Ascii List ZArith Lia Bool Arith DecimalString.
Import ListNotations.
Local Open Scope string_scope.
Local Open Scope Z_scope.

Set Implicit Arguments.

Notation "a == b" := (String.eqb a b) (at level 70, no associativity).

(** ** Strings, the way [std::string] is used by the handlers *)

Module Str.

Definition nl : ascii := "010"%char.
Definition slash : ascii := "/"%char.
Definition of_char (c : ascii) : string := String c "".

Definition empty (s : string) : bool :=
  match s with "" => true | _ => false end.

(** [s[0]] on a [std::string]: the first character, NUL on the empty string. *)
Definition front (s : string) : ascii :=
  match s with "" => zero | String c _ => c end.

(** [s.back()], only called by the source on non-empty strings. *)
Fixpoint back (s : string) : option ascii :=
  match s with
  | "" => None
  | String c "" => Some c
  | String _ s' => back s'
  end.

(** [s.pop_back()]. *)
Fixpoint pop_back (s : string) : string :=
  match s with
  | "" => ""
  | String _ "" => ""
  | String c s' => String c (pop_back s')
  end.

Definition ends_with (c : ascii) (s : string) : bool :=
  match back s with Some d => Ascii.eqb d c | None => false end.

(** [s.find(c)]: index of the first occurrence. *)
Fixpoint find (c : ascii) (s : string) : option nat :=
  match s with
  | "" => None
  | String d s' =>
      if Ascii.eqb d c then Some O
      else match find c s' with Some n => Some (S n) | None => None end
  end.

(** [s.find_last_of(set)] for a set of characters given as a predicate. *)
Fixpoint find_last_of (p : ascii -> bool) (s : string) : option nat :=
  match s with
  | "" => None
  | String d s' =>
      match find_last_of p s' with
      | Some n => Some (S n)
      | None => if p d then Some O else None
      end
  end.

(** [s.substr(0, n)] and [s.substr(n)]. *)
Definition take (n : nat) (s : string) : string := substring 0 n s.
Fixpoint drop (n : nat) (s : string) : string :=
  match n, s with
  | O, _ => s
  | S n', String _ s' => drop n' s'
  | S _, "" => ""
  end.

(** [s.rfind(p, 0) == 0]: [s] starts with [p]. *)
Definition starts_with (p s : string) : bool := prefix p s.

(** Number of occurrences of a character. *)
Fixpoint count (c : ascii) (s : string) : nat :=
  match s with
  | "" => O
  | String d s' => (if Ascii.eqb d c then 1 else 0)%nat + count c s'
  end.

(** Concatenation of a list of strings, and joining with a separator. *)
Definition cat (l : list string) : string := fold_right append "" l.

Fixpoint join (sep : string) (l : list string) : string :=
  match l with
  | [] => ""
  | [x] => x
  | x :: rest => x ++ sep ++ join sep rest
  end.

End Str.

(** ** Results of a handler *)

Record CommandResult : Type := mkResult {
  status : Z;
  output : string;
  error : string
}.

(** A handler normally returns a [CommandResult]; [quit] ends the process,
    [std::stoi] may throw past the handler, constructing a [std::string] from
    a null pointer is undefined, and the recursive [rm] is run with fuel. *)
Inductive outcome : Type :=
| Ret (r : CommandResult)
| Exit (code : Z)
| Throw (what : string)
| Undefined
| OutOfFuel.

Definition ok (out : string) : CommandResult := mkResult 0 out "".
Definition failure (msg : string) : CommandResult := mkResult 1 "" msg.

(** ** Numbers: [std::to_string] and [std::stoi] *)

Definition to_string (z : Z) : string := NilZero.string_of_int (Z.to_int z).

Definition INT_MAX : Z := 2147483647.
Definition INT_MIN : Z := -2147483648.
Definition SIZE_MODULUS : Z := 2 ^ 64.

(** [++x] on an [int].  Past [INT_MAX] the C++ standard leaves the result
    undefined; the value given here is the one the two's-complement machine
    leaves in the variable.  Every statement below that reads a counter of
    this type keeps it within the range of [int]. *)
Definition int_incr (x : Z) : Z := if x <? INT_MAX then x + 1 else INT_MIN.
Definition MODE_MODULUS : Z := 2 ^ 32.

Inductive stoi_result : Type :=
| StoiOk (v : Z)
| StoiInvalidArgument
| StoiOutOfRange.

Module Stoi.

(** [isspace] in the C locale. *)
Definition isspace (c : ascii) : bool :=
  let n := nat_of_ascii c in
  ((n =? 32) || ((9 <=? n) && (n <=? 13)))%nat.

(** Value of a digit character in bases up to 36. *)
Definition digit_value (c : ascii) : option Z :=
  let n := Z.of_nat (nat_of_ascii c) in
  if (48 <=? n) && (n <=? 57) then Some (n - 48)
  else if (97 <=? n) && (n <=? 122) then Some (n - 87)
  else if (65 <=? n) && (n <=? 90) then Some (n - 55)
  else None.

Definition digit_in (base : Z) (c : ascii) : option Z :=
  match digit_value c with
  | Some d => if d <? base then Some d else None
  | None => None
  end.

Fixpoint skip_space (s : string) : string :=
  match s with
  | String c s' => if isspace c then skip_space s' else s
  | "" => ""
  end.

(** The longest run of digits at the front of [s]; [None] when it is empty. *)
Fixpoint digits (base : Z) (s : string) (acc : option Z) : option Z :=
  match s with
  | String c s' =>
      match digit_in base c with
      | Some d =>
          digits base s' (Some (match acc with Some a => a * base + d | None => d end))
      | None => acc
      end
  | "" => acc
  end.

(** [std::stoi(s, nullptr, base)] for the bases the handlers pass (8 and 10):
    leading white space, an optional sign, then the longest digit prefix;
    whatever follows the digits is ignored. *)
Definition stoi (s : string) (base : Z) : stoi_result :=
  let s1 := skip_space s in
  let '(neg, s2) :=
    match s1 with
    | String c s' =>
        if Ascii.eqb c "-" then (true, s')
        else if Ascii.eqb c "+" then (false, s')
        else (false, s1)
    | "" => (false, s1)
    end in
  match digits base s2 None with
  | None => StoiInvalidArgument
  | Some v =>
      let v' := if neg then - v else v in
      if (INT_MIN <=? v') && (v' <=? INT_MAX) then StoiOk v' else StoiOutOfRange
  end.

End Stoi.

(** ** The operating system interface *)

Inductive errno : Type :=
| EPERM | ENOENT | EIO | EBADF | EACCES | EEXIST | EXDEV | ENOTDIR | EISDIR
| EINVAL | ENOSPC | EROFS | ENAMETOOLONG | ENOTEMPTY | EBUSY | EFAULT
| EOTHER (code : Z).

Definition errno_eqb (a b : errno) : bool :=
  match a, b with
  | EPERM, EPERM | ENOENT, ENOENT | EIO, EIO | EBADF, EBADF | EACCES, EACCES
  | EEXIST, EEXIST | EXDEV, EXDEV | ENOTDIR, ENOTDIR | EISDIR, EISDIR
  | EINVAL, EINVAL | ENOSPC, ENOSPC | EROFS, EROFS
  | ENAMETOOLONG, ENAMETOOLONG | ENOTEMPTY, ENOTEMPTY | EBUSY, EBUSY
  | EFAULT, EFAULT => true
  | EOTHER x, EOTHER y => x =? y
  | _, _ => false
  end.

(** The texts of the GNU C library on Linux, by error number. *)
Definition errno_texts : list (Z * string) :=
  [(0, "Success"); (1, "Operation not permitted"); (2, "No such file or directory");
   (3, "No such process"); (4, "Interrupted system call"); (5, "Input/output error");
   (6, "No such device or address"); (7, "Argument list too long");
   (8, "Exec format error"); (9, "Bad file descriptor"); (10, "No child processes");
   (11, "Resource temporarily unavailable"); (12, "Cannot allocate memory");
   (13, "Permission denied"); (14, "Bad address"); (15, "Block device required");
   (16, "Device or resource busy"); (17, "File exists");
   (18, "Invalid cross-device link"); (19, "No such device"); (20, "Not a directory");
   (21, "Is a directory"); (22, "Invalid argument");
   (23, "Too many open files in system"); (24, "Too many open files");
   (25, "Inappropriate ioctl for device"); (26, "Text file busy");
   (27, "File too large"); (28, "No space left on device"); (29, "Illegal seek");
   (30, "Read-only file system"); (31, "Too many links"); (32, "Broken pipe");
   (33, "Numerical argument out of domain"); (34, "Numerical result out of range");
   (35, "Resource deadlock avoided"); (36, "File name too long");
   (37, "No locks available"); (38, "Function not implemented");
   (39, "Directory not empty"); (40, "Too many levels of symbolic links");
   (42, "No message of desired type"); (43, "Identifier removed");
   (44, "Channel number out of range"); (45, "Level 2 not synchronized");
   (46, "Level 3 halted"); (47, "Level 3 reset"); (48, "Link number out of range");
   (49, "Protocol driver not attached"); (50, "No CSI structure available");
   (51, "Level 2 halted"); (52, "Invalid exchange");
   (53, "Invalid request descriptor"); (54, "Exchange full"); (55, "No anode");
   (56, "Invalid request code"); (57, "Invalid slot"); (59, "Bad font file format");
   (60, "Device not a stream"); (61, "No data available"); (62, "Timer expired");
   (63, "Out of streams resources"); (64, "Machine is not on the network");
   (65, "Package not installed"); (66, "Object is remote");
   (67, "Link has been severed"); (68, "Advertise error"); (69, "Srmount error");
   (70, "Communication error on send"); (71, "Protocol error");
   (72, "Multihop attempted"); (73, "RFS specific error"); (74, "Bad message");
   (75, "Value too large for defined data type"); (76, "Name not unique on network");
   (77, "File descriptor in bad state"); (78, "Remote address changed");
   (79, "Can not access a needed shared library");
   (80, "Accessing a corrupted shared library");
   (81, ".lib section in a.out corrupted");
   (82, "Attempting to link in too many shared libraries");
   (83, "Cannot exec a shared library directly");
   (84, "Invalid or incomplete multibyte or wide character");
   (85, "Interrupted system call should be restarted"); (86, "Streams pipe error");
   (87, "Too many users"); (88, "Socket operation on non-socket");
   (89, "Destination address required"); (90, "Message too long");
   (91, "Protocol wrong type for socket"); (92, "Protocol not available");
   (93, "Protocol not supported"); (94, "Socket type not supported");
   (95, "Operation not supported"); (96, "Protocol family not supported");
   (97, "Address family not supported by protocol"); (98, "Address already in use");
   (99, "Cannot assign requested address"); (100, "Network is down");
   (101, "Network is unreachable"); (102, "Network dropped connection on reset");
   (103, "Software caused connection abort"); (104, "Connection reset by peer");
   (105, "No buffer space available");
   (106, "Transport endpoint is already connected");
   (107, "Transport endpoint is not connected");
   (108, "Cannot send after transport endpoint shutdown");
   (109, "Too many references: cannot splice"); (110, "Connection timed out");
   (111, "Connection refused"); (112, "Host is down"); (113, "No route to host");
   (114, "Operation already in progress"); (115, "Operation now in progress");
   (116, "Stale file handle"); (117, "Structure needs cleaning");
   (118, "Not a XENIX named type file"); (119, "No XENIX semaphores available");
   (120, "Is a named type file"); (121, "Remote I/O error");
   (122, "Disk quota exceeded"); (123, "No medium found"); (124, "Wrong medium type");
   (125, "Operation canceled"); (126, "Required key not available");
   (127, "Key has expired"); (128, "Key has been revoked");
   (129, "Key was rejected by service"); (130, "Owner died");
   (131, "State not recoverable"); (132, "Operation not possible due to RF-kill");
   (133, "Memory page has hardware error")].

Fixpoint errno_text (table : list (Z * string)) (code : Z) : option string :=
  match table with
  | [] => None
  | (n, text) :: rest => if n =? code then Some text else errno_text rest code
  end.

(** [strerror], with the texts of the GNU C library. *)
Definition strerror (e : errno) : string :=
  match e with
  | EPERM => "Operation not permitted"
  | ENOENT => "No such file or directory"
  | EIO => "Input/output error"
  | EBADF => "Bad file descriptor"
  | EACCES => "Permission denied"
  | EEXIST => "File exists"
  | EXDEV => "Invalid cross-device link"
  | ENOTDIR => "Not a directory"
  | EISDIR => "Is a directory"
  | EINVAL => "Invalid argument"
  | ENOSPC => "No space left on device"
  | EROFS => "Read-only file system"
  | ENAMETOOLONG => "File name too long"
  | ENOTEMPTY => "Directory not empty"
  | EBUSY => "Device or resource busy"
  | EFAULT => "Bad address"
  | EOTHER n =>
      match errno_text errno_texts n with
      | Some text => text
      | None => "Unknown error " ++ to_string n
      end
  end.

Record stat_t : Type := mkStat {
  st_mode : Z;
  st_nlink : Z;
  st_uid : Z;
  st_gid : Z;
  st_size : Z;
  st_mtime : Z
}.

Definition S_IFMT : Z := 61440.   (* 0170000 *)
Definition S_IFDIR : Z := 16384.  (* 0040000 *)
Definition S_IFREG : Z := 32768.  (* 0100000 *)
Definition S_ISDIR (mode : Z) : bool := Z.land mode S_IFMT =? S_IFDIR.

Definition S_IRUSR : Z := 256.
Definition S_IWUSR : Z := 128.
Definition S_IXUSR : Z := 64.
Definition S_IRGRP : Z := 32.
Definition S_IWGRP : Z := 16.
Definition S_IXGRP : Z := 8.
Definition S_IROTH : Z := 4.
Definition S_IWOTH : Z := 2.
Definition S_IXOTH : Z := 1.

Definition O_RDONLY : Z := 0.
Definition O_WRONLY : Z := 1.
Definition O_CREAT : Z := 64.
Definition O_TRUNC : Z := 512.

Definition fd : Type := Z.

(** What the handlers ask of the operating system and the C library.  A call
    that fails returns its [errno]; a call that can change the world returns
    the new world.  [sys_read_chunks fd n] is the sequence of non-empty
    buffers that successive [read(fd, buf, n)] calls deliver until [read]
    returns 0 ([None]) or -1 ([Some errno]); [sys_readdir_all] is [opendir]
    followed by [readdir] until it returns null and [closedir].  [sys_errno]
    is the value [errno] holds, read by the one handler that consults it
    after a short [write] that set no error. *)
Class OS (W : Type) : Type := {
  sys_errno : W -> errno;
  sys_stat : string -> W -> errno + stat_t;
  sys_getcwd : W -> option string;
  sys_getenv : string -> W -> option string;
  sys_environ : W -> list string;
  sys_getpwnam : string -> W -> option Z;
  sys_getpwuid : Z -> W -> option string;
  sys_getgrgid : Z -> W -> option string;
  sys_time : W -> Z;
  sys_strftime : Z -> W -> string;
  sys_chdir : string -> W -> option errno * W;
  sys_mkdir : string -> Z -> W -> option errno * W;
  sys_rmdir : string -> W -> option errno * W;
  sys_unlink : string -> W -> option errno * W;
  sys_rename : string -> string -> W -> option errno * W;
  sys_chmod : string -> Z -> W -> option errno * W;
  sys_chown : string -> Z -> Z -> W -> option errno * W;
  sys_utime : string -> Z -> Z -> W -> option errno * W;
  sys_open : string -> Z -> Z -> W -> (errno + fd) * W;
  sys_read_chunks : fd -> nat -> W -> (list string * option errno) * W;
  sys_write : fd -> string -> W -> (errno + nat) * W;
  sys_close : fd -> W -> W;
  sys_readdir_all : string -> W -> (errno + list string) * W;
  sys_cin_ignore : W -> W;
  sys_cout : string -> W -> W
}.

(** [std::regex]: construction may throw ([None]); [regex_search] gives the
    text of the first match ([match.str()]). *)
Class RegexLib (R : Type) : Type := {
  regex_compile : string -> bool -> option R;
  regex_search : R -> string -> option string
}.

(** ** Handlers as state-passing computations with early return *)

Inductive step (A : Type) : Type :=
| Next (a : A)
| Done (o : outcome).
Arguments Next {A} a.
Arguments Done {A} o.

Definition M (W A : Type) : Type := W -> step A * W.

Definition ret {W A} (a : A) : M W A := fun w => (Next a, w).

Definition bind {W A B} (m : M W A) (k : A -> M W B) : M W B :=
  fun w =>
    match m w with
    | (Next a, w') => k a w'
    | (Done o, w') => (Done o, w')
    end.

Definition halt {W A} (o : outcome) : M W A := fun w => (Done o, w).
Definition give {W A} (r : CommandResult) : M W A := halt (Ret r).
Definition ask {W A} (f : W -> A) : M W A := fun w => (Next (f w), w).
Definition call {W A} (f : W -> A * W) : M W A :=
  fun w => let (a, w') := f w in (Next a, w').
Definition act {W} (f : W -> W) : M W unit := fun w => (Next tt, f w).

Notation "x <- m ;; k" := (bind m (fun x => k))
  (at level 61, m at next level, right associativity).
Notation "m ;;; k" := (bind m (fun _ => k))
  (at level 61, right associativity).

(** A [for] loop over a list whose body may return from the handler. *)
Fixpoint for_each {W X A} (body : X -> A -> M W A) (xs : list X) (a : A) : M W A :=
  match xs with
  | [] => ret a
  | x :: rest => a' <- body x a ;; for_each body rest a'
  end.

(** Running a handler body to the outcome seen by the caller. *)
Definition run {W} (m : M W CommandResult) (w : W) : outcome * W :=
  match m w with
  | (Next r, w') => (Ret r, w')
  | (Done o, w') => (o, w')
  end.

Definition LF : string := Str.of_char Str.nl.
Definition ESC : string := Str.of_char (ascii_of_nat 27).

(** [Commands::stripTrailingNewline]. *)
Definition stripTrailingNewline (s : string) : string :=
  if negb (Str.empty s) && Str.ends_with Str.nl s
  then Str.take (String.length s - 1) s
  else s.

(** [Commands::formatRmdirErrorMsg], with [errno] passed explicitly. *)
Definition formatRmdirErrorMsg (path : string) (e : errno) : string :=
  match e with
  | ENOTEMPTY | EEXIST =>
      "rmdir: failed to remove '" ++ path ++ "': directory not empty"
  | ENOENT =>
      "rmdir: failed to remove '" ++ path ++ "': no such file or directory"
  | ENOTDIR =>
      "rmdir: failed to remove '" ++ path ++ "': not a directory"
  | EACCES | EPERM =>
      "rmdir: failed to remove '" ++ path ++ "': permission denied"
  | _ =>
      "rmdir: failed to remove '" ++ path ++ "': " ++ strerror e
  end.

Section Handlers.

Context {W : Type} {os : OS W}.

Definition handler : Type := list string -> W -> outcome * W.

(** *** help, echo, pause *)

Definition help_text : string :=
"Available Commands:
  cd [dir]                                 Change directory.
  clr                                      Clear the screen.
  dir [-a] [-A] [-l] [path]                List directory contents.
  environ                                  Display environment variables.
  echo [text]                              Print text.
  help                                     Show help.
  pause                                    Pause shell.
  quit                                     Exit shell.
  chmod <mode> <file>                      Change permissions.
  chown <owner> <file>                     Change ownership.
  ls [-a] [-A] [-l] [path]                 List directory contents.
  pwd                                      Print working directory.
  cat <file>...                            Print file contents.
  mkdir <dir>                              Create directory.
  rmdir [-p] <dir>                         Remove directory.
  rm [-r] <path>                           Remove file or directory.
  cp <src>... <dst>                        Copy.
  mv <src> <dst>                           Move.
  touch <file>                             Create empty file.
  grep [OPTIONS] <pattern> <file>          Search text.
  wc [-l] [-w] [-c]                        Count lines/words/chars.".

Definition helpCommand_body (args : list string) : M W CommandResult :=
  match args with
  | _ :: _ => give (failure "help: this command takes no arguments")
  | [] => ret (ok help_text)
  end.

Definition echoCommand_body (args : list string) : M W CommandResult :=
  ret (ok (fold_left (fun out arg => out ++ (arg ++ " ")) args "")).

Definition pauseCommand_body (args : list string) : M W CommandResult :=
  match args with
  | _ :: _ => give (failure "pause: this command takes no arguments")
  | [] => act sys_cin_ignore ;;; ret (ok "")
  end.

(** *** ls, dir *)

Definition perm_char (mode bit : Z) (c : string) : string :=
  if Z.land mode bit =? 0 then "-" else c.

(** [Commands::formatLsLongListing]. *)
Definition formatLsLongListing (name : string) (info : stat_t) (w : W) : string :=
  let m := st_mode info in
  let out := if S_ISDIR m then "d" else "-" in
  let out := out ++ perm_char m S_IRUSR "r" in
  let out := out ++ perm_char m S_IWUSR "w" in
  let out := out ++ perm_char m S_IXUSR "x" in
  let out := out ++ perm_char m S_IRGRP "r" in
  let out := out ++ perm_char m S_IWGRP "w" in
  let out := out ++ perm_char m S_IXGRP "x" in
  let out := out ++ perm_char m S_IROTH "r" in
  let out := out ++ perm_char m S_IWOTH "w" in
  let out := out ++ perm_char m S_IXOTH "x" in
  let out := out ++ (" " ++ to_string (st_nlink info)) in
  let user := match sys_getpwuid (st_uid info) w with
              | Some n => n | None => to_string (st_uid info) end in
  let out := out ++ (" " ++ user) in
  let group := match sys_getgrgid (st_gid info) w with
               | Some n => n | None => to_string (st_gid info) end in
  let out := out ++ (" " ++ group) in
  let out := out ++ (" " ++ to_string (st_size info)) in
  let out := out ++ (" " ++ sys_strftime (st_mtime info) w) in
  out ++ (" " ++ name ++ LF).

Record ls_opts : Type := mkLsOpts {
  showAll : bool;
  almostAll : bool;
  longList : bool;
  ls_paths : list string
}.

Definition ls_arg (arg : string) (o : ls_opts) : M W ls_opts :=
  if arg == "-a" then ret (mkLsOpts true (almostAll o) (longList o) (ls_paths o))
  else if arg == "-A" then ret (mkLsOpts (showAll o) true (longList o) (ls_paths o))
  else if arg == "-l" then ret (mkLsOpts (showAll o) (almostAll o) true (ls_paths o))
  else if (1 <? String.length arg)%nat && Ascii.eqb (Str.front arg) "-" then
    give (failure ("ls: invalid flag -- '" ++ arg ++ "'"))
  else ret (mkLsOpts (showAll o) (almostAll o) (longList o) (ls_paths o ++ [arg])).

Definition ls_entry (o : ls_opts) (p : string) (name : string) (out : string)
  : M W string :=
  if negb (showAll o) && negb (almostAll o) && Ascii.eqb (Str.front name) "."
  then ret out
  else if almostAll o && ((name == ".") || (name == ".."))
  then ret out
  else
    let full := p ++ "/" ++ name in
    if longList o then
      r <- ask (sys_stat full) ;;
      match r with
      | inl e => give (failure ("ls: cannot access '" ++ name ++ "': " ++ strerror e))
      | inr finfo =>
          l <- ask (formatLsLongListing name finfo) ;;
          ret (out ++ l)
      end
    else ret (out ++ (name ++ " ")).

Definition ls_path (o : ls_opts) (paths : list string) (p : string) (out : string)
  : M W string :=
  r <- ask (sys_stat p) ;;
  match r with
  | inl e => give (failure ("ls: cannot access '" ++ p ++ "': " ++ strerror e))
  | inr info =>
      if negb (S_ISDIR (st_mode info)) then
        if longList o then
          l <- ask (formatLsLongListing p info) ;;
          ret (out ++ l)
        else ret (out ++ (p ++ LF))
      else
        let out := if (1 <? length paths)%nat then out ++ (p ++ ":" ++ LF) else out in
        d <- call (sys_readdir_all p) ;;
        match d with
        | inl e =>
            give (failure ("ls: cannot open directory '" ++ p ++ "': " ++ strerror e))
        | inr names => for_each (ls_entry o p) names out
        end
  end.

Definition lsCommand_body (args : list string) : M W CommandResult :=
  o <- for_each ls_arg args (mkLsOpts false false false []) ;;
  let paths := match ls_paths o with [] => ["."] | ps => ps end in
  out <- for_each (ls_path o paths) paths "" ;;
  ret (ok (stripTrailingNewline out)).

Definition dirCommand_body (args : list string) : M W CommandResult :=
  lsCommand_body args.

(** *** cd

    [getenv] may return a null pointer.  [chdir(NULL)] fails (the kernel
    rejects the address); [std::string(NULL)] is undefined. *)
Definition cdCommand_body (args : list string) : M W CommandResult :=
  home <- ask (sys_getenv "HOME") ;;
  match args with
  | [] =>
      match home with
      | None => give (failure "cd: failed to change directory")
      | Some h =>
          r <- call (sys_chdir h) ;;
          match r with
          | Some _ => give (failure "cd: failed to change directory")
          | None => ret (ok "")
          end
      end
  | [arg] =>
      p <- (if Ascii.eqb (Str.front arg) "~" then
              match home with
              | None => halt Undefined
              | Some h => ret (h ++ Str.drop 1 arg)
              end
            else ret arg) ;;
      r <- call (sys_chdir p) ;;
      match r with
      | Some _ => give (failure ("cd: failed to change directory: " ++ p))
      | None => ret (ok "")
      end
  | _ => give (failure "cd: too many arguments")
  end.

(** *** rmdir *)

(** [while (!path.empty() && path.back() == '/') path.pop_back();],
    with the string's length as fuel. *)
Fixpoint strip_loop (fuel : nat) (path : string) : string :=
  match fuel with
  | O => path
  | S fuel' =>
      if negb (Str.empty path) && Str.ends_with Str.slash path
      then strip_loop fuel' (Str.pop_back path)
      else path
  end.

Definition strip_trailing_slashes (path : string) : string :=
  strip_loop (String.length path) path.

Definition is_slash (c : ascii) : bool := Ascii.eqb c Str.slash.

(** The [-p] loop of [rmdirCommand]; each turn shortens [path], so its
    length plus one is enough fuel ([rmdir_p_loop_walk] below). *)
Fixpoint rmdir_p_loop (fuel : nat) (path : string) : M W CommandResult :=
  match fuel with
  | O => halt OutOfFuel
  | S fuel' =>
      if Str.empty path then ret (ok "")
      else
        r <- call (sys_rmdir path) ;;
        match r with
        | Some e => give (failure (formatRmdirErrorMsg path e))
        | None =>
            match Str.find_last_of is_slash path with
            | None => ret (ok "")
            | Some pos =>
                let path' := Str.take pos path in
                if (path' == "") || (path' == "/") then ret (ok "")
                else rmdir_p_loop fuel' path'
            end
        end
  end.

Definition rmdirCommand_body (args : list string) : M W CommandResult :=
  match args with
  | [] => give (failure "rmdir: missing operand")
  | [flag; operand] =>
      if flag == "-p" then
        if Str.empty operand then give (failure "rmdir: no path specified")
        else
          let path := strip_trailing_slashes operand in
          rmdir_p_loop (S (String.length path)) path
      else give (failure ("rmdir: unrecognized option '" ++ flag ++ "'"))
  | [path] =>
      r <- call (sys_rmdir path) ;;
      match r with
      | Some e => give (failure (formatRmdirErrorMsg path e))
      | None => ret (ok "")
      end
  | _ => give (failure "rmdir: too many arguments")
  end.

(** *** touch *)

Definition touchCommand_body (args : list string) : M W CommandResult :=
  match args with
  | [fileName] =>
      st <- ask (sys_stat fileName) ;;
      match st with
      | inl _ =>
          r <- call (sys_open fileName (Z.lor O_CREAT O_WRONLY) 420) ;;
          match r with
          | inl e =>
              give (failure ("touch: cannot create file '" ++ fileName ++ "': "
                             ++ strerror e))
          | inr f => act (sys_close f) ;;; ret (ok "")
          end
      | inr _ =>
          actime <- ask sys_time ;;
          modtime <- ask sys_time ;;
          r <- call (sys_utime fileName actime modtime) ;;
          match r with
          | Some e =>
              give (failure ("touch: failed to update timestamps for '" ++ fileName
                             ++ "': " ++ strerror e))
          | None => ret (ok "")
          end
      end
  | _ => give (failure "touch: invalid arguments passed")
  end.

(** *** cp *)

Definition is_dir_stat (r : errno + stat_t) : bool :=
  match r with
  | inr st => S_ISDIR (st_mode st)
  | inl _ => false
  end.

Definition wrote_all (r : errno + nat) (chunk : string) : bool :=
  match r with
  | inr n => (n =? String.length chunk)%nat
  | inl _ => false
  end.

Definition cp_write (fdSrc fdDest : fd) (finalDest : string) (chunk : string) (_ : unit)
  : M W unit :=
  r <- call (sys_write fdDest chunk) ;;
  if wrote_all r chunk then ret tt
  else
    e <- (match r with inl e => ret e | inr _ => ask sys_errno end) ;;
    act (sys_close fdSrc) ;;;
    act (sys_close fdDest) ;;;
    give (failure ("cp: write error on '" ++ finalDest ++ "': " ++ strerror e)).

Definition cp_source (dest : string) (destIsDir : bool) (src : string) (_ : unit)
  : M W unit :=
  stSrc <- ask (sys_stat src) ;;
  if is_dir_stat stSrc then give (failure ("cp: omitting directory '" ++ src ++ "'"))
  else
    let finalDest :=
      if destIsDir then
        let filename := match Str.find_last_of is_slash src with
                        | None => src
                        | Some pos => Str.drop (pos + 1) src
                        end in
        dest ++ "/" ++ filename
      else dest in
    rs <- call (sys_open src O_RDONLY 0) ;;
    match rs with
    | inl e =>
        give (failure ("cp: cannot open source file '" ++ src ++ "': " ++ strerror e))
    | inr fdSrc =>
        rd <- call (sys_open finalDest (Z.lor (Z.lor O_WRONLY O_CREAT) O_TRUNC) 420) ;;
        match rd with
        | inl e =>
            act (sys_close fdSrc) ;;;
            give (failure ("cp: cannot create destination file '" ++ finalDest
                           ++ "': " ++ strerror e))
        | inr fdDest =>
            chunks <- call (sys_read_chunks fdSrc 1024) ;;
            for_each (cp_write fdSrc fdDest finalDest) (fst chunks) tt ;;;
            match snd chunks with
            | Some e =>
                act (sys_close fdSrc) ;;;
                act (sys_close fdDest) ;;;
                give (failure ("cp: read error on '" ++ src ++ "': " ++ strerror e))
            | None =>
                act (sys_close fdSrc) ;;;
                act (sys_close fdDest)
            end
        end
    end.

Definition cpCommand_body (args : list string) : M W CommandResult :=
  match args with
  | [] => give (failure "cp: missing operand")
  | [a] => give (failure ("cp: missing destination file operand after '" ++ a ++ "'"))
  | _ =>
      let dest := last args "" in
      stDest <- ask (sys_stat dest) ;;
      let destIsDir := is_dir_stat stDest in
      let numSources := (length args - 1)%nat in
      if (1 <? numSources)%nat && negb destIsDir then
        give (failure ("cp: target '" ++ dest ++ "' is not a directory"))
      else
        for_each (cp_source dest destIsDir) (firstn numSources args) tt ;;;
        ret (ok "")
  end.

(** *** chown *)

Definition chown_file (newOwner : Z) (file : string) (_ : unit) : M W unit :=
  st <- ask (sys_stat file) ;;
  match st with
  | inl e => give (failure ("chown: cannot access '" ++ file ++ "': " ++ strerror e))
  | inr _ =>
      r <- call (sys_chown file newOwner (-1)) ;;
      match r with
      | Some e =>
          give (failure ("chown: failed to change owner of '" ++ file ++ "': "
                         ++ strerror e))
      | None => ret tt
      end
  end.

Definition chownCommand_body (args : list string) : M W CommandResult :=
  match args with
  | [] => give (failure "chown: missing arguments")
  | [_] => give (failure "chown: missing operand")
  | username :: files =>
      pw <- ask (sys_getpwnam username) ;;
      match pw with
      | None => give (failure "chown: no such user found")
      | Some newOwner =>
          for_each (chown_file newOwner) files tt ;;;
          ret (ok "")
      end
  end.

(** *** quit, clr, pwd, environ, cat *)

Definition quitCommand_body (args : list string) : M W CommandResult :=
  match args with
  | _ :: _ => give (failure "quit: this command takes no arguments")
  | [] => act (sys_cout ("[Shell Terminated]" ++ LF)) ;;; halt (Exit 0)
  end.

Definition NO_NL : string := "__NO_NL__".

Definition clrCommand_body (args : list string) : M W CommandResult :=
  match args with
  | _ :: _ => give (failure "clr: takes no arguments")
  | [] => ret (ok (NO_NL ++ ESC ++ "[H" ++ ESC ++ "[J"))
  end.

Definition pwdCommand_body (args : list string) : M W CommandResult :=
  match args with
  | _ :: _ => give (failure "pwd: this command takes no arguments")
  | [] =>
      cwd <- ask sys_getcwd ;;
      match cwd with
      | None => give (failure "pwd: failed to get current directory")
      | Some d => ret (ok d)
      end
  end.

Definition environCommand_body (args : list string) : M W CommandResult :=
  match args with
  | _ :: _ => give (failure "environ: this command takes no arguments")
  | [] =>
      env <- ask sys_environ ;;
      let out := fold_left (fun out e => out ++ (e ++ LF)) env "" in
      ret (ok (stripTrailingNewline out))
  end.

Definition cat_file (filename : string) (out : string) : M W string :=
  r <- call (sys_open filename O_RDONLY 0) ;;
  match r with
  | inl e => give (failure ("cat: cannot open " ++ filename ++ ": " ++ strerror e))
  | inr f =>
      chunks <- call (sys_read_chunks f 4096) ;;
      let out := fold_left append (fst chunks) out in
      match snd chunks with
      | Some e =>
          give (failure ("cat: error reading " ++ filename ++ ": " ++ strerror e))
      | None =>
          act (sys_close f) ;;;
          ret (out ++ LF)
      end
  end.

Definition catCommand_body (args : list string) : M W CommandResult :=
  match args with
  | [] => give (failure "cat: missing file operand")
  | _ =>
      out <- for_each cat_file args "" ;;
      ret (ok (stripTrailingNewline out))
  end.

(** *** grep

    [totalMatches], [lineNumber], [flagCount] and [opt_m] are [int]s in the
    source.  [opt_m] is what [std::stoi] returns, within the range of [int];
    [flagCount] never goes past 2; [totalMatches] and [lineNumber] are
    incremented with [int_incr]. *)

Context {R : Type} {rx : RegexLib R}.

Record grep_opts : Type := mkGrepOpts {
  opt_i : bool;
  opt_n : bool;
  opt_v : bool;
  opt_w : bool;
  opt_c : bool;
  opt_o : bool;
  opt_m : Z
}.

Definition grep_defaults : grep_opts :=
  mkGrepOpts false false false false false false (-1).

Inductive grep_parsed : Type :=
| GrepReturn (r : CommandResult)
| GrepThrow (what : string)
| GrepArgs (o : grep_opts) (rest : list string).

(** The flag loop: [args] is what remains from [idx] on.  An unknown token
    that starts with a dash leaves the loop and becomes the pattern. *)
Fixpoint grep_flags (args : list string) (flagCount : Z) (o : grep_opts)
  : grep_parsed :=
  match args with
  | [] => GrepArgs o []
  | flag :: rest =>
      if negb (Ascii.eqb (Str.front flag) "-") then GrepArgs o args
      else if 1 <? flagCount + 1 then
        GrepReturn (failure "grep: only one flag can be used at a time")
      else
        let n := flagCount + 1 in
        if flag == "-i" then
          grep_flags rest n (mkGrepOpts true (opt_n o) (opt_v o) (opt_w o) (opt_c o) (opt_o o) (opt_m o))
        else if flag == "-n" then
          grep_flags rest n (mkGrepOpts (opt_i o) true (opt_v o) (opt_w o) (opt_c o) (opt_o o) (opt_m o))
        else if flag == "-v" then
          grep_flags rest n (mkGrepOpts (opt_i o) (opt_n o) true (opt_w o) (opt_c o) (opt_o o) (opt_m o))
        else if flag == "-w" then
          grep_flags rest n (mkGrepOpts (opt_i o) (opt_n o) (opt_v o) true (opt_c o) (opt_o o) (opt_m o))
        else if flag == "-c" then
          grep_flags rest n (mkGrepOpts (opt_i o) (opt_n o) (opt_v o) (opt_w o) true (opt_o o) (opt_m o))
        else if flag == "-o" then
          grep_flags rest n (mkGrepOpts (opt_i o) (opt_n o) (opt_v o) (opt_w o) (opt_c o) true (opt_m o))
        else if flag == "-m" then
          match rest with
          | [] => GrepReturn (failure "grep: missing argument for -m")
          | num :: rest' =>
              match Stoi.stoi num 10 with
              | StoiOk v =>
                  grep_flags rest' n
                    (mkGrepOpts (opt_i o) (opt_n o) (opt_v o) (opt_w o) (opt_c o) (opt_o o) v)
              | _ => GrepThrow "stoi"
              end
          end
        else GrepArgs o args
  end.

(** [Commands::matchesPattern]: the flag and the value left in [outMatch]
    (untouched, hence empty, when the search fails). *)
Definition matchesPattern (line : string) (re : R) (printOnlyMatch : bool)
  : bool * string :=
  match regex_search re line with
  | None => (false, "")
  | Some m => (true, if printOnlyMatch then m else line)
  end.

(** Scanning state across files: [totalMatches] (an [int]) and [out]. *)
Definition grep_acc : Type := (Z * string)%type.

(** The body run for one line (both for a line ended by a newline and for
    the last, unterminated one): [inl] is the early return of the limit. *)
Definition grep_line (o : grep_opts) (re : R) (multipleFiles : bool) (file : string)
    (line : string) (lineNumber : Z) (acc : grep_acc) : CommandResult + grep_acc :=
  let '(totalMatches, out) := acc in
  let '(matched, matchedText) := matchesPattern line re (opt_o o) in
  let matched := if opt_v o then negb matched else matched in
  if matched then
    let totalMatches := int_incr totalMatches in
    if negb (opt_m o =? -1) && (opt_m o <? totalMatches) then
      if opt_c o then inl (ok (to_string totalMatches))
      else
        inl (ok (if negb (Str.empty out) && Str.ends_with Str.nl out
                 then Str.pop_back out else out))
    else if negb (opt_c o) then
      let out := if multipleFiles then out ++ (file ++ ":") else out in
      let out := if opt_n o then out ++ (to_string lineNumber ++ ":") else out in
      let out := if opt_v o && negb (opt_o o)
                 then out ++ (line ++ LF)
                 else out ++ (matchedText ++ LF) in
      inr (totalMatches, out)
    else inr (totalMatches, out)
  else inr (totalMatches, out).

(** State inside one file: [lineBuffer], [lineNumber] (an [int]) and the
    accumulator. *)
Definition grep_scan : Type := (string * Z * grep_acc)%type.

(** [while ((newlinePos = lineBuffer.find('\n')) != npos) ...]; every turn
    erases at least one character, so the buffer's length is enough fuel. *)
Fixpoint grep_drain (fuel : nat) (o : grep_opts) (re : R) (multipleFiles : bool)
    (file : string) (st : grep_scan) : CommandResult + grep_scan :=
  let '(lineBuffer, lineNumber, acc) := st in
  match Str.find Str.nl lineBuffer with
  | None => inr st
  | Some newlinePos =>
      match fuel with
      | O => inr st
      | S fuel' =>
          let line := Str.take newlinePos lineBuffer in
          let lineBuffer := Str.drop (newlinePos + 1) lineBuffer in
          match grep_line o re multipleFiles file line lineNumber acc with
          | inl r => inl r
          | inr acc' =>
              grep_drain fuel' o re multipleFiles file
                         (lineBuffer, int_incr lineNumber, acc')
          end
      end
  end.

(** The read loop over the buffers delivered by [read]. *)
Fixpoint grep_chunks (o : grep_opts) (re : R) (multipleFiles : bool) (file : string)
    (chunks : list string) (st : grep_scan) : CommandResult + grep_scan :=
  match chunks with
  | [] => inr st
  | chunk :: rest =>
      let '(lineBuffer, lineNumber, acc) := st in
      let lineBuffer := lineBuffer ++ chunk in
      match grep_drain (String.length lineBuffer) o re multipleFiles file
              (lineBuffer, lineNumber, acc) with
      | inl r => inl r
      | inr st' => grep_chunks o re multipleFiles file rest st'
      end
  end.

Definition grep_file (o : grep_opts) (re : R) (multipleFiles : bool) (file : string)
    (acc : grep_acc) : M W grep_acc :=
  r <- call (sys_open file O_RDONLY 0) ;;
  match r with
  | inl _ => give (failure ("grep: cannot open file '" ++ file ++ "'"))
  | inr f =>
      chunks <- call (sys_read_chunks f 1024) ;;
      match grep_chunks o re multipleFiles file (fst chunks) ("", 1, acc) with
      | inl r => act (sys_close f) ;;; give r
      | inr (lineBuffer, lineNumber, acc') =>
          if negb (Str.empty lineBuffer) then
            match grep_line o re multipleFiles file lineBuffer lineNumber acc' with
            | inl r => act (sys_close f) ;;; give r
            | inr acc'' => act (sys_close f) ;;; ret acc''
            end
          else act (sys_close f) ;;; ret acc'
      end
  end.

Definition grepCommand_body (args : list string) : M W CommandResult :=
  if (length args <? 2)%nat then give (failure "grep: missing arguments")
  else
    match grep_flags args 0 grep_defaults with
    | GrepReturn r => give r
    | GrepThrow what => halt (Throw what)
    | GrepArgs o [] => give (failure "grep: missing pattern")
    | GrepArgs o [_] => give (failure "grep: missing file operand")
    | GrepArgs o (pattern :: files) =>
        let pattern := if opt_w o then "\b" ++ pattern ++ "\b" else pattern in
        match regex_compile pattern (opt_i o) with
        | None => give (failure "grep: invalid regex")
        | Some re =>
            let multipleFiles := (1 <? length files)%nat in
            acc <- for_each (grep_file o re multipleFiles) files (0, "") ;;
            let '(totalMatches, out) := acc in
            if opt_c o then ret (ok (to_string totalMatches))
            else if totalMatches =? 0 then ret (mkResult 1 "" "")
            else ret (ok (stripTrailingNewline out))
        end
    end.

(** *** wc *)

Record wc_opts : Type := mkWcOpts {
  countLines : bool;
  countWords : bool;
  countChars : bool;
  wc_files : list string
}.

Definition wc_arg (o : wc_opts) (arg : string) : wc_opts :=
  if arg == "-l" then mkWcOpts true (countWords o) (countChars o) (wc_files o)
  else if arg == "-w" then mkWcOpts (countLines o) true (countChars o) (wc_files o)
  else if arg == "-c" then mkWcOpts (countLines o) (countWords o) true (wc_files o)
  else mkWcOpts (countLines o) (countWords o) (countChars o) (wc_files o ++ [arg]).

(** [++x] on a [size_t]. *)
Definition size_incr (x : Z) : Z := (x + 1) mod SIZE_MODULUS.

Record wc_state : Type := mkWc {
  wc_lines : Z;
  wc_words : Z;
  wc_chars : Z;
  inWord : bool;
  lastCharWasNewline : bool
}.

Definition wc_init : wc_state := mkWc 0 0 0 false true.

Definition wc_space (c : ascii) : bool :=
  Ascii.eqb c " " || Ascii.eqb c (ascii_of_nat 9) || Ascii.eqb c Str.nl
  || Ascii.eqb c (ascii_of_nat 13).

(** The body of the inner [for] loop, for one character. *)
Definition wc_char (st : wc_state) (c : ascii) : wc_state :=
  let chars := size_incr (wc_chars st) in
  let '(lines, lastNl) :=
    if Ascii.eqb c Str.nl then (size_incr (wc_lines st), true)
    else (wc_lines st, false) in
  let '(words, inw) :=
    if wc_space c then (wc_words st, false)
    else if negb (inWord st) then (size_incr (wc_words st), true)
    else (wc_words st, inWord st) in
  mkWc lines words chars inw lastNl.

Fixpoint wc_buffer (buffer : string) (st : wc_state) : wc_state :=
  match buffer with
  | "" => st
  | String c rest => wc_buffer rest (wc_char st c)
  end.

Definition wc_read (chunks : list string) : wc_state :=
  fold_left (fun st buffer => wc_buffer buffer st) chunks wc_init.

(** The counts after the read loop, with the final adjustment of [lines]. *)
Definition wc_counts (chunks : list string) : Z * Z * Z :=
  let st := wc_read chunks in
  let lines := if negb (lastCharWasNewline st) then size_incr (wc_lines st)
               else wc_lines st in
  (lines, wc_words st, wc_chars st).

(** [Commands::isFileEmpty]. *)
Definition isFileEmpty (filename : string) (w : W) : bool :=
  match sys_stat filename w with
  | inl _ => false
  | inr st => st_size st =? 0
  end.

Definition wc_report (o : wc_opts) (lines words chars : string) (filename : string)
  : string :=
  let s := "" in
  let s := if countLines o then s ++ (lines ++ " ") else s in
  let s := if countWords o then s ++ (words ++ " ") else s in
  let s := if countChars o then s ++ (chars ++ " ") else s in
  s ++ (filename ++ LF).

Definition wc_file (o : wc_opts) (filename : string) (out : string) : M W string :=
  isEmpty <- ask (isFileEmpty filename) ;;
  if isEmpty then ret (out ++ wc_report o "0" "0" "0" filename)
  else
    r <- call (sys_open filename O_RDONLY 0) ;;
    match r with
    | inl e =>
        give (failure ("wc: cannot open file '" ++ filename ++ "': " ++ strerror e))
    | inr f =>
        chunks <- call (sys_read_chunks f 4096) ;;
        let '(lines, words, chars) := wc_counts (fst chunks) in
        match snd chunks with
        | Some e =>
            act (sys_close f) ;;;
            give (failure ("wc: error reading file '" ++ filename ++ "': "
                           ++ strerror e))
        | None =>
            act (sys_close f) ;;;
            ret (out ++ wc_report o (to_string lines) (to_string words)
                                   (to_string chars) filename)
        end
    end.

Definition wcCommand_body (args : list string) : M W CommandResult :=
  let o := fold_left wc_arg args (mkWcOpts false false false []) in
  let o := if negb (countLines o) && negb (countWords o) && negb (countChars o)
           then mkWcOpts true true true (wc_files o) else o in
  match wc_files o with
  | [] => give (failure "wc: missing file operand")
  | files =>
      out <- for_each (wc_file o) files "" ;;
      ret (ok (stripTrailingNewline out))
  end.

(** *** mkdir *)

Fixpoint mkdir_flags (args : list string) (recurse : bool)
  : CommandResult + bool * list string :=
  match args with
  | [] => inr (recurse, [])
  | a :: rest =>
      if Ascii.eqb (Str.front a) "-" then
        if a == "-p" then mkdir_flags rest true
        else inl (failure ("mkdir: invalid option '" ++ a ++ "'"))
      else inr (recurse, args)
  end.

(** The character loop of the [-p] form: [rest] is [path] from index [i] on,
    [partial] the prefix built so far. *)
Fixpoint mkdir_p_loop (rest : string) (partial : string) : M W unit :=
  match rest with
  | "" => ret tt
  | String c rest' =>
      let partial := partial ++ Str.of_char c in
      if negb (Ascii.eqb c Str.slash) && negb (Str.empty rest') then
        mkdir_p_loop rest' partial
      else if (partial == "/") || (partial == "//") then
        mkdir_p_loop rest' partial
      else
        r <- call (sys_mkdir partial 493) ;;
        match r with
        | Some e =>
            if negb (errno_eqb e EEXIST) then
              give (failure ("mkdir: cannot create directory '" ++ partial ++ "': "
                             ++ strerror e))
            else mkdir_p_loop rest' partial
        | None => mkdir_p_loop rest' partial
        end
  end.

Definition mkdir_path (recurse : bool) (path : string) (_ : unit) : M W unit :=
  if negb recurse then
    r <- call (sys_mkdir path 493) ;;
    match r with
    | Some e =>
        give (failure ("mkdir: cannot create directory '" ++ path ++ "': "
                       ++ strerror e))
    | None => ret tt
    end
  else mkdir_p_loop path "".

Definition mkdirCommand_body (args : list string) : M W CommandResult :=
  match args with
  | [] => give (failure "mkdir: missing directory argument")
  | _ =>
      match mkdir_flags args false with
      | inl r => give r
      | inr (_, []) => give (failure "mkdir: missing directory argument")
      | inr (recurse, paths) =>
          for_each (mkdir_path recurse) paths tt ;;;
          ret (ok "")
      end
  end.

(** *** rm *)

Fixpoint rm_flags (args : list string) (recursive : bool)
  : CommandResult + bool * list string :=
  match args with
  | [] => inr (recursive, [])
  | flag :: rest =>
      if Ascii.eqb (Str.front flag) "-" then
        match Str.find "r" flag with
        | Some _ =>
            match rest with
            | [] => inl (failure ("rm: missing operand after '" ++ flag ++ "'"))
            | _ => rm_flags rest true
            end
        | None => inl (failure ("rm: invalid option '" ++ flag ++ "'"))
        end
      else inr (recursive, args)
  end.

(** The recursive call on a directory entry; its result is dropped. *)
Definition rm_child (self : handler) (path : string) (name : string) (_ : unit)
  : M W unit :=
  if (name == ".") || (name == "..") then ret tt
  else
    let subpath := path ++ "/" ++ name in
    fun w =>
      match self ["-r"; subpath] w with
      | (Ret _, w') => (Next tt, w')
      | (o, w') => (Done o, w')
      end.

Definition rm_path (self : handler) (recursive : bool) (path : string) (_ : unit)
  : M W unit :=
  st <- ask (sys_stat path) ;;
  match st with
  | inl e => give (failure ("rm: cannot access '" ++ path ++ "': " ++ strerror e))
  | inr info =>
      if S_ISDIR (st_mode info) then
        if recursive then
          d <- call (sys_readdir_all path) ;;
          match d with
          | inl e =>
              give (failure ("rm: cannot open directory '" ++ path ++ "': "
                             ++ strerror e))
          | inr names =>
              for_each (rm_child self path) names tt ;;;
              r <- call (sys_rmdir path) ;;
              match r with
              | Some e =>
                  give (failure ("rm: failed to remove directory '" ++ path ++ "': "
                                 ++ strerror e))
              | None => ret tt
              end
          end
        else give (failure ("rm: '" ++ path ++ "' is a directory"))
      else
        r <- call (sys_unlink path) ;;
        match r with
        | Some e =>
            give (failure ("rm: cannot remove '" ++ path ++ "': " ++ strerror e))
        | None => ret tt
        end
  end.

(** [rmCommand] calls itself on the entries of a directory; [fuel] bounds
    the depth of that recursion. *)
Fixpoint rmCommand_fuel (fuel : nat) (args : list string) : M W CommandResult :=
  match fuel with
  | O => halt OutOfFuel
  | S fuel' =>
      match args with
      | [] => give (failure "rm: missing operand")
      | _ =>
          match rm_flags args false with
          | inl r => give r
          | inr (recursive, paths) =>
              for_each (rm_path (fun a => run (rmCommand_fuel fuel' a)) recursive)
                       paths tt ;;;
              ret (ok "")
          end
      end
  end.

(** *** mv *)

Definition is_slash_or_backslash (c : ascii) : bool :=
  Ascii.eqb c "/" || Ascii.eqb c "\".

Definition mv_write (fdIn fdOut : fd) (dest : string) (chunk : string) (_ : unit)
  : M W unit :=
  r <- call (sys_write fdOut chunk) ;;
  if wrote_all r chunk then ret tt
  else
    act (sys_close fdIn) ;;;
    act (sys_close fdOut) ;;;
    give (failure ("mv: write error while copying to '" ++ dest ++ "'")).

(** The copy-then-delete path taken after [rename] failed with [EXDEV]. *)
Definition mv_copy_unlink (src dest : string) : M W CommandResult :=
  ri <- call (sys_open src O_RDONLY 0) ;;
  match ri with
  | inl _ => give (failure ("mv: cannot open source file '" ++ src ++ "'"))
  | inr fdIn =>
      ro <- call (sys_open dest (Z.lor (Z.lor O_WRONLY O_CREAT) O_TRUNC) 420) ;;
      match ro with
      | inl _ =>
          act (sys_close fdIn) ;;;
          give (failure ("mv: cannot create destination file '" ++ dest ++ "'"))
      | inr fdOut =>
          chunks <- call (sys_read_chunks fdIn 4096) ;;
          for_each (mv_write fdIn fdOut dest) (fst chunks) tt ;;;
          act (sys_close fdIn) ;;;
          act (sys_close fdOut) ;;;
          r <- call (sys_unlink src) ;;
          match r with
          | Some _ =>
              give (failure ("mv: copied but failed to remove original '" ++ src ++ "'"))
          | None => ret (ok "")
          end
      end
  end.

(** The destination actually used: inside [dest] when it is a directory.
    [dest.back()] on an empty string is undefined ([None]). *)
Definition mv_dest (src dest : string) (destIsDir : bool) : option string :=
  if destIsDir then
    let filename := match Str.find_last_of is_slash_or_backslash src with
                    | None => src
                    | Some pos => Str.drop (pos + 1) src
                    end in
    match Str.back dest with
    | None => None
    | Some c =>
        if negb (is_slash_or_backslash c) then Some ((dest ++ "/") ++ filename)
        else Some (dest ++ filename)
    end
  else Some dest.

Definition mvCommand_body (args : list string) : M W CommandResult :=
  match args with
  | [src; dest0] =>
      st <- ask (sys_stat dest0) ;;
      match mv_dest src dest0 (is_dir_stat st) with
      | None => halt Undefined
      | Some dest =>
          r <- call (sys_rename src dest) ;;
          match r with
          | None => ret (ok "")
          | Some e =>
              if errno_eqb e EXDEV then mv_copy_unlink src dest
              else
                give (failure ("mv: failed to move '" ++ src ++ "' to '" ++ dest
                               ++ "': " ++ strerror e))
          end
      end
  | _ => give (failure "mv: requires exactly two arguments: source and destination")
  end.

(** *** chmod *)

(** Conversion of an [int] to [mode_t] (unsigned, 32 bits). *)
Definition to_mode_t (v : Z) : Z := v mod MODE_MODULUS.

Definition chmodCommand_body (args : list string) : M W CommandResult :=
  match args with
  | [perm; filename] =>
      match Stoi.stoi perm 8 with
      | StoiOk v =>
          r <- call (sys_chmod filename (to_mode_t v)) ;;
          match r with
          | Some e =>
              give (failure ("chmod: failed to change permissions for '" ++ filename
                             ++ "': " ++ strerror e))
          | None => ret (ok "")
          end
      | _ => give (failure "chmod: invalid permissions format")
      end
  | _ => give (failure "chmod: requires exactly two arguments: permissions and file")
  end.

(** *** The handlers as the dispatcher calls them *)

Definition helpCommand : handler := fun args => run (helpCommand_body args).
Definition echoCommand : handler := fun args => run (echoCommand_body args).
Definition pauseCommand : handler := fun args => run (pauseCommand_body args).
Definition lsCommand : handler := fun args => run (lsCommand_body args).
Definition dirCommand : handler := fun args => run (dirCommand_body args).
Definition cdCommand : handler := fun args => run (cdCommand_body args).
Definition rmdirCommand : handler := fun args => run (rmdirCommand_body args).
Definition touchCommand : handler := fun args => run (touchCommand_body args).
Definition cpCommand : handler := fun args => run (cpCommand_body args).
Definition chownCommand : handler := fun args => run (chownCommand_body args).
Definition grepCommand : handler := fun args => run (grepCommand_body args).
Definition quitCommand : handler := fun args => run (quitCommand_body args).
Definition clrCommand : handler := fun args => run (clrCommand_body args).
Definition pwdCommand : handler := fun args => run (pwdCommand_body args).
Definition environCommand : handler := fun args => run (environCommand_body args).
Definition catCommand : handler := fun args => run (catCommand_body args).
Definition wcCommand : handler := fun args => run (wcCommand_body args).
Definition mkdirCommand : handler := fun args => run (mkdirCommand_body args).
Definition rmCommand (fuel : nat) : handler :=
  fun args => run (rmCommand_fuel fuel args).
Definition mvCommand : handler := fun args => run (mvCommand_body args).
Definition chmodCommand : handler := fun args => run (chmodCommand_body args).

(** The handlers of [commands.cpp], by name. *)
Inductive command : Type :=
| CmdHelp | CmdEcho | CmdPause | CmdLs | CmdDir | CmdCd | CmdRmdir | CmdTouch
| CmdCp | CmdChown | CmdGrep | CmdQuit | CmdClr | CmdPwd | CmdEnviron | CmdCat
| CmdWc | CmdMkdir | CmdRm | CmdMv | CmdChmod.

Definition handler_of (fuel : nat) (c : command) : handler :=
  match c with
  | CmdHelp => helpCommand
  | CmdEcho => echoCommand
  | CmdPause => pauseCommand
  | CmdLs => lsCommand
  | CmdDir => dirCommand
  | CmdCd => cdCommand
  | CmdRmdir => rmdirCommand
  | CmdTouch => touchCommand
  | CmdCp => cpCommand
  | CmdChown => chownCommand
  | CmdGrep => grepCommand
  | CmdQuit => quitCommand
  | CmdClr => clrCommand
  | CmdPwd => pwdCommand
  | CmdEnviron => environCommand
  | CmdCat => catCommand
  | CmdWc => wcCommand
  | CmdMkdir => mkdirCommand
  | CmdRm => rmCommand fuel
  | CmdMv => mvCommand
  | CmdChmod => chmodCommand
  end.

End Handlers.

(** ** The interaction loop's rendering of a result ([main] in [shell.cpp]) *)

Inductive stream : Type := Stdout | Stderr.

(** One [operator<<] on a stream. *)
Inductive emit : Type := Emit (to : stream) (text : string).

(** Lines 36 to 61 of [shell.cpp]: the writes performed for a result, in
    program order. *)
Definition render (result : CommandResult) : list emit :=
  let printNewline := false in
  let '(printNewline, trace) :=
    if status result =? 0 then
      let printNewline := if negb (Str.empty (output result)) then true else printNewline in
      let '(printNewline, out) :=
        if Str.starts_with NO_NL (output result)
        then (false, Str.drop 9 (output result))
        else (printNewline, output result) in
      (printNewline, [Emit Stdout out])
    else (printNewline, []) in
  let '(printNewline, trace) :=
    if status result =? 1 then
      let printNewline := if negb (Str.empty (error result)) then true else printNewline in
      (printNewline, (trace ++ [Emit Stderr (error result)])%list)
    else (printNewline, trace) in
  if printNewline then (trace ++ [Emit Stdout LF])%list else trace.

(** ** An in-memory operating system

    A file system as a finite table from absolute paths to nodes, a working
    directory, an environment, a user database, a clock and a table of open
    descriptors.  Paths are lists of components, innermost first; the root
    is the empty list.  Name resolution walks the components from the root or
    from the working directory and requires every directory it passes to
    exist.  The process owns every node and is not the superuser: creating or
    removing a name needs the owner-write bit of the parent directory.  Each
    node carries the device it lives on; [rename] across devices fails with
    [EXDEV]. *)

Module Mem.

Definition path : Type := list string.

Inductive kind : Type :=
| Regular (data : string)
| Directory.

Record node : Type := mkNode {
  n_kind : kind;
  n_mode : Z;
  n_uid : Z;
  n_gid : Z;
  n_mtime : Z;
  n_dev : Z
}.

Record world : Type := mkWorld {
  files : list (path * node);
  cwd : path;
  env : list (string * string);
  users : list (string * Z);
  groups : list (string * Z);
  euid : Z;
  clock : Z;
  last_errno : errno;
  descriptors : list (fd * (path * bool));
  stdin : list string;
  stdout : string
}.

Fixpoint path_eqb (p q : path) : bool :=
  match p, q with
  | [], [] => true
  | a :: p', b :: q' => (a == b) && path_eqb p' q'
  | _, _ => false
  end.

Fixpoint lookup (fs : list (path * node)) (p : path) : option node :=
  match fs with
  | [] => None
  | (q, n) :: rest => if path_eqb q p then Some n else lookup rest p
  end.

(** Replace the node at [p], or add it. *)
Fixpoint store (fs : list (path * node)) (p : path) (n : node) : list (path * node) :=
  match fs with
  | [] => [(p, n)]
  | (q, m) :: rest =>
      if path_eqb q p then (p, n) :: rest else (q, m) :: store rest p n
  end.

Definition remove (fs : list (path * node)) (p : path) : list (path * node) :=
  filter (fun e => negb (path_eqb (fst e) p)) fs.

Definition is_directory (n : node) : bool :=
  match n_kind n with Directory => true | Regular _ => false end.

(** Names of the entries directly inside directory [d]. *)
Definition children (fs : list (path * node)) (d : path) : list string :=
  flat_map (fun e => match fst e with
                     | c :: d' => if path_eqb d' d then [c] else []
                     | [] => []
                     end) fs.

(** Splitting a path string at every slash. *)
Fixpoint components_from (s : string) (cur : string) : list string :=
  match s with
  | "" => [cur]
  | String c s' =>
      if Ascii.eqb c Str.slash then cur :: components_from s' ""
      else components_from s' (cur ++ Str.of_char c)
  end.

Definition components (s : string) : list string := components_from s "".

(** Dropping the empty components that trailing slashes leave. *)
Fixpoint trim (comps : list string) : list string :=
  match comps with
  | [] => []
  | c :: rest =>
      match trim rest with
      | [] => if Str.empty c then [] else [c]
      | rest' => c :: rest'
      end
  end.

Definition enter (c : string) (cur : path) : path :=
  if Str.empty c || (c == ".") then cur
  else if c == ".." then tl cur
  else c :: cur.

Fixpoint walk (fs : list (path * node)) (cur : path) (comps : list string)
  : errno + path :=
  match comps with
  | [] => inr cur
  | c :: rest =>
      match lookup fs cur with
      | None => inl ENOENT
      | Some n =>
          if is_directory n then walk fs (enter c cur) rest else inl ENOTDIR
      end
  end.

Definition start (w : world) (p : string) : path :=
  if Ascii.eqb (Str.front p) Str.slash then [] else cwd w.

(** Resolution of a path that names an existing object. *)
Definition resolve (w : world) (p : string) : errno + path :=
  if Str.empty p then inl ENOENT
  else walk (files w) (start w p) (components p).

(** Resolution for calls that create or remove a directory entry: trailing
    slashes are allowed. *)
Definition resolve_entry (w : world) (p : string) : errno + path :=
  if Str.empty p then inl ENOENT
  else walk (files w) (start w p) (trim (components p)).

Definition set_files (w : world) (fs : list (path * node)) : world :=
  mkWorld fs (cwd w) (env w) (users w) (groups w) (euid w) (clock w)
          (last_errno w) (descriptors w) (stdin w) (stdout w).

Definition set_errno (w : world) (e : errno) : world :=
  mkWorld (files w) (cwd w) (env w) (users w) (groups w) (euid w) (clock w)
          e (descriptors w) (stdin w) (stdout w).

Definition set_descriptors (w : world) (d : list (fd * (path * bool))) : world :=
  mkWorld (files w) (cwd w) (env w) (users w) (groups w) (euid w) (clock w)
          (last_errno w) d (stdin w) (stdout w).

Definition fail_with (e : errno) (w : world) : option errno * world :=
  (Some e, set_errno w e).

Definition parent_writable (fs : list (path * node)) (p : path) : bool :=
  match lookup fs (tl p) with
  | Some d => negb (Z.land (n_mode d) S_IWUSR =? 0)
  | None => false
  end.

Definition parent_dev (fs : list (path * node)) (p : path) : Z :=
  match lookup fs (tl p) with
  | Some d => n_dev d
  | None => 0
  end.

Definition stat (p : string) (w : world) : errno + stat_t :=
  match resolve w p with
  | inl e => inl e
  | inr q =>
      match lookup (files w) q with
      | None => inl ENOENT
      | Some n =>
          inr match n_kind n with
              | Directory =>
                  mkStat (Z.lor S_IFDIR (n_mode n)) 2 (n_uid n) (n_gid n) 4096 (n_mtime n)
              | Regular data =>
                  mkStat (Z.lor S_IFREG (n_mode n)) 1 (n_uid n) (n_gid n)
                         (Z.of_nat (String.length data)) (n_mtime n)
              end
      end
  end.

Definition mkdir (p : string) (mode : Z) (w : world) : option errno * world :=
  match resolve_entry w p with
  | inl e => fail_with e w
  | inr q =>
      match lookup (files w) q with
      | Some _ => fail_with EEXIST w
      | None =>
          if parent_writable (files w) q then
            (None, set_files w (store (files w) q
               (mkNode Directory mode (euid w) (euid w) (clock w) (parent_dev (files w) q))))
          else fail_with EACCES w
      end
  end.

Definition rmdir (p : string) (w : world) : option errno * world :=
  match resolve_entry w p with
  | inl e => fail_with e w
  | inr q =>
      match lookup (files w) q with
      | None => fail_with ENOENT w
      | Some n =>
          if negb (is_directory n) then fail_with ENOTDIR w
          else match q with
               | [] => fail_with EBUSY w
               | _ =>
                   match children (files w) q with
                   | _ :: _ => fail_with ENOTEMPTY w
                   | [] =>
                       if parent_writable (files w) q
                       then (None, set_files w (remove (files w) q))
                       else fail_with EACCES w
                   end
               end
      end
  end.

Definition unlink (p : string) (w : world) : option errno * world :=
  match resolve w p with
  | inl e => fail_with e w
  | inr q =>
      match lookup (files w) q with
      | None => fail_with ENOENT w
      | Some n =>
          if is_directory n then fail_with EISDIR w
          else if parent_writable (files w) q
               then (None, set_files w (remove (files w) q))
               else fail_with EACCES w
      end
  end.

(** [q] lies at or below [p]. *)
Fixpoint below (p q : path) : bool :=
  path_eqb q p || match q with [] => false | _ :: q' => below p q' end.

(** The key [q], at or below [p], moved to the same place below [p']. *)
Fixpoint rebase (p p' q : path) : path :=
  if path_eqb q p then p'
  else match q with
       | [] => []
       | c :: q' => c :: rebase p p' q'
       end.

Definition rename (src dst : string) (w : world) : option errno * world :=
  match resolve_entry w src, resolve_entry w dst with
  | inl e, _ => fail_with e w
  | _, inl e => fail_with e w
  | inr p, inr q =>
      let fs := files w in
      match lookup fs p with
      | None => fail_with ENOENT w
      | Some n =>
          if path_eqb p q then (None, w)
          else if negb (n_dev n =? parent_dev fs q) then fail_with EXDEV w
          else if below p q then fail_with EINVAL w
          else if negb (parent_writable fs p && parent_writable fs q)
               then fail_with EACCES w
          else
            let move fs0 :=
              map (fun e => if below p (fst e) then (rebase p q (fst e), snd e) else e)
                  (remove fs0 q) in
            match lookup fs q with
            | None => (None, set_files w (move fs))
            | Some m =>
                match is_directory n, is_directory m with
                | false, true => fail_with EISDIR w
                | true, false => fail_with ENOTDIR w
                | true, true =>
                    match children fs q with
                    | _ :: _ => fail_with ENOTEMPTY w
                    | [] => (None, set_files w (move fs))
                    end
                | false, false => (None, set_files w (move fs))
                end
            end
      end
  end.

Definition chdir (p : string) (w : world) : option errno * world :=
  match resolve w p with
  | inl e => fail_with e w
  | inr q =>
      match lookup (files w) q with
      | None => fail_with ENOENT w
      | Some n =>
          if is_directory n then
            (None, mkWorld (files w) q (env w) (users w) (groups w) (euid w)
                           (clock w) (last_errno w) (descriptors w) (stdin w) (stdout w))
          else fail_with ENOTDIR w
      end
  end.

Definition update (p : string) (f : node -> node) (w : world) : option errno * world :=
  match resolve w p with
  | inl e => fail_with e w
  | inr q =>
      match lookup (files w) q with
      | None => fail_with ENOENT w
      | Some n => (None, set_files w (store (files w) q (f n)))
      end
  end.

Definition chmod (p : string) (mode : Z) (w : world) : option errno * world :=
  update p (fun n => mkNode (n_kind n) (Z.land mode 4095) (n_uid n) (n_gid n)
                            (n_mtime n) (n_dev n)) w.

Definition chown (p : string) (uid gid : Z) (w : world) : option errno * world :=
  if negb (euid w =? 0) then
    match resolve w p with
    | inl e => fail_with e w
    | inr _ => fail_with EPERM w
    end
  else
    update p (fun n => mkNode (n_kind n) (n_mode n)
                              (if uid =? -1 then n_uid n else uid)
                              (if gid =? -1 then n_gid n else gid)
                              (n_mtime n) (n_dev n)) w.

Definition utime (p : string) (actime modtime : Z) (w : world) : option errno * world :=
  update p (fun n => mkNode (n_kind n) (n_mode n) (n_uid n) (n_gid n)
                            modtime (n_dev n)) w.

Definition has_flag (flags bit : Z) : bool := negb (Z.land flags bit =? 0).

Fixpoint descriptor (d : list (fd * (path * bool))) (f : fd) : option (path * bool) :=
  match d with
  | [] => None
  | (g, x) :: rest => if g =? f then Some x else descriptor rest f
  end.

(** The lowest descriptor from 3 on that is not in use. *)
Definition fresh_fd (d : list (fd * (path * bool))) : fd :=
  match List.find (fun f => match descriptor d f with None => true | Some _ => false end)
                  (map (fun n => 3 + Z.of_nat n) (seq 0 (S (length d)))) with
  | Some f => f
  | None => 3 + Z.of_nat (length d)
  end.

Definition open (p : string) (flags mode : Z) (w : world) : (errno + fd) * world :=
  let wr := has_flag flags O_WRONLY in
  let f := fresh_fd (descriptors w) in
  match resolve w p with
  | inl e => (inl e, set_errno w e)
  | inr q =>
      match lookup (files w) q with
      | Some n =>
          if is_directory n && wr then (inl EISDIR, set_errno w EISDIR)
          else if Z.land (n_mode n) (if wr then S_IWUSR else S_IRUSR) =? 0
               then (inl EACCES, set_errno w EACCES)
          else
            let fs := if wr && has_flag flags O_TRUNC
                      then store (files w) q
                             (mkNode (Regular "") (n_mode n) (n_uid n) (n_gid n)
                                     (clock w) (n_dev n))
                      else files w in
            (inr f, set_descriptors (set_files w fs) ((f, (q, wr)) :: descriptors w))
      | None =>
          if has_flag flags O_CREAT then
            if parent_writable (files w) q then
              (inr f,
               set_descriptors
                 (set_files w (store (files w) q
                    (mkNode (Regular "") mode (euid w) (euid w) (clock w)
                            (parent_dev (files w) q))))
                 ((f, (q, wr)) :: descriptors w))
            else (inl EACCES, set_errno w EACCES)
          else (inl ENOENT, set_errno w ENOENT)
      end
  end.

(** A file's contents cut into buffers of [size] characters. *)
Fixpoint chunks_from (size : nat) (s : string) (room : nat) (cur : string) : list string :=
  match s with
  | "" => if Str.empty cur then [] else [cur]
  | String c s' =>
      match room with
      | O => cur :: chunks_from size s' (size - 1) (Str.of_char c)
      | S room' => chunks_from size s' room' (cur ++ Str.of_char c)
      end
  end.

Definition chunks (size : nat) (s : string) : list string := chunks_from size s size "".

Definition read_chunks (f : fd) (size : nat) (w : world)
  : (list string * option errno) * world :=
  match descriptor (descriptors w) f with
  | None => (([], Some EBADF), set_errno w EBADF)
  | Some (q, _) =>
      match lookup (files w) q with
      | Some n =>
          match n_kind n with
          | Regular data => ((chunks size data, None), w)
          | Directory => (([], Some EISDIR), set_errno w EISDIR)
          end
      | None => (([], None), w)
      end
  end.

Definition write (f : fd) (s : string) (w : world) : (errno + nat) * world :=
  match descriptor (descriptors w) f with
  | Some (q, true) =>
      match lookup (files w) q with
      | Some n =>
          match n_kind n with
          | Regular data =>
              (inr (String.length s),
               set_files w (store (files w) q
                  (mkNode (Regular (data ++ s)) (n_mode n) (n_uid n) (n_gid n)
                          (clock w) (n_dev n))))
          | Directory => (inl EBADF, set_errno w EBADF)
          end
      | None => (inr (String.length s), w)
      end
  | _ => (inl EBADF, set_errno w EBADF)
  end.

Definition close (f : fd) (w : world) : world :=
  set_descriptors w (filter (fun e => negb (fst e =? f)) (descriptors w)).

Definition readdir_all (p : string) (w : world) : (errno + list string) * world :=
  match resolve w p with
  | inl e => (inl e, set_errno w e)
  | inr q =>
      match lookup (files w) q with
      | None => (inl ENOENT, set_errno w ENOENT)
      | Some n =>
          if is_directory n then (inr ("." :: ".." :: children (files w) q), w)
          else (inl ENOTDIR, set_errno w ENOTDIR)
      end
  end.

Definition getcwd (w : world) : option string :=
  Some ("/" ++ Str.join "/" (rev (cwd w))).

Fixpoint assoc {A} (l : list (string * A)) (k : string) : option A :=
  match l with
  | [] => None
  | (k', v) :: rest => if k' == k then Some v else assoc rest k
  end.

Fixpoint name_of (l : list (string * Z)) (id : Z) : option string :=
  match l with
  | [] => None
  | (name, i) :: rest => if i =? id then Some name else name_of rest id
  end.

Definition getenv (name : string) (w : world) : option string := assoc (env w) name.

Definition environ (w : world) : list string :=
  map (fun e => fst e ++ "=" ++ snd e) (env w).

(** [localtime] in UTC and [strftime] with the format of the long listing,
    month, day, hour and minute. *)
Definition two_digits (z : Z) : string :=
  if z <? 10 then "0" ++ to_string z else to_string z.

Definition month_name (m : Z) : string :=
  nth (Z.to_nat (m - 1))
      ["Jan"; "Feb"; "Mar"; "Apr"; "May"; "Jun"; "Jul"; "Aug"; "Sep"; "Oct"; "Nov"; "Dec"]
      "???".

Definition strftime (t : Z) (w : world) : string :=
  let days := t / 86400 in
  let secs := t mod 86400 in
  let z := days + 719468 in
  let doe := z mod 146097 in
  let yoe := (doe - doe / 1460 + doe / 36524 - doe / 146096) / 365 in
  let doy := doe - (365 * yoe + yoe / 4 - yoe / 100) in
  let mp := (5 * doy + 2) / 153 in
  let d := doy - (153 * mp + 2) / 5 + 1 in
  let m := if mp <? 10 then mp + 3 else mp - 9 in
  month_name m ++ " " ++ two_digits d ++ " " ++ two_digits (secs / 3600)
    ++ ":" ++ two_digits ((secs mod 3600) / 60).

Definition cin_ignore (w : world) : world :=
  mkWorld (files w) (cwd w) (env w) (users w) (groups w) (euid w) (clock w)
          (last_errno w) (descriptors w) (tl (stdin w)) (stdout w).

Definition cout (s : string) (w : world) : world :=
  mkWorld (files w) (cwd w) (env w) (users w) (groups w) (euid w) (clock w)
          (last_errno w) (descriptors w) (stdin w) (stdout w ++ s).

#[global] Instance os : OS world := {
  sys_errno := last_errno;
  sys_stat := stat;
  sys_getcwd := getcwd;
  sys_getenv := getenv;
  sys_environ := environ;
  sys_getpwnam := fun name w => assoc (users w) name;
  sys_getpwuid := fun id w => name_of (users w) id;
  sys_getgrgid := fun id w => name_of (groups w) id;
  sys_time := clock;
  sys_strftime := strftime;
  sys_chdir := chdir;
  sys_mkdir := mkdir;
  sys_rmdir := rmdir;
  sys_unlink := unlink;
  sys_rename := rename;
  sys_chmod := chmod;
  sys_chown := chown;
  sys_utime := utime;
  sys_open := open;
  sys_read_chunks := read_chunks;
  sys_write := write;
  sys_close := close;
  sys_readdir_all := readdir_all;
  sys_cin_ignore := cin_ignore;
  sys_cout := cout
}.

(** *** A regular-expression engine for literal patterns

    Patterns are plain text, optionally wrapped in the word-boundary
    assertions that the whole-word flag adds; anything with another
    metacharacter is refused. *)

Record literal : Type := mkLiteral {
  lit_text : string;
  lit_icase : bool;
  lit_left : bool;
  lit_right : bool
}.

Definition is_meta (c : ascii) : bool :=
  existsb (Ascii.eqb c)
    ["\"; "^"; "$"; "."; "|"; "?"; "*"; "+"; "("; ")"; "["; "]"; "{"; "}"]%char.

Fixpoint has_meta (s : string) : bool :=
  match s with
  | "" => false
  | String c s' => is_meta c || has_meta s'
  end.

Fixpoint strip_suffix_b (s : string) : string * bool :=
  match s with
  | "" => ("", false)
  | String c s' =>
      if s' == "\b" then (Str.of_char c, true)
      else let (t, b) := strip_suffix_b s' in (String c t, b)
  end.

Definition compile (pattern : string) (icase : bool) : option literal :=
  let '(wb_left, p1) := if Str.starts_with "\b" pattern
                        then (true, Str.drop 2 pattern) else (false, pattern) in
  let '(p2, wb_right) := if p1 == "\b" then ("", true) else strip_suffix_b p1 in
  if has_meta p2 then None else Some (mkLiteral p2 icase wb_left wb_right).

Definition lower (c : ascii) : ascii :=
  let n := nat_of_ascii c in
  if ((65 <=? n) && (n <=? 90))%nat then ascii_of_nat (n + 32) else c.

Definition is_word (c : ascii) : bool :=
  let n := nat_of_ascii c in
  (((48 <=? n) && (n <=? 57)) || ((65 <=? n) && (n <=? 90))
   || ((97 <=? n) && (n <=? 122)) || (n =? 95))%nat.

(** [text] matched at the front of [s]: the matched characters, the flag
    for the character before the end of the match, and what follows. *)
Fixpoint match_here (icase : bool) (text s : string) (before : bool)
  : option (string * bool * string) :=
  match text with
  | "" => Some ("", before, s)
  | String a text' =>
      match s with
      | "" => None
      | String c s' =>
          if (if icase then Ascii.eqb (lower a) (lower c) else Ascii.eqb a c) then
            match match_here icase text' s' (is_word c) with
            | Some (m, b, rest) => Some (String c m, b, rest)
            | None => None
            end
          else None
      end
  end.

Definition word_front (s : string) : bool :=
  match s with "" => false | String c _ => is_word c end.

Fixpoint search_from (re : literal) (before : bool) (s : string) : option string :=
  let here :=
    match match_here (lit_icase re) (lit_text re) s before with
    | Some (m, b, rest) =>
        if (negb (lit_left re) || xorb before (word_front s))
           && (negb (lit_right re) || xorb b (word_front rest))
        then Some m else None
    | None => None
    end in
  match here with
  | Some m => Some m
  | None =>
      match s with
      | "" => None
      | String c s' => search_from re (is_word c) s'
      end
  end.

#[global] Instance regex : RegexLib literal := {
  regex_compile := compile;
  regex_search := fun re line => search_from re false line
}.

End Mem.

(** ** Definitions used to state the properties *)

Section Specs.

Context {W : Type} {os : OS W}.

(** All the buffers of a copy written in full to [fdOut], in order: the flag
    tells whether every [write] returned the buffer's length. *)
Fixpoint write_chunks (fdOut : fd) (chunks : list string) (w : W) : bool * W :=
  match chunks with
  | [] => (true, w)
  | chunk :: rest =>
      let (r, w') := sys_write fdOut chunk w in
      if wrote_all r chunk then write_chunks fdOut rest w' else (false, w')
  end.

(** A result keeps to one channel: no error text with status 0, no output
    with status 1. *)
Definition one_channel (r : CommandResult) : Prop :=
  (status r = 0 -> error r = "") /\ (status r = 1 -> output r = "").

(** Outcomes allowed by the one-channel rule: it only constrains results
    that are returned. *)
Definition channel_ok (o : outcome) : Prop :=
  match o with
  | Ret r => one_channel r
  | _ => True
  end.

(** The handler returned to its caller. *)
Definition returned (o : outcome) : Prop :=
  match o with
  | Ret _ => True
  | _ => False
  end.

(** Every early exit of [m] satisfies [P]. *)
Definition exits {A} (P : outcome -> Prop) (m : M W A) : Prop :=
  forall w, match m w with
            | (Done o, _) => P o
            | (Next _, _) => True
            end.

(** Every early exit of a handler body satisfies [P], and so does the result
    it ends with. *)
Definition yields (P : outcome -> Prop) (m : M W CommandResult) : Prop :=
  forall w, match m w with
            | (Done o, _) => P o
            | (Next r, _) => P (Ret r)
            end.

(** [rmdir] attempted on each path in turn, up to the first failure. *)
Fixpoint rmdir_each (paths : list string) (w : W) : outcome * W :=
  match paths with
  | [] => (Ret (mkResult 0 "" ""), w)
  | p :: rest =>
      match sys_rmdir p w with
      | (Some e, w') => (Ret (mkResult 1 "" (formatRmdirErrorMsg p e)), w')
      | (None, w') => rmdir_each rest w'
      end
  end.

End Specs.

(** The handlers that return a result on every input: [cd] and [mv] can meet
    undefined behaviour, [grep] can throw, [quit] exits and [rm] is run with
    fuel. *)
Definition always_returns (c : command) : bool :=
  match c with
  | CmdCd | CmdGrep | CmdQuit | CmdRm | CmdMv => false
  | _ => true
  end.

(** A path cut before its last slash: the next path component upward. *)
Definition cut_last_slash (p : string) : option string :=
  match Str.find_last_of is_slash p with
  | Some pos => Some (Str.take pos p)
  | None => None
  end.

(** [upward p l]: [l] starts at [p] and climbs one component at a time, and
    ends where the path has no slash left or where the next path would be
    empty or the root. *)
Inductive upward : string -> list string -> Prop :=
| upward_no_slash : forall p,
    cut_last_slash p = None -> upward p [p]
| upward_stop : forall p q,
    cut_last_slash p = Some q -> q = "" \/ q = "/" -> upward p [p]
| upward_step : forall p q l,
    cut_last_slash p = Some q -> q <> "" -> q <> "/" -> upward q l ->
    upward p (p :: l).

(** The same walk as a function; the length of [p] plus one is enough fuel. *)
Fixpoint upward_from (fuel : nat) (p : string) : list string :=
  match fuel with
  | O => []
  | S fuel' =>
      p :: match cut_last_slash p with
           | None => []
           | Some q => if (q == "") || (q == "/") then [] else upward_from fuel' q
           end
  end.

Definition upward_paths (p : string) : list string :=
  if Str.empty p then [] else upward_from (S (String.length p)) p.

(** A string of [k] slashes. *)
Fixpoint slashes (k : nat) : string :=
  match k with
  | O => ""
  | S k' => String Str.slash (slashes k')
  end.

(** ** A sample world *)

Module Sample.

Import Mem.

Definition f_text : string :=
  "foo one" ++ LF ++ "bar" ++ LF ++ "foo two" ++ LF ++ "foo three".

Definition g_text : string := "alpha" ++ LF ++ "beta" ++ LF.

Definition dir (mode dev : Z) : node := mkNode Directory mode 1000 1000 0 dev.
Definition reg (data : string) : node := mkNode (Regular data) 420 1000 1000 86400 0.

(** [/home/u] is the working directory; [/mnt] is another device; [/ro] is a
    directory without write permission. *)
Definition w0 : world :=
  mkWorld
    [([], dir 493 0);
     (["home"], dir 493 0);
     (["u"; "home"], dir 493 0);
     (["f.txt"; "u"; "home"],
      reg f_text);
     (["g.txt"; "u"; "home"], reg g_text);
     (["mnt"], dir 493 1);
     (["ro"], dir 365 0);
     (["x"; "ro"], reg "data")]
    ["u"; "home"] [("HOME", "/home/u")] [("u", 1000)] [("g", 1000)]
    1000 1000000 ENOENT [] [] "".

(** The sample world after [mkdir -p a/b/c]. *)
Definition w1 : world := snd (mkdirCommand ["-p"; "a/b/c"] w0).

(** The sample world after [mkdir -p a/b]. *)
Definition w2 : world := snd (mkdirCommand ["-p"; "a/b"] w0).

End Sample.

(** ** A file system whose [stat] reports no size

    A file system of the kind of [/proc]: [stat] reports size 0 for every
    regular file, whatever [read] delivers from it.  Everything else is the
    in-memory system. *)

Module Procfs.

Definition stat (p : string) (w : Mem.world) : errno + stat_t :=
  match Mem.stat p w with
  | inl e => inl e
  | inr st =>
      inr (if S_ISDIR (st_mode st) then st
           else mkStat (st_mode st) (st_nlink st) (st_uid st) (st_gid st) 0
                       (st_mtime st))
  end.

Definition os : OS Mem.world := {|
  sys_errno := Mem.last_errno;
  sys_stat := stat;
  sys_getcwd := Mem.getcwd;
  sys_getenv := Mem.getenv;
  sys_environ := Mem.environ;
  sys_getpwnam := fun name w => Mem.assoc (Mem.users w) name;
  sys_getpwuid := fun id w => Mem.name_of (Mem.users w) id;
  sys_getgrgid := fun id w => Mem.name_of (Mem.groups w) id;
  sys_time := Mem.clock;
  sys_strftime := Mem.strftime;
  sys_chdir := Mem.chdir;
  sys_mkdir := Mem.mkdir;
  sys_rmdir := Mem.rmdir;
  sys_unlink := Mem.unlink;
  sys_rename := Mem.rename;
  sys_chmod := Mem.chmod;
  sys_chown := Mem.chown;
  sys_utime := Mem.utime;
  sys_open := Mem.open;
  sys_read_chunks := Mem.read_chunks;
  sys_write := Mem.write;
  sys_close := Mem.close;
  sys_readdir_all := Mem.readdir_all;
  sys_cin_ignore := Mem.cin_ignore;
  sys_cout := Mem.cout
|}.

End Procfs.

(** Number of newline characters of a file's contents. *)
Definition newline_count (content : string) : Z :=
  Z.of_nat (Str.count Str.nl content).

(** The largest size of a file ([off_t] is a signed 64-bit integer). *)
Definition OFF_MAX : Z := 2 ^ 63 - 1.

(** The line count the convention asks for: the newline characters, plus one
    for a last line that no newline ends. *)
Definition expected_lines (content : string) : Z :=
  newline_count content + (if Str.ends_with Str.nl content then 0 else 1).

(** The lines of a text: [split_lines s cur] gives the lines that a newline
    ends, [cur] being the beginning of the first one, and what follows the
    last newline. *)
Fixpoint split_lines (s cur : string) : list string * string :=
  match s with
  | "" => ([], cur)
  | String c s' =>
      if Ascii.eqb c Str.nl then
        let (ls, r) := split_lines s' "" in (cur :: ls, r)
      else split_lines s' (cur ++ Str.of_char c)
  end.

(** The lines of a file, a last line without newline included. *)
Definition file_lines (content : string) : list string :=
  let (ls, r) := split_lines content "" in
  (ls ++ (if Str.empty r then [] else [r]))%list.

(** The text of lines, each followed by a newline. *)
Definition unlines (lines : list string) : string :=
  Str.cat (map (fun l => l ++ LF) lines).

Section GrepSpecs.

Context {W : Type} {os : OS W} {R : Type} {rx : RegexLib R}.

(** A line is selected when the pattern is found in it, or, with [-v], when
    it is not. *)
Definition selected (o : grep_opts) (re : R) (line : string) : bool :=
  let matched := fst (matchesPattern line re (opt_o o)) in
  if opt_v o then negb matched else matched.

(** The loop body run over a list of lines, numbered from [lineNumber]. *)
Fixpoint grep_lines (o : grep_opts) (re : R) (multipleFiles : bool) (file : string)
    (lines : list string) (lineNumber : Z) (acc : grep_acc)
  : CommandResult + (Z * grep_acc) :=
  match lines with
  | [] => inr (lineNumber, acc)
  | line :: rest =>
      match grep_line o re multipleFiles file line lineNumber acc with
      | inl r => inl r
      | inr acc' => grep_lines o re multipleFiles file rest (int_incr lineNumber) acc'
      end
  end.

(** The files read one after the other the way [grep] reads them: opened,
    read to the end in buffers of 1024 bytes, closed.  [None] when one of them
    cannot be opened. *)
Fixpoint read_files (files : list string) (w : W) : option (list string) * W :=
  match files with
  | [] => (Some [], w)
  | file :: rest =>
      match sys_open file O_RDONLY 0 w with
      | (inl _, w1) => (None, w1)
      | (inr f, w1) =>
          let (chunks, w2) := sys_read_chunks f 1024 w1 in
          let (r, w3) := read_files rest (sys_close f w2) in
          (match r with
           | Some contents => Some (Str.cat (fst chunks) :: contents)
           | None => None
           end, w3)
      end
  end.

(** Number of selected lines in the files. *)
Definition selected_count (o : grep_opts) (re : R) (contents : list string) : nat :=
  length (filter (selected o re) (flat_map file_lines contents)).

(** What [grep] without option prints for the files: every line in which the
    pattern is found, after the file's name when there are several files. *)
Definition with_file_name (multipleFiles : bool) (file line : string) : string :=
  if multipleFiles then (file ++ ":") ++ line else line.

Definition found (re : R) (line : string) : bool :=
  fst (matchesPattern line re false).

Fixpoint matching_lines (re : R) (multipleFiles : bool) (files contents : list string)
  : list string :=
  match files, contents with
  | file :: files', content :: contents' =>
      app (map (with_file_name multipleFiles file) (filter (found re) (file_lines content)))
          (matching_lines re multipleFiles files' contents')
  | _, _ => []
  end.

End GrepSpecs.

(** The options left by the flag loop when [-m] with value [m] is the one flag. *)
Definition limit_only (m : Z) : grep_opts :=
  mkGrepOpts false false false false false false m.

(** What the early return of the limit does to [out]: the trailing newline,
    if there is one, is removed. *)
Definition chop (out : string) : string :=
  if negb (Str.empty out) && Str.ends_with Str.nl out then Str.pop_back out else out.

(** The prefixes of [path] on which the [-p] form of [mkdir] calls [mkdir]:
    [rest] is what remains of the path, [partial] the prefix built so far. *)
Fixpoint mkdir_p_targets (rest partial : string) : list string :=
  match rest with
  | "" => []
  | String c rest' =>
      let partial := partial ++ Str.of_char c in
      if negb (Ascii.eqb c Str.slash) && negb (Str.empty rest') then
        mkdir_p_targets rest' partial
      else if (partial == "/") || (partial == "//") then
        mkdir_p_targets rest' partial
      else partial :: mkdir_p_targets rest' partial
  end.

Module MemSpec.

Import Mem.

(** Every node of [fs] is in [fs'], unchanged. *)
Definition extends (fs fs' : list (path * node)) : Prop :=
  forall p n, lookup fs p = Some n -> lookup fs' p = Some n.

(** The tree only grew and the working directory stayed. *)
Definition grows (w w' : world) : Prop :=
  cwd w' = cwd w /\ extends (files w) (files w').

(** [p] names something that exists. *)
Definition present (w : world) (p : string) : bool :=
  match resolve_entry w p with
  | inr q => match lookup (files w) q with Some _ => true | None => false end
  | inl _ => false
  end.

(** The tree and the working directory are the same. *)
Definition same_tree (w w' : world) : Prop :=
  files w' = files w /\ cwd w' = cwd w.

End MemSpec.

(** ** Definitions for further properties of the handlers *)

Section ReadSpecs.

Context {W : Type} {os : OS W}.

(** How reading a list of files for [cat] ends. *)
Inductive cat_read : Type :=
| CatAll (contents : list string)
| CatOpenFailed (file : string) (e : errno)
| CatReadFailed (file : string) (e : errno).

(** The files read the way [cat] reads them: opened, read to the end in
    buffers of 4096 bytes and closed, one after the other, up to the first
    that cannot be opened or read. *)
Fixpoint cat_files (files : list string) (w : W) : cat_read * W :=
  match files with
  | [] => (CatAll [], w)
  | file :: rest =>
      match sys_open file O_RDONLY 0 w with
      | (inl e, w1) => (CatOpenFailed file e, w1)
      | (inr f, w1) =>
          let (chunks, w2) := sys_read_chunks f 4096 w1 in
          match snd chunks with
          | Some e => (CatReadFailed file e, w2)
          | None =>
              let (r, w3) := cat_files rest (sys_close f w2) in
              (match r with
               | CatAll contents => CatAll (Str.cat (fst chunks) :: contents)
               | other => other
               end, w3)
          end
      end
  end.

(** [mkdir] attempted on each path in turn, an existing name being let
    through, up to the first other failure. *)
Fixpoint mkdir_each_tolerant (targets : list string) (w : W) : outcome * W :=
  match targets with
  | [] => (Ret (mkResult 0 "" ""), w)
  | t :: rest =>
      match sys_mkdir t 493 w with
      | (Some e, w') =>
          if errno_eqb e EEXIST then mkdir_each_tolerant rest w'
          else (Ret (mkResult 1 "" ("mkdir: cannot create directory '" ++ t ++ "': "
                                    ++ strerror e)), w')
      | (None, w') => mkdir_each_tolerant rest w'
      end
  end.

End ReadSpecs.

(** [t] is a place where the [-p] form of [mkdir] stops in [path]: a
    beginning of [path] that ends in a slash or is all of [path], and is
    neither the root nor a doubled slash. *)
Definition mkdir_stop (path t : string) : Prop :=
  (exists rest, path = t ++ rest /\ (rest = "" \/ Str.ends_with Str.slash t = true))
  /\ t <> "/" /\ t <> "//".

Section GrepOutputSpecs.

Context {W : Type} {os : OS W} {R : Type} {rx : RegexLib R}.

(** Lines with their numbers, counted from [n]. *)
Fixpoint number_lines (n : Z) (lines : list string) : list (Z * string) :=
  match lines with
  | [] => []
  | line :: rest => (n, line) :: number_lines (n + 1) rest
  end.

(** What precedes a printed line: the file's name when several files are
    searched, then the line's number under [-n]. *)
Definition line_prefix (o : grep_opts) (multipleFiles : bool) (file : string) (n : Z)
  : string :=
  (if multipleFiles then file ++ ":" else "")
  ++ (if opt_n o then to_string n ++ ":" else "").

(** The text printed for a selected line: the line, or under [-o] the part
    that matched. *)
Definition line_text (o : grep_opts) (re : R) (line : string) : string :=
  if opt_v o && negb (opt_o o) then line
  else snd (matchesPattern line re (opt_o o)).

Definition printed_line (o : grep_opts) (re : R) (multipleFiles : bool) (file : string)
    (numbered : Z * string) : string :=
  line_prefix o multipleFiles file (fst numbered) ++ line_text o re (snd numbered).

(** The lines [grep] prints for one file. *)
Definition printed_of_file (o : grep_opts) (re : R) (multipleFiles : bool)
    (file content : string) : list string :=
  map (printed_line o re multipleFiles file)
      (filter (fun numbered => selected o re (snd numbered))
              (number_lines 1 (file_lines content))).

(** The lines [grep] prints for the files, in order. *)
Fixpoint printed_lines (o : grep_opts) (re : R) (multipleFiles : bool)
    (files contents : list string) : list string :=
  match files, contents with
  | file :: files', content :: contents' =>
      app (printed_of_file o re multipleFiles file content)
          (printed_lines o re multipleFiles files' contents')
  | _, _ => []
  end.

(** The first file of the list that cannot be opened, reading them the way
    [grep] does. *)
Fixpoint first_unopened (files : list string) (w : W) : option string :=
  match files with
  | [] => None
  | file :: rest =>
      match sys_open file O_RDONLY 0 w with
      | (inl _, _) => Some file
      | (inr f, w1) =>
          let (chunks, w2) := sys_read_chunks f 1024 w1 in
          first_unopened rest (sys_close f w2)
      end
  end.

End GrepOutputSpecs.

(** The words of a text: its maximal runs of characters other than space,
    tab, newline and carriage return; [cur] is the beginning of the first
    one. *)
Fixpoint words_from (s cur : string) : list string :=
  match s with
  | "" => if Str.empty cur then [] else [cur]
  | String c s' =>
      if wc_space c then
        if Str.empty cur then words_from s' "" else cur :: words_from s' ""
      else words_from s' (cur ++ Str.of_char c)
  end.

Definition words_of (s : string) : list string := words_from s "".

(** The three counters of [wc] are below the size of a [size_t]. *)
Definition wc_in_range (st : wc_state) : Prop :=
  0 <= wc_lines st < SIZE_MODULUS
  /\ 0 <= wc_words st < SIZE_MODULUS
  /\ 0 <= wc_chars st < SIZE_MODULUS.

(** ** Arguments of [ls] and [wc] *)

(** The three flags of [ls]; any other argument of two characters or more
    that starts with a dash is refused. *)
Definition ls_is_flag (a : string) : bool := (a == "-a") || (a == "-A") || (a == "-l").

Definition ls_refused (a : string) : bool :=
  (1 <? String.length a)%nat && Ascii.eqb (Str.front a) "-".

Definition ls_accepts (args : list string) : bool :=
  forallb (fun a => ls_is_flag a || negb (ls_refused a)) args.

(** [flag] occurs among the arguments. *)
Definition given (flag : string) (args : list string) : bool :=
  existsb (fun a => a == flag) args.

Definition ls_operands (args : list string) : list string :=
  filter (fun a => negb (ls_is_flag a)) args.

(** What is listed: the operands, or the working directory. *)
Definition ls_targets (args : list string) : list string :=
  match ls_operands args with
  | [] => ["."]
  | ps => ps
  end.

(** The entries of a directory that are listed: with [-A] all but [.] and
    [..]; otherwise with [-a] all of them; otherwise those whose name does
    not start with a dot. *)
Definition ls_shown (all almost : bool) (name : string) : bool :=
  if almost then negb ((name == ".") || (name == ".."))
  else all || negb (Ascii.eqb (Str.front name) ".").

Definition wc_is_flag (a : string) : bool := (a == "-l") || (a == "-w") || (a == "-c").

Definition wc_operands (args : list string) : list string :=
  filter (fun a => negb (wc_is_flag a)) args.

(** ** Permissions in octal *)

Fixpoint all_octal (s : string) : bool :=
  match s with
  | "" => true
  | String c s' =>
      match Stoi.digit_in 8 c with
      | Some _ => all_octal s'
      | None => false
      end
  end.

(** The character of an octal digit. *)
Definition octal_char (d : Z) : ascii := ascii_of_nat (48 + Z.to_nat d).

(** ** What a handler hands back *)

(** A returned result has status 0 or status 1. *)
Definition binary_status (o : outcome) : Prop :=
  match o with
  | Ret r => status r = 0 \/ status r = 1
  | _ => True
  end.


(** ** Properties *)

(** Unfolding of the sequencing operators, leaving the calls in place. *)
Ltac mred := cbv beta iota delta [bind call ask act give halt ret run].

(** *** Rendering of a result by the interaction loop *)

(** C10.  A result with status 1 has its error text written to standard error
    exactly as it is, sentinel prefix included, and the newline that follows a
    non-empty error goes to standard output; the sentinel prefix is looked for
    only in the output of a result with status 0, where it is removed and
    suppresses the newline. *)
Theorem render_error_newline_on_stdout :
  (forall out err,
      render (mkResult 1 out err)
      = Emit Stderr err :: (if Str.empty err then [] else [Emit Stdout LF]))
  /\ (forall out err,
      render (mkResult 0 out err)
      = if Str.starts_with NO_NL out then [Emit Stdout (Str.drop 9 out)]
        else Emit Stdout out :: (if Str.empty out then [] else [Emit Stdout LF])).
Proof.
  split; intros out err; unfold render; simpl.
  - destruct (Str.empty err); reflexivity.
  - destruct (Str.starts_with NO_NL out), (Str.empty out); reflexivity.
Qed.

Example render_error_with_sentinel :
  render (mkResult 1 "" "__NO_NL__boom")
  = [Emit Stderr "__NO_NL__boom"; Emit Stdout LF].
Proof. reflexivity. Qed.

Example render_clear_screen :
  render (mkResult 0 ("__NO_NL__" ++ ESC ++ "[H" ++ ESC ++ "[J") "")
  = [Emit Stdout (ESC ++ "[H" ++ ESC ++ "[J")].
Proof. reflexivity. Qed.

(** *** The one-channel rule *)

Section Exits.

Context {W : Type}.

Variable P : outcome -> Prop.

Lemma exits_ret : forall A (a : A), exits P (ret (W := W) a).
Proof. intros A a w; exact I. Qed.

Lemma exits_ask : forall A (f : W -> A), exits P (ask f).
Proof. intros A f w; exact I. Qed.

Lemma exits_call : forall A (f : W -> A * W), exits P (call f).
Proof. intros A f w. unfold call. destruct (f w); exact I. Qed.

Lemma exits_act : forall (f : W -> W), exits P (act f).
Proof. intros f w; exact I. Qed.

Lemma exits_halt : forall A (o : outcome), P o -> exits P (halt (W := W) (A := A) o).
Proof. intros A o H w; exact H. Qed.

Lemma exits_give :
  forall A (r : CommandResult), P (Ret r) -> exits P (give (W := W) (A := A) r).
Proof. intros A r H w; exact H. Qed.

Lemma exits_bind :
  forall A B (m : M W A) (k : A -> M W B),
    exits P m -> (forall a, exits P (k a)) -> exits P (bind m k).
Proof.
  intros A B m k Hm Hk w. unfold bind.
  specialize (Hm w). destruct (m w) as [[a|o] w1].
  - apply Hk.
  - exact Hm.
Qed.

Lemma exits_for_each :
  forall X A (body : X -> A -> M W A) (xs : list X) (a : A),
    (forall x a', exits P (body x a')) -> exits P (for_each body xs a).
Proof.
  intros X A body xs. induction xs as [|x rest IH]; intros a Hbody; cbn [for_each].
  - apply exits_ret.
  - apply exits_bind; [apply Hbody | intros a'; apply IH, Hbody].
Qed.

Lemma yields_ret : forall r, P (Ret r) -> yields P (ret (W := W) r).
Proof. intros r H w; exact H. Qed.

Lemma yields_give : forall r, P (Ret r) -> yields P (give (W := W) r).
Proof. intros r H w; exact H. Qed.

Lemma yields_halt : forall o, P o -> yields P (halt (W := W) o).
Proof. intros o H w; exact H. Qed.

Lemma yields_bind :
  forall A (m : M W A) (k : A -> M W CommandResult),
    exits P m -> (forall a, yields P (k a)) -> yields P (bind m k).
Proof.
  intros A m k Hm Hk w. unfold bind.
  specialize (Hm w). destruct (m w) as [[a|o] w1].
  - apply Hk.
  - exact Hm.
Qed.

Lemma yields_run :
  forall (m : M W CommandResult) w o w',
    yields P m -> run m w = (o, w') -> P o.
Proof.
  intros m w o w' Hm Hrun. unfold run in Hrun.
  specialize (Hm w). destruct (m w) as [[r|o1] w1]; inversion Hrun; subst; exact Hm.
Qed.

End Exits.

Lemma channel_ok_ok : forall out, channel_ok (Ret (ok out)).
Proof. intros out; split; intros H; [reflexivity | discriminate H]. Qed.

Lemma channel_ok_failure : forall msg, channel_ok (Ret (failure msg)).
Proof. intros msg; split; intros H; [discriminate H | reflexivity]. Qed.

Lemma channel_ok_silent : channel_ok (Ret (mkResult 1 "" "")).
Proof. split; intros H; reflexivity. Qed.

Create HintDb chan.

#[local] Hint Unfold helpCommand_body echoCommand_body pauseCommand_body lsCommand_body
     dirCommand_body ls_arg ls_entry ls_path cdCommand_body rmdirCommand_body
     touchCommand_body cpCommand_body cp_source cp_write chownCommand_body
     chown_file quitCommand_body clrCommand_body pwdCommand_body
     environCommand_body catCommand_body cat_file wcCommand_body wc_file
     mkdirCommand_body mkdir_path mvCommand_body mv_copy_unlink mv_write
     chmodCommand_body grepCommand_body grep_file rm_path : chan.

#[local] Hint Resolve channel_ok_ok channel_ok_failure channel_ok_silent : chan.

(** One step of a proof that a handler body keeps to the rule: follow the
    structure of the body. *)
Ltac chan_step :=
  match goal with
  | |- forall _, _ => intro
  | |- yields _ (bind _ _) => apply yields_bind
  | |- yields _ (ret _) => apply yields_ret
  | |- yields _ (give _) => apply yields_give
  | |- yields _ (halt _) => apply yields_halt
  | |- exits _ (bind _ _) => apply exits_bind
  | |- exits _ (ret _) => apply exits_ret
  | |- exits _ (ask _) => apply exits_ask
  | |- exits _ (call _) => apply exits_call
  | |- exits _ (act _) => apply exits_act
  | |- exits _ (give _) => apply exits_give
  | |- exits _ (halt _) => apply exits_halt
  | |- exits _ (for_each _ _ _) => apply exits_for_each
  | |- yields _ (match ?x with _ => _ end) => destruct x
  | |- exits _ (match ?x with _ => _ end) => destruct x
  | |- channel_ok _ => solve [auto with chan | exact I]
  | |- returned _ => exact I
  end.

Ltac chan := autounfold with chan; repeat (chan_step; autounfold with chan).

Section Properties.

Context {W : Type} {os : OS W}.

(** *** cp with several sources *)

(** C5.  With two or more sources and a last operand that is not an
    existing directory, [cp] fails with status 1 and the "is not a
    directory" message, and leaves the world as it was: the only call made
    is the [stat] of the destination. *)
Theorem cp_many_sources_need_directory :
  forall (args : list string) (w : W),
    (3 <= length args)%nat ->
    is_dir_stat (sys_stat (last args "") w) = false ->
    cpCommand args w
    = (Ret (mkResult 1 "" ("cp: target '" ++ last args "" ++ "' is not a directory")),
       w).
Proof.
  intros args w Hlen Hdir.
  destruct args as [|a [|b [|c rest]]]; simpl in Hlen; try lia.
  unfold cpCommand, run, cpCommand_body, bind, ask, give, halt.
  rewrite Hdir.
  replace (1 <? length (a :: b :: c :: rest) - 1)%nat with true.
  - reflexivity.
  - symmetry. apply Nat.ltb_lt. simpl. lia.
Qed.

(** *** mv across file systems *)

Lemma mv_writes_ok :
  forall fdIn fdOut dest chunks w w',
    write_chunks fdOut chunks w = (true, w') ->
    for_each (mv_write fdIn fdOut dest) chunks tt w = (Next tt, w').
Proof.
  induction chunks as [|chunk rest IH]; intros w w' H.
  - simpl in H. inversion H. reflexivity.
  - simpl in H. cbn [for_each]. unfold mv_write at 1. mred.
    destruct (sys_write fdOut chunk w) as [r w1].
    destruct (wrote_all r chunk); [|discriminate].
    mred. apply IH, H.
Qed.

(** C4.  When [rename] fails with [EXDEV], [mv] copies the source to the
    destination (open both, read, write every buffer, close both) and then
    unlinks the source.  After a complete copy the result is decided by the
    [unlink]: success gives status 0, failure gives status 1 with the
    "copied but failed to remove original" message, which is not the
    message of a failed move. *)
Theorem mv_exdev_copy_then_unlink :
  forall (src dest0 dest : string) (w w1 w2 w3 w4 w5 w6 : W)
         (fdIn fdOut : fd) (chunks : list string) (rd r : option errno),
    mv_dest src dest0 (is_dir_stat (sys_stat dest0 w)) = Some dest ->
    sys_rename src dest w = (Some EXDEV, w1) ->
    sys_open src O_RDONLY 0 w1 = (inr fdIn, w2) ->
    sys_open dest (Z.lor (Z.lor O_WRONLY O_CREAT) O_TRUNC) 420 w2 = (inr fdOut, w3) ->
    sys_read_chunks fdIn 4096 w3 = ((chunks, rd), w4) ->
    write_chunks fdOut chunks w4 = (true, w5) ->
    sys_unlink src (sys_close fdOut (sys_close fdIn w5)) = (r, w6) ->
    mvCommand [src; dest0] w
    = (Ret match r with
           | Some _ =>
               mkResult 1 "" ("mv: copied but failed to remove original '" ++ src ++ "'")
           | None => mkResult 0 "" ""
           end, w6)
    /\ forall e,
        "mv: copied but failed to remove original '" ++ src ++ "'"
        <> "mv: failed to move '" ++ src ++ "' to '" ++ dest ++ "': " ++ strerror e.
Proof.
  intros src dest0 dest w w1 w2 w3 w4 w5 w6 fdIn fdOut chunks rd r
         Hdest Hren Hin Hout Hrd Hwr Hunl.
  split.
  - unfold mvCommand, mvCommand_body. mred. rewrite Hdest. mred.
    rewrite Hren. mred. cbn [errno_eqb]. unfold mv_copy_unlink. mred.
    rewrite Hin. mred. rewrite Hout. mred. rewrite Hrd. mred. cbn [fst].
    rewrite (mv_writes_ok fdIn fdOut dest chunks w4 Hwr). mred.
    rewrite Hunl. destruct r; reflexivity.
  - intros e H. simpl in H. discriminate H.
Qed.

(** *** chmod *)

Lemma chmod_requires_two_arguments :
  forall (args : list string) (w : W),
    length args <> 2%nat ->
    chmodCommand args w
    = (Ret (mkResult 1 "" "chmod: requires exactly two arguments: permissions and file"),
       w).
Proof.
  intros args w H.
  destruct args as [|a [|b [|c rest]]]; try reflexivity.
  exfalso; apply H; reflexivity.
Qed.

Lemma chmod_rejects_when_stoi_throws :
  forall (perm filename : string) (w : W),
    (forall v, Stoi.stoi perm 8 <> StoiOk v) ->
    chmodCommand [perm; filename] w
    = (Ret (mkResult 1 "" "chmod: invalid permissions format"), w).
Proof.
  intros perm filename w H.
  unfold chmodCommand, chmodCommand_body. mred.
  destruct (Stoi.stoi perm 8) as [v| |]; try reflexivity.
  exfalso; apply (H v); reflexivity.
Qed.

(** *** The one-channel rule, handler by handler *)

Lemma help_one_channel : forall args, yields channel_ok (helpCommand_body (W := W) args).
Proof. chan. Qed.

Lemma echo_one_channel : forall args, yields channel_ok (echoCommand_body (W := W) args).
Proof. chan. Qed.

Lemma pause_one_channel : forall args, yields channel_ok (pauseCommand_body args).
Proof. chan. Qed.

Lemma ls_one_channel : forall args, yields channel_ok (lsCommand_body args).
Proof. chan. Qed.

Lemma cd_one_channel : forall args, yields channel_ok (cdCommand_body args).
Proof. chan. Qed.

Lemma touch_one_channel : forall args, yields channel_ok (touchCommand_body args).
Proof. chan. Qed.

Lemma cp_one_channel : forall args, yields channel_ok (cpCommand_body args).
Proof. chan. Qed.

Lemma chown_one_channel : forall args, yields channel_ok (chownCommand_body args).
Proof. chan. Qed.

Lemma quit_one_channel : forall args, yields channel_ok (quitCommand_body args).
Proof. chan. Qed.

Lemma clr_one_channel : forall args, yields channel_ok (clrCommand_body (W := W) args).
Proof. chan. Qed.

Lemma pwd_one_channel : forall args, yields channel_ok (pwdCommand_body args).
Proof. chan. Qed.

Lemma environ_one_channel : forall args, yields channel_ok (environCommand_body args).
Proof. chan. Qed.

Lemma cat_one_channel : forall args, yields channel_ok (catCommand_body args).
Proof. chan. Qed.

Lemma wc_one_channel : forall args, yields channel_ok (wcCommand_body args).
Proof. chan. Qed.

Lemma mv_one_channel : forall args, yields channel_ok (mvCommand_body args).
Proof. chan. Qed.

Lemma chmod_one_channel : forall args, yields channel_ok (chmodCommand_body args).
Proof. chan. Qed.

Lemma rmdir_p_loop_one_channel :
  forall fuel path, yields channel_ok (rmdir_p_loop fuel path).
Proof.
  induction fuel as [|fuel IH]; intros path; cbn [rmdir_p_loop].
  - chan.
  - chan. apply IH.
Qed.

Lemma rmdir_one_channel : forall args, yields channel_ok (rmdirCommand_body args).
Proof.
  intros args. unfold rmdirCommand_body.
  destruct args as [|a [|b [|c rest]]]; chan.
  apply rmdir_p_loop_one_channel.
Qed.

Lemma mkdir_p_loop_one_channel :
  forall rest partial, exits channel_ok (mkdir_p_loop rest partial).
Proof.
  induction rest as [|c rest IH]; intros partial; cbn [mkdir_p_loop].
  - chan.
  - chan; apply IH.
Qed.

Lemma mkdir_flags_one_channel :
  forall args recurse r, mkdir_flags args recurse = inl r -> channel_ok (Ret r).
Proof.
  induction args as [|a rest IH]; intros recurse r H; cbn [mkdir_flags] in H.
  - discriminate.
  - destruct (Ascii.eqb (Str.front a) "-"); [|discriminate].
    destruct (a == "-p").
    + apply (IH true), H.
    + inversion H. apply channel_ok_failure.
Qed.

Lemma mkdir_one_channel : forall args, yields channel_ok (mkdirCommand_body args).
Proof.
  intros args. unfold mkdirCommand_body.
  destruct args as [|a rest]; [chan|].
  destruct (mkdir_flags (a :: rest) false) as [r|[recurse paths]] eqn:Hf.
  - apply yields_give. apply (mkdir_flags_one_channel _ _ Hf).
  - destruct paths; chan; apply mkdir_p_loop_one_channel.
Qed.

Lemma rm_flags_one_channel :
  forall args recursive r, rm_flags args recursive = inl r -> channel_ok (Ret r).
Proof.
  induction args as [|a rest IH]; intros recursive r H; cbn [rm_flags] in H.
  - discriminate.
  - destruct (Ascii.eqb (Str.front a) "-"); [|discriminate].
    destruct (Str.find "r" a).
    + destruct rest.
      * inversion H. apply channel_ok_failure.
      * apply (IH true), H.
    + inversion H. apply channel_ok_failure.
Qed.

Lemma rm_child_one_channel :
  forall (self : handler (W := W)) path name u,
    exits channel_ok (rm_child self path name u).
Proof.
  intros self path name u. unfold rm_child.
  destruct ((name == ".") || (name == "..")); [chan|].
  intros w. destruct (self _ w) as [[r| | | |] w']; exact I.
Qed.

Lemma rm_one_channel :
  forall fuel args, yields channel_ok (rmCommand_fuel fuel args).
Proof.
  induction fuel as [|fuel IH]; intros args; cbn [rmCommand_fuel].
  - chan.
  - destruct args as [|a rest]; [chan|].
    destruct (rm_flags (a :: rest) false) as [r|[recursive paths]] eqn:Hf.
    + apply yields_give. apply (rm_flags_one_channel _ _ Hf).
    + chan; apply rm_child_one_channel.
Qed.

End Properties.

Section GrepProperties.

Context {W : Type} {os : OS W} {R : Type} {rx : RegexLib R}.

Lemma grep_flags_one_channel :
  forall args flagCount o r,
    grep_flags args flagCount o = GrepReturn r -> channel_ok (Ret r).
Proof.
  fix IH 1.
  intros [|flag rest] flagCount o r H; cbn [grep_flags] in H.
  - discriminate.
  - repeat match type of H with
           | (if ?c then _ else _) = _ => destruct c
           | match ?x with _ => _ end = _ => destruct x
           end;
      try discriminate;
      try (inversion H; apply channel_ok_failure);
      try (eapply IH; eassumption).
Qed.

Lemma grep_line_one_channel :
  forall o (re : R) multipleFiles file line lineNumber acc r,
    grep_line o re multipleFiles file line lineNumber acc = inl r ->
    channel_ok (Ret r).
Proof.
  intros o re multipleFiles file line lineNumber [totalMatches out] r H.
  unfold grep_line in H.
  destruct (matchesPattern line re (opt_o o)) as [matched matchedText].
  repeat match type of H with
         | (if ?c then _ else _) = _ => destruct c
         end;
    try discriminate; inversion H; apply channel_ok_ok.
Qed.

Lemma grep_drain_one_channel :
  forall fuel o (re : R) multipleFiles file st r,
    grep_drain fuel o re multipleFiles file st = inl r -> channel_ok (Ret r).
Proof.
  induction fuel as [|fuel IH]; intros o re multipleFiles file [[lineBuffer lineNumber] acc] r H;
    cbn [grep_drain] in H.
  - destruct (Str.find Str.nl lineBuffer); discriminate.
  - destruct (Str.find Str.nl lineBuffer) as [pos|]; [|discriminate].
    destruct (grep_line o re multipleFiles file (Str.take pos lineBuffer) lineNumber acc)
      as [r'|acc'] eqn:Hl.
    + inversion H; subst. eapply grep_line_one_channel; eassumption.
    + eapply IH; eassumption.
Qed.

Lemma grep_chunks_one_channel :
  forall chunks o (re : R) multipleFiles file st r,
    grep_chunks o re multipleFiles file chunks st = inl r -> channel_ok (Ret r).
Proof.
  induction chunks as [|chunk rest IH];
    intros o re multipleFiles file [[lineBuffer lineNumber] acc] r H;
    cbn [grep_chunks] in H.
  - discriminate.
  - destruct (grep_drain (String.length (lineBuffer ++ chunk)) o re multipleFiles file
                (lineBuffer ++ chunk, lineNumber, acc)) as [r'|st'] eqn:Hd.
    + inversion H; subst. eapply grep_drain_one_channel; eassumption.
    + eapply IH; eassumption.
Qed.

Lemma grep_file_one_channel :
  forall o (re : R) multipleFiles file acc,
    exits channel_ok (grep_file o re multipleFiles file acc).
Proof.
  intros o re multipleFiles file acc. unfold grep_file.
  apply exits_bind; [apply exits_call|]. intros [e|f]; [apply exits_give, channel_ok_failure|].
  apply exits_bind; [apply exits_call|]. intros chunks.
  destruct (grep_chunks o re multipleFiles file (fst chunks) ("", 1, acc))
    as [r|[[lineBuffer lineNumber] acc']] eqn:Hc.
  - apply exits_bind; [apply exits_act|]. intros _. apply exits_give.
    eapply grep_chunks_one_channel; eassumption.
  - destruct (negb (Str.empty lineBuffer)).
    + destruct (grep_line o re multipleFiles file lineBuffer lineNumber acc')
        as [r|acc''] eqn:Hl.
      * apply exits_bind; [apply exits_act|]. intros _. apply exits_give.
        eapply grep_line_one_channel; eassumption.
      * apply exits_bind; [apply exits_act|]. intros _. apply exits_ret.
    + apply exits_bind; [apply exits_act|]. intros _. apply exits_ret.
Qed.

Lemma grep_one_channel :
  forall args, yields channel_ok (grepCommand_body (R := R) args).
Proof.
  intros args. unfold grepCommand_body.
  destruct (length args <? 2)%nat; [apply yields_give, channel_ok_failure|].
  destruct (grep_flags args 0 grep_defaults) as [r|what|o rest] eqn:Hf.
  - apply yields_give. eapply grep_flags_one_channel; eassumption.
  - apply yields_halt. exact I.
  - destruct rest as [|pattern [|file files]];
      try (apply yields_give, channel_ok_failure).
    destruct (regex_compile _ (opt_i o)) as [re|];
      [|apply yields_give, channel_ok_failure].
    apply yields_bind.
    + apply exits_for_each. intros. apply grep_file_one_channel.
    + intros [totalMatches out].
      destruct (opt_c o); [apply yields_ret, channel_ok_ok|].
      destruct (totalMatches =? 0);
        [apply yields_ret, channel_ok_silent | apply yields_ret, channel_ok_ok].
Qed.

(** C9.  Whatever handler is called, on whatever arguments and in whatever
    world, a result that it returns keeps to one channel: with status 0 the
    error text is empty, with status 1 the output is empty. *)
Theorem handlers_keep_one_channel :
  forall (fuel : nat) (c : command) (args : list string) (w w' : W)
         (r : CommandResult),
    handler_of (R := R) fuel c args w = (Ret r, w') ->
    (status r = 0 -> error r = "") /\ (status r = 1 -> output r = "").
Proof.
  intros fuel c args w w' r H.
  change (channel_ok (Ret r)).
  destruct c; cbn [handler_of] in H;
    (eapply yields_run; [|exact H]).
  - apply help_one_channel.
  - apply echo_one_channel.
  - apply pause_one_channel.
  - apply ls_one_channel.
  - apply ls_one_channel.
  - apply cd_one_channel.
  - apply rmdir_one_channel.
  - apply touch_one_channel.
  - apply cp_one_channel.
  - apply chown_one_channel.
  - apply grep_one_channel.
  - apply quit_one_channel.
  - apply clr_one_channel.
  - apply pwd_one_channel.
  - apply environ_one_channel.
  - apply cat_one_channel.
  - apply wc_one_channel.
  - apply mkdir_one_channel.
  - apply rm_one_channel.
  - apply mv_one_channel.
  - apply chmod_one_channel.
Qed.

End GrepProperties.

(** *** Strings *)

Lemma sapp_nil_r : forall s : string, s ++ "" = s.
Proof. induction s as [|c s IH]; simpl; [reflexivity | rewrite IH; reflexivity]. Qed.

Lemma sapp_assoc : forall a b c : string, (a ++ b) ++ c = a ++ (b ++ c).
Proof. induction a as [|x a IH]; intros b c; simpl; [reflexivity | rewrite IH; reflexivity]. Qed.

Lemma slen_app : forall a b : string,
  String.length (a ++ b) = (String.length a + String.length b)%nat.
Proof. induction a as [|x a IH]; intros b; simpl; [reflexivity | rewrite IH; reflexivity]. Qed.

Lemma empty_true : forall s, Str.empty s = true -> s = "".
Proof. destruct s; [reflexivity | discriminate]. Qed.

Lemma empty_false : forall s, Str.empty s = false -> s <> "".
Proof. destruct s; [discriminate | intros _ H; discriminate H]. Qed.

Lemma find_last_of_lt :
  forall f s n, Str.find_last_of f s = Some n -> (n < String.length s)%nat.
Proof.
  induction s as [|c s IH]; intros n H; simpl in H.
  - discriminate.
  - destruct (Str.find_last_of f s) as [m|].
    + inversion H; subst. specialize (IH m eq_refl). simpl. lia.
    + destruct (f c); inversion H. simpl. lia.
Qed.

Lemma length_take :
  forall n s, (n <= String.length s)%nat -> String.length (Str.take n s) = n.
Proof.
  unfold Str.take.
  induction n as [|n IH]; intros s H.
  - destruct s; reflexivity.
  - destruct s as [|c s]; simpl in H; [lia|].
    simpl. rewrite IH; [reflexivity | lia].
Qed.

Lemma cut_last_slash_shorter :
  forall p q, cut_last_slash p = Some q -> (String.length q < String.length p)%nat.
Proof.
  intros p q H. unfold cut_last_slash in H.
  destruct (Str.find_last_of is_slash p) as [pos|] eqn:Hf; [|discriminate].
  inversion H; subst. apply find_last_of_lt in Hf.
  rewrite length_take; lia.
Qed.

Lemma pop_back_spec :
  forall c s, Str.ends_with c s = true -> s = Str.pop_back s ++ Str.of_char c.
Proof.
  intros c. unfold Str.ends_with.
  induction s as [|d s IH]; intros H.
  - discriminate.
  - destruct s as [|e s'].
    + simpl in H. apply Ascii.eqb_eq in H. subst. reflexivity.
    + change (Str.back (String d (String e s'))) with (Str.back (String e s')) in H.
      change (Str.pop_back (String d (String e s')))
        with (String d (Str.pop_back (String e s'))).
      simpl. f_equal. apply IH, H.
Qed.

Lemma pop_back_length :
  forall s, s <> "" -> S (String.length (Str.pop_back s)) = String.length s.
Proof.
  induction s as [|d s IH]; intros H.
  - exfalso; apply H; reflexivity.
  - destruct s as [|e s'].
    + reflexivity.
    + change (Str.pop_back (String d (String e s')))
        with (String d (Str.pop_back (String e s'))).
      simpl. f_equal. apply IH. discriminate.
Qed.

Lemma slashes_snoc : forall k, Str.of_char Str.slash ++ slashes k = slashes k ++ Str.of_char Str.slash.
Proof.
  induction k as [|k IH]; simpl; [reflexivity|].
  f_equal. exact IH.
Qed.

(** [strip_loop] removes exactly the trailing slashes. *)
Lemma strip_loop_spec :
  forall fuel path,
    (String.length path <= fuel)%nat ->
    (exists k, path = strip_loop fuel path ++ slashes k)
    /\ Str.ends_with Str.slash (strip_loop fuel path) = false.
Proof.
  induction fuel as [|fuel IH]; intros path Hlen.
  - destruct path; simpl in Hlen; [|lia]. split; [exists O; reflexivity | reflexivity].
  - cbn [strip_loop].
    destruct (Str.empty path) eqn:He.
    + apply empty_true in He. subst. split; [exists O; reflexivity | reflexivity].
    + cbn [negb andb].
      destruct (Str.ends_with Str.slash path) eqn:Hs.
      * assert (Hne : path <> "") by (apply empty_false, He).
        pose proof (pop_back_length Hne) as Hl.
        destruct (IH (Str.pop_back path)) as [[k Hk] Hend]; [lia|].
        split; [|exact Hend].
        exists (S k).
        rewrite (pop_back_spec _ _ Hs) at 1.
        rewrite Hk at 1. rewrite sapp_assoc.
        f_equal. symmetry. apply slashes_snoc.
      * split; [exists O; rewrite sapp_nil_r; reflexivity | exact Hs].
Qed.

Section RmdirProperties.

Context {W : Type} {os : OS W}.

(** The loop of the [-p] form attempts exactly the paths of the upward walk;
    in particular its fuel never runs out. *)
Lemma rmdir_p_loop_walk :
  forall fuel path w,
    path <> "" ->
    (String.length path < fuel)%nat ->
    run (rmdir_p_loop fuel path) w = rmdir_each (upward_from fuel path) w.
Proof.
  induction fuel as [|fuel IH]; intros path w Hne Hlen; [lia|].
  cbn [rmdir_p_loop upward_from rmdir_each].
  destruct (Str.empty path) eqn:He; [apply empty_true in He; contradiction|].
  unfold run in *. mred.
  destruct (sys_rmdir path w) as [[e|] w1]; [reflexivity|].
  unfold cut_last_slash.
  destruct (Str.find_last_of is_slash path) as [pos|] eqn:Hf; [|reflexivity].
  assert (Hq : cut_last_slash path = Some (Str.take pos path))
    by (unfold cut_last_slash; rewrite Hf; reflexivity).
  apply cut_last_slash_shorter in Hq.
  destruct ((Str.take pos path == "") || (Str.take pos path == "/")) eqn:Hstop;
    [reflexivity|].
  apply IH; [|lia].
  intros Heq. rewrite Heq in Hstop. discriminate.
Qed.

Lemma upward_from_walk :
  forall fuel path,
    (String.length path < fuel)%nat -> upward path (upward_from fuel path).
Proof.
  induction fuel as [|fuel IH]; intros path Hlen; [lia|].
  cbn [upward_from].
  destruct (cut_last_slash path) as [q|] eqn:Hq.
  - pose proof (cut_last_slash_shorter _ Hq) as Hl.
    destruct ((q == "") || (q == "/")) eqn:Hstop.
    + apply upward_stop with q; [exact Hq|].
      apply orb_true_iff in Hstop.
      destruct Hstop as [H|H]; apply String.eqb_eq in H; auto.
    + apply orb_false_iff in Hstop. destruct Hstop as [H1 H2].
      apply String.eqb_neq in H1. apply String.eqb_neq in H2.
      apply upward_step with q; auto. apply IH. lia.
  - apply upward_no_slash, Hq.
Qed.

(** C6.  [rmdir -p path]: the trailing slashes of [path] are removed first;
    [rmdir] is then attempted on the remaining path and on each path above
    it, in upward order, up to the first failure; the walk ends where no
    slash is left or where the next path would be empty or the root; a
    failure is reported with the message of its kind. *)
Theorem rmdir_p_walks_upward :
  forall (path : string) (w : W),
    path <> "" ->
    let p := strip_trailing_slashes path in
    (exists k, path = p ++ slashes k)
    /\ Str.ends_with Str.slash p = false
    /\ rmdirCommand ["-p"; path] w = rmdir_each (upward_paths p) w
    /\ (p <> "" -> upward p (upward_paths p))
    /\ (forall q,
          formatRmdirErrorMsg q ENOTEMPTY
          = "rmdir: failed to remove '" ++ q ++ "': directory not empty"
          /\ formatRmdirErrorMsg q ENOENT
             = "rmdir: failed to remove '" ++ q ++ "': no such file or directory"
          /\ formatRmdirErrorMsg q ENOTDIR
             = "rmdir: failed to remove '" ++ q ++ "': not a directory"
          /\ formatRmdirErrorMsg q EACCES
             = "rmdir: failed to remove '" ++ q ++ "': permission denied"
          /\ formatRmdirErrorMsg q EPERM
             = "rmdir: failed to remove '" ++ q ++ "': permission denied").
Proof.
  intros path w Hne p.
  destruct (strip_loop_spec (fuel := String.length path) path (le_n _)) as [Hk Hend].
  fold (strip_trailing_slashes path) in Hk, Hend. fold p in Hk, Hend.
  repeat split; try assumption.
  - unfold rmdirCommand, rmdirCommand_body.
    change ("-p" == "-p") with true. cbv iota.
    destruct (Str.empty path) eqn:He; [apply empty_true in He; contradiction|].
    fold p. unfold upward_paths.
    destruct (Str.empty p) eqn:Hp.
    + apply empty_true in Hp. rewrite Hp. reflexivity.
    + apply rmdir_p_loop_walk; [apply empty_false, Hp | lia].
  - intros Hpne. unfold upward_paths.
    destruct (Str.empty p) eqn:Hp; [apply empty_true in Hp; contradiction|].
    apply upward_from_walk. lia.
Qed.

End RmdirProperties.

(** *** wc *)

Lemma ends_with_app_char :
  forall c d s, Str.ends_with c (s ++ Str.of_char d) = Ascii.eqb d c.
Proof.
  intros c d. unfold Str.ends_with.
  induction s as [|e s IH].
  - reflexivity.
  - simpl (String e s ++ Str.of_char d).
    destruct (s ++ Str.of_char d) as [|x y] eqn:Hs.
    + destruct s; discriminate Hs.
    + change (Str.back (String e (String x y))) with (Str.back (String x y)).
      exact IH.
Qed.

Lemma ends_with_cons :
  forall c d s, s <> "" -> Str.ends_with c (String d s) = Str.ends_with c s.
Proof.
  intros c d s H. destruct s as [|e s]; [contradiction|]. reflexivity.
Qed.

Lemma count_le_length :
  forall c s, (Str.count c s <= String.length s)%nat.
Proof.
  induction s as [|d s IH]; simpl; [lia|].
  destruct (Ascii.eqb d c); lia.
Qed.

Lemma wc_buffer_app :
  forall a b st, wc_buffer (a ++ b) st = wc_buffer b (wc_buffer a st).
Proof.
  induction a as [|c a IH]; intros b st; simpl; [reflexivity | apply IH].
Qed.

Lemma wc_read_cat :
  forall chunks st,
    fold_left (fun st buffer => wc_buffer buffer st) chunks st
    = wc_buffer (Str.cat chunks) st.
Proof.
  induction chunks as [|chunk rest IH]; intros st; simpl; [reflexivity|].
  rewrite IH, wc_buffer_app. reflexivity.
Qed.

Lemma size_incr_range : forall x, 0 <= size_incr x < SIZE_MODULUS.
Proof. intros x. unfold size_incr. apply Z.mod_pos_bound. reflexivity. Qed.

(** The line counter follows the newline characters, modulo the size of a
    [size_t], and the flag records whether the last character was one. *)
Lemma wc_buffer_lines :
  forall s st,
    wc_lines (wc_buffer s st)
    = (if (Str.count Str.nl s =? 0)%nat then wc_lines st
       else (wc_lines st + newline_count s) mod SIZE_MODULUS)
    /\ lastCharWasNewline (wc_buffer s st)
       = if Str.empty s then lastCharWasNewline st else Str.ends_with Str.nl s.
Proof.
  unfold newline_count.
  induction s as [|c s IH]; intros st.
  - split; reflexivity.
  - cbn [wc_buffer Str.count Str.empty].
    destruct (IH (wc_char st c)) as [Hl Hn]. rewrite Hl, Hn. clear Hl Hn IH.
    unfold wc_char.
    destruct (Ascii.eqb c Str.nl) eqn:Hc;
      destruct (wc_space c); destruct (negb (inWord st)); cbn [wc_lines lastCharWasNewline];
      (split;
       [ cbn [Nat.add Nat.eqb];
         destruct (Str.count Str.nl s =? 0)%nat eqn:Hz;
         [ apply Nat.eqb_eq in Hz; rewrite ?Hz; cbn [Nat.add Nat.eqb Z.of_nat];
           unfold size_incr; try reflexivity
         | unfold size_incr; try rewrite Zplus_mod_idemp_l; try (f_equal; lia) ]
       | destruct s as [|d s];
         [ cbn [Str.empty]; unfold Str.ends_with; cbn [Str.back]; rewrite Hc; reflexivity
         | cbn [Str.empty]; symmetry; apply ends_with_cons; discriminate ] ]).
Qed.

Lemma wc_counts_lines :
  forall chunks,
    let content := Str.cat chunks in
    content <> "" ->
    Z.of_nat (String.length content) <= OFF_MAX ->
    fst (fst (wc_counts chunks)) = expected_lines content.
Proof.
  intros chunks content Hne Hsize.
  unfold wc_counts, wc_read. rewrite wc_read_cat. fold content.
  destruct (wc_buffer_lines content wc_init) as [Hl Hn].
  cbn [fst]. rewrite Hn, Hl. clear Hl Hn.
  destruct (Str.empty content) eqn:He; [apply empty_true in He; contradiction|].
  unfold expected_lines, newline_count.
  pose proof (count_le_length Str.nl content) as Hc.
  assert (HM : OFF_MAX + 1 < SIZE_MODULUS) by reflexivity.
  cbn [wc_lines wc_init Z.add].
  assert (Hmod : (if (Str.count Str.nl content =? 0)%nat then 0
                  else Z.of_nat (Str.count Str.nl content) mod SIZE_MODULUS)
                 = Z.of_nat (Str.count Str.nl content)).
  { destruct (Str.count Str.nl content =? 0)%nat eqn:Hz.
    - apply Nat.eqb_eq in Hz. rewrite Hz. reflexivity.
    - apply Z.mod_small. lia. }
  rewrite Hmod.
  destruct (Str.ends_with Str.nl content); cbn [negb].
  - lia.
  - unfold size_incr. apply Z.mod_small. lia.
Qed.

Lemma take_app_length :
  forall s t, Str.take (String.length s) (s ++ t) = s.
Proof.
  unfold Str.take.
  induction s as [|c s IH]; intros t; simpl.
  - destruct t; reflexivity.
  - rewrite IH. reflexivity.
Qed.

Lemma stripTrailingNewline_line :
  forall s, stripTrailingNewline (s ++ LF) = s.
Proof.
  intros s. unfold stripTrailingNewline, LF.
  rewrite ends_with_app_char, Ascii.eqb_refl.
  replace (Str.empty (s ++ Str.of_char Str.nl)) with false
    by (destruct s; reflexivity).
  cbn [negb andb].
  rewrite slen_app. cbn [String.length Str.of_char].
  replace (String.length s + 1 - 1)%nat with (String.length s) by lia.
  apply take_app_length.
Qed.

Section WcProperties.

Context {W : Type} {os : OS W}.


End WcProperties.

(** *** Lines of a buffer *)

Lemma find_none_split :
  forall s cur, Str.find Str.nl s = None -> split_lines s cur = ([], cur ++ s).
Proof.
  induction s as [|c s IH]; intros cur H; simpl in *.
  - rewrite sapp_nil_r. reflexivity.
  - destruct (Ascii.eqb c Str.nl); [discriminate|].
    destruct (Str.find Str.nl s); [discriminate|].
    rewrite IH by reflexivity. rewrite sapp_assoc. reflexivity.
Qed.

Lemma find_some_split :
  forall s cur pos,
    Str.find Str.nl s = Some pos ->
    split_lines s cur
    = (let (ls, r) := split_lines (Str.drop (pos + 1) s) "" in
       ((cur ++ Str.take pos s) :: ls, r)).
Proof.
  induction s as [|c s IH]; intros cur pos H; simpl in H.
  - discriminate.
  - cbn [split_lines].
    destruct (Ascii.eqb c Str.nl) eqn:Hc.
    + inversion H; subst. cbn [Nat.add Str.drop]. unfold Str.take. cbn [substring].
      rewrite sapp_nil_r. reflexivity.
    + destruct (Str.find Str.nl s) as [n|] eqn:Hf; [|discriminate].
      inversion H; subst.
      rewrite (IH _ n eq_refl).
      cbn [Nat.add Str.drop]. unfold Str.take. cbn [substring].
      rewrite sapp_assoc. reflexivity.
Qed.

Lemma find_some_drop_length :
  forall s pos,
    Str.find Str.nl s = Some pos ->
    (String.length (Str.drop (pos + 1) s) < String.length s)%nat.
Proof.
  induction s as [|c s IH]; intros pos H; simpl in H.
  - discriminate.
  - destruct (Ascii.eqb c Str.nl).
    + inversion H; subst. simpl. lia.
    + destruct (Str.find Str.nl s) as [n|] eqn:Hf; [|discriminate].
      inversion H; subst. specialize (IH n eq_refl).
      cbn [Nat.add Str.drop String.length] in *. lia.
Qed.

Lemma split_lines_app :
  forall a b cur,
    split_lines (a ++ b) cur
    = (let (la, ra) := split_lines a cur in
       let (lb, rb) := split_lines b ra in
       ((la ++ lb)%list, rb)).
Proof.
  induction a as [|c a IH]; intros b cur.
  - simpl. destruct (split_lines b cur); reflexivity.
  - simpl. destruct (Ascii.eqb c Str.nl).
    + rewrite IH. destruct (split_lines a "") as [la ra].
      destruct (split_lines b ra) as [lb rb]. reflexivity.
    + apply IH.
Qed.

(** What follows the last newline holds no newline. *)
Lemma split_lines_rest :
  forall s cur,
    Str.find Str.nl cur = None ->
    Str.find Str.nl (snd (split_lines s cur)) = None.
Proof.
  induction s as [|c s IH]; intros cur H; simpl.
  - exact H.
  - destruct (Ascii.eqb c Str.nl) eqn:Hc.
    + specialize (IH "" eq_refl). destruct (split_lines s ""); exact IH.
    + apply IH.
      clear IH. induction cur as [|d cur IHc]; simpl in *.
      * rewrite Hc. reflexivity.
      * destruct (Ascii.eqb d Str.nl); [discriminate|].
        destruct (Str.find Str.nl cur); [discriminate|].
        rewrite IHc by reflexivity. reflexivity.
Qed.

Section GrepLines.

Context {W : Type} {os : OS W} {R : Type} {rx : RegexLib R}.

Variables (o : grep_opts) (re : R) (multipleFiles : bool) (file : string).

Lemma grep_lines_app :
  forall l1 l2 n acc,
    grep_lines o re multipleFiles file (l1 ++ l2) n acc
    = match grep_lines o re multipleFiles file l1 n acc with
      | inl r => inl r
      | inr (n', acc') => grep_lines o re multipleFiles file l2 n' acc'
      end.
Proof.
  induction l1 as [|line l1 IH]; intros l2 n acc; cbn [app grep_lines].
  - reflexivity.
  - destruct (grep_line o re multipleFiles file line n acc) as [r|acc']; [reflexivity|].
    apply IH.
Qed.

(** The inner loop handles the lines that a newline ends and leaves what
    follows the last newline in the buffer; it never runs out of fuel. *)
Lemma grep_drain_lines :
  forall fuel buf n acc,
    (String.length buf <= fuel)%nat ->
    grep_drain fuel o re multipleFiles file (buf, n, acc)
    = match grep_lines o re multipleFiles file (fst (split_lines buf "")) n acc with
      | inl r => inl r
      | inr (n', acc') => inr (snd (split_lines buf ""), n', acc')
      end.
Proof.
  induction fuel as [|fuel IH]; intros buf n acc Hlen.
  - destruct buf; simpl in Hlen; [reflexivity | lia].
  - cbn [grep_drain].
    destruct (Str.find Str.nl buf) as [pos|] eqn:Hf.
    + rewrite (find_some_split _ "" Hf).
      pose proof (find_some_drop_length _ Hf) as Hd.
      destruct (split_lines (Str.drop (pos + 1) buf) "") as [ls r] eqn:Hs.
      cbn [fst snd grep_lines append].
      destruct (grep_line o re multipleFiles file (Str.take pos buf) n acc) as [res|acc'];
        [reflexivity|].
      rewrite IH by lia. rewrite Hs. reflexivity.
    + rewrite (find_none_split _ "" Hf). reflexivity.
Qed.

Lemma split_lines_buffer :
  forall buf chunk,
    Str.find Str.nl buf = None ->
    split_lines (buf ++ chunk) "" = split_lines chunk buf.
Proof.
  intros buf chunk H.
  rewrite split_lines_app, (find_none_split _ "" H).
  cbn [append]. destruct (split_lines chunk buf); reflexivity.
Qed.

(** The read loop handles the lines of everything read so far. *)
Lemma grep_chunks_lines :
  forall chunks buf n acc,
    Str.find Str.nl buf = None ->
    grep_chunks o re multipleFiles file chunks (buf, n, acc)
    = match grep_lines o re multipleFiles file
              (fst (split_lines (Str.cat chunks) buf)) n acc with
      | inl r => inl r
      | inr (n', acc') => inr (snd (split_lines (Str.cat chunks) buf), n', acc')
      end.
Proof.
  induction chunks as [|chunk rest IH]; intros buf n acc Hbuf.
  - reflexivity.
  - cbn [grep_chunks Str.cat fold_right].
    rewrite grep_drain_lines by apply le_n.
    rewrite (split_lines_buffer _ chunk Hbuf).
    rewrite split_lines_app.
    pose proof (split_lines_rest chunk buf Hbuf) as Hrest.
    destruct (split_lines chunk buf) as [l1 r1]. cbn [fst snd] in *.
    fold (Str.cat rest).
    destruct (split_lines (Str.cat rest) r1) as [l2 r2] eqn:H2. cbn [fst snd].
    rewrite grep_lines_app.
    destruct (grep_lines o re multipleFiles file l1 n acc) as [r|[n1 acc1]];
      [reflexivity|].
    rewrite IH by exact Hrest. rewrite H2. reflexivity.
Qed.

(** One file: the loop body is run on each line of the file, in order. *)
Lemma grep_file_lines :
  forall acc w f w1 chunks w2,
    sys_open file O_RDONLY 0 w = (inr f, w1) ->
    sys_read_chunks f 1024 w1 = (chunks, w2) ->
    grep_file o re multipleFiles file acc w
    = match grep_lines o re multipleFiles file
              (file_lines (Str.cat (fst chunks))) 1 acc with
      | inl r => (Done (Ret r), sys_close f w2)
      | inr (_, acc') => (Next acc', sys_close f w2)
      end.
Proof.
  intros acc w f w1 chunks w2 Hopen Hread.
  unfold grep_file. mred. rewrite Hopen. mred. rewrite Hread. mred.
  rewrite grep_chunks_lines by reflexivity.
  unfold file_lines.
  destruct (split_lines (Str.cat (fst chunks)) "") as [ls r]. cbn [fst snd].
  rewrite grep_lines_app.
  destruct (grep_lines o re multipleFiles file ls 1 acc) as [res|[n1 acc1]];
    [reflexivity|].
  destruct (Str.empty r); cbn [negb grep_lines]; [reflexivity|].
  destruct (grep_line o re multipleFiles file r n1 acc1); reflexivity.
Qed.

Lemma grep_line_not_selected :
  forall line n acc,
    selected o re line = false ->
    grep_line o re multipleFiles file line n acc = inr acc.
Proof.
  intros line n [totalMatches out] H. unfold grep_line, selected in *.
  destruct (matchesPattern line re (opt_o o)) as [matched matchedText].
  cbn [fst] in H. rewrite H. reflexivity.
Qed.

Lemma grep_lines_none_selected :
  forall lines n acc,
    (forall line, In line lines -> selected o re line = false) ->
    exists n', grep_lines o re multipleFiles file lines n acc = inr (n', acc).
Proof.
  induction lines as [|line rest IH]; intros n acc H; cbn [grep_lines].
  - exists n; reflexivity.
  - rewrite grep_line_not_selected by (apply H; left; reflexivity).
    apply IH. intros l Hl. apply H. right. exact Hl.
Qed.

End GrepLines.

Section GrepNoMatch.

Context {W : Type} {os : OS W} {R : Type} {rx : RegexLib R}.

Lemma grep_flags_rest_length :
  forall args flagCount o0 o rest,
    grep_flags args flagCount o0 = GrepArgs o rest ->
    (length rest <= length args)%nat.
Proof.
  fix IH 1.
  intros [|flag tail] flagCount o0 o rest H; cbn [grep_flags] in H.
  - inversion H. apply le_n.
  - repeat match type of H with
           | (if ?c then _ else _) = _ => destruct c
           | match ?x with _ => _ end = _ => destruct x
           end;
      try discriminate;
      try (inversion H; subst; apply le_n);
      try (apply IH in H; cbn [length] in *; lia).
Qed.

Lemma grep_files_none_selected :
  forall (o : grep_opts) (re : R) multipleFiles files w contents w' acc,
    read_files files w = (Some contents, w') ->
    (forall line, In line (flat_map file_lines contents) -> selected o re line = false) ->
    for_each (grep_file o re multipleFiles) files acc w = (Next acc, w').
Proof.
  induction files as [|file rest IH]; intros w contents w' acc Hread Hnone;
    cbn [read_files for_each] in *.
  - inversion Hread. reflexivity.
  - destruct (sys_open file O_RDONLY 0 w) as [[e|f] w1] eqn:Hopen; [discriminate|].
    destruct (sys_read_chunks f 1024 w1) as [chunks w2] eqn:Hrd.
    destruct (read_files rest (sys_close f w2)) as [[contents'|] w3] eqn:Hrest;
      [|discriminate].
    inversion Hread; subst. clear Hread.
    unfold bind. rewrite (grep_file_lines o re multipleFiles file acc w Hopen Hrd).
    destruct (grep_lines_none_selected o re multipleFiles file
                (file_lines (Str.cat (fst chunks))) 1 acc) as [n' Hn].
    { intros line Hin. apply Hnone. cbn [flat_map]. apply in_or_app. left. exact Hin. }
    rewrite Hn.
    apply (IH _ contents'); [exact Hrest|].
    intros line Hin. apply Hnone. cbn [flat_map]. apply in_or_app. right. exact Hin.
Qed.

(** C8.  When the arguments give a pattern that compiles and files that can
    all be opened, the count-only flag is not set and no line of any file is
    selected, [grep] returns status 1 with empty output and empty error text. *)
Theorem grep_no_match_is_silent :
  forall (args : list string) (w w' : W) (o : grep_opts) (pattern file : string)
         (files contents : list string) (re : R),
    grep_flags args 0 grep_defaults = GrepArgs o (pattern :: file :: files) ->
    opt_c o = false ->
    regex_compile (if opt_w o then "\b" ++ pattern ++ "\b" else pattern) (opt_i o)
    = Some re ->
    read_files (file :: files) w = (Some contents, w') ->
    selected_count o re contents = 0%nat ->
    grepCommand args w = (Ret (mkResult 1 "" ""), w').
Proof.
  intros args w w' o pattern file files contents re Hflags Hc Hre Hread Hcount.
  unfold grepCommand, grepCommand_body.
  pose proof (grep_flags_rest_length _ _ _ Hflags) as Hlen. cbn [length] in Hlen.
  replace (length args <? 2)%nat with false
    by (symmetry; apply Nat.ltb_ge; lia).
  rewrite Hflags, Hre. mred.
  rewrite (grep_files_none_selected o re _ (file :: files) w (0, "") Hread).
  - rewrite Hc. reflexivity.
  - intros line Hin. unfold selected_count in Hcount.
    apply length_zero_iff_nil in Hcount.
    destruct (selected o re line) eqn:Hs; [|reflexivity].
    assert (Hf : In line (filter (selected o re) (flat_map file_lines contents)))
      by (apply filter_In; split; assumption).
    rewrite Hcount in Hf. contradiction.
Qed.

End GrepNoMatch.

(** *** The match limit *)

Lemma cat_app :
  forall l1 l2, Str.cat (l1 ++ l2) = Str.cat l1 ++ Str.cat l2.
Proof.
  induction l1 as [|x l1 IH]; intros l2; simpl; [reflexivity|].
  fold (Str.cat (l1 ++ l2)). fold (Str.cat l1). rewrite IH, sapp_assoc. reflexivity.
Qed.

Lemma unlines_snoc :
  forall l x, unlines (l ++ [x]) = unlines l ++ (x ++ LF).
Proof.
  intros l x. unfold unlines. rewrite map_app, cat_app. simpl.
  rewrite sapp_nil_r. reflexivity.
Qed.

Lemma join_snoc :
  forall l x, Str.join LF (l ++ [x]) = unlines l ++ x.
Proof.
  induction l as [|a l IH]; intros x.
  - reflexivity.
  - change ((a :: l) ++ [x])%list with (a :: (l ++ [x]))%list.
    assert (H : Str.join LF (a :: (l ++ [x])) = a ++ LF ++ Str.join LF (l ++ [x])).
    { destruct l; reflexivity. }
    rewrite H, IH. unfold unlines. simpl.
    rewrite !sapp_assoc. reflexivity.
Qed.

Lemma pop_back_app_char :
  forall s c, Str.pop_back (s ++ Str.of_char c) = s.
Proof.
  induction s as [|d s IH]; intros c.
  - reflexivity.
  - simpl (String d s ++ Str.of_char c).
    destruct (s ++ Str.of_char c) as [|x y] eqn:Hs.
    + destruct s; discriminate Hs.
    + change (Str.pop_back (String d (String x y)))
        with (String d (Str.pop_back (String x y))).
      rewrite <- Hs, IH. reflexivity.
Qed.

Lemma chop_unlines :
  forall l, chop (unlines l) = Str.join LF l.
Proof.
  intros l. destruct l as [|x l] using rev_ind.
  - reflexivity.
  - rewrite unlines_snoc, join_snoc, <- sapp_assoc.
    unfold chop, LF. rewrite ends_with_app_char, Ascii.eqb_refl, pop_back_app_char.
    destruct (unlines l ++ x); reflexivity.
Qed.

Lemma int_incr_below : forall x, x < INT_MAX -> int_incr x = x + 1.
Proof.
  intros x H. unfold int_incr.
  replace (x <? INT_MAX) with true by (symmetry; apply Z.ltb_lt; exact H).
  reflexivity.
Qed.

Section GrepLimit.

Context {W : Type} {os : OS W} {R : Type} {rx : RegexLib R}.

Variables (m : Z) (re : R) (multipleFiles : bool).

Hypothesis m_nonneg : 0 <= m.

(** The counter of matches goes up to [m + 1], which must be an [int]. *)
Hypothesis m_below : m < INT_MAX.

Lemma grep_line_limit_found :
  forall file line n emitted,
    found re line = true ->
    Z.of_nat (length emitted) <= m ->
    grep_line (limit_only m) re multipleFiles file line n
              (Z.of_nat (length emitted), unlines emitted)
    = if m <? Z.of_nat (length emitted) + 1
      then inl (mkResult 0 (Str.join LF emitted) "")
      else inr (Z.of_nat (length (emitted ++ [with_file_name multipleFiles file line])),
                unlines (emitted ++ [with_file_name multipleFiles file line])).
Proof.
  intros file line n emitted Hfound Hle.
  unfold grep_line, found in *. cbn [limit_only opt_o opt_v opt_m opt_c opt_n] in *.
  rewrite int_incr_below by lia.
  destruct (matchesPattern line re false) as [matched matchedText] eqn:Hm.
  cbn [fst] in Hfound. subst matched.
  assert (Htext : matchedText = line).
  { unfold matchesPattern in Hm. destruct (regex_search re line); inversion Hm.
    reflexivity. }
  subst matchedText.
  replace (m =? -1) with false by (symmetry; apply Z.eqb_neq; lia).
  cbn [negb andb].
  destruct (m <? Z.of_nat (length emitted) + 1).
  - fold (chop (unlines emitted)). rewrite chop_unlines. reflexivity.
  - rewrite unlines_snoc, length_app. cbn [length].
    f_equal. f_equal; [lia|].
    unfold with_file_name. destruct multipleFiles; [|reflexivity].
    rewrite !sapp_assoc. reflexivity.
Qed.

Lemma grep_line_limit_not_found :
  forall file line n acc,
    found re line = false ->
    grep_line (limit_only m) re multipleFiles file line n acc = inr acc.
Proof.
  intros file line n acc H.
  apply grep_line_not_selected. unfold selected. exact H.
Qed.

(** The lines of one file under a limit: the scan returns as soon as a line
    beyond the limit is found, with the lines found before it. *)
Lemma grep_lines_limit :
  forall file lines n emitted,
    Z.of_nat (length emitted) <= m ->
    let new := map (with_file_name multipleFiles file) (filter (found re) lines) in
    exists n',
      grep_lines (limit_only m) re multipleFiles file lines n
                 (Z.of_nat (length emitted), unlines emitted)
      = if m <? Z.of_nat (length (emitted ++ new))
        then inl (mkResult 0 (Str.join LF (firstn (Z.to_nat m) (emitted ++ new))) "")
        else inr (n', (Z.of_nat (length (emitted ++ new)), unlines (emitted ++ new))).
Proof.
  intros file lines. induction lines as [|line rest IH]; intros n emitted Hle new.
  - exists n. subst new. cbn [filter map grep_lines]. rewrite app_nil_r.
    replace (m <? Z.of_nat (length emitted)) with false
      by (symmetry; apply Z.ltb_ge; lia).
    reflexivity.
  - subst new. cbn [filter grep_lines].
    destruct (found re line) eqn:Hf.
    + rewrite (grep_line_limit_found file line n emitted Hf Hle). cbn [map].
      destruct (m <? Z.of_nat (length emitted) + 1) eqn:Hlim.
      * exists n. apply Z.ltb_lt in Hlim.
        replace (m <? Z.of_nat (length (emitted ++ _ :: _))) with true
          by (symmetry; apply Z.ltb_lt; rewrite length_app; cbn [length]; lia).
        do 2 f_equal.
        replace (Z.to_nat m) with (length emitted + 0)%nat by lia.
        rewrite firstn_app_2. cbn [firstn]. rewrite app_nil_r. reflexivity.
      * apply Z.ltb_ge in Hlim.
        destruct (IH (int_incr n) (emitted ++ [with_file_name multipleFiles file line])%list)
          as [n' Hn'].
        { rewrite length_app. cbn [length]. lia. }
        exists n'. rewrite Hn'. rewrite <- !app_assoc. reflexivity.
    + rewrite (grep_line_limit_not_found file line n _ Hf).
      apply IH. exact Hle.
Qed.

(** The files under a limit. *)
Lemma grep_files_limit :
  forall files w contents w_all emitted,
    read_files files w = (Some contents, w_all) ->
    Z.of_nat (length emitted) <= m ->
    let new := matching_lines re multipleFiles files contents in
    if m <? Z.of_nat (length (emitted ++ new))
    then fst (for_each (grep_file (limit_only m) re multipleFiles) files
                       (Z.of_nat (length emitted), unlines emitted) w)
         = Done (Ret (mkResult 0 (Str.join LF (firstn (Z.to_nat m) (emitted ++ new))) ""))
    else for_each (grep_file (limit_only m) re multipleFiles) files
                  (Z.of_nat (length emitted), unlines emitted) w
         = (Next (Z.of_nat (length (emitted ++ new)), unlines (emitted ++ new)), w_all).
Proof.
  induction files as [|file rest IH]; intros w contents w_all emitted Hread Hle new;
    cbn [read_files for_each] in *.
  - inversion Hread; subst. subst new. cbn [matching_lines]. rewrite app_nil_r.
    replace (m <? Z.of_nat (length emitted)) with false
      by (symmetry; apply Z.ltb_ge; lia).
    reflexivity.
  - destruct (sys_open file O_RDONLY 0 w) as [[e|f] w1] eqn:Hopen; [discriminate|].
    destruct (sys_read_chunks f 1024 w1) as [chunks w2] eqn:Hrd.
    destruct (read_files rest (sys_close f w2)) as [[contents'|] w3] eqn:Hrest;
      [|discriminate].
    inversion Hread; subst. clear Hread.
    subst new. cbn [matching_lines].
    set (mine := map (with_file_name multipleFiles file)
                     (filter (found re) (file_lines (Str.cat (fst chunks))))).
    set (others := matching_lines re multipleFiles rest contents').
    unfold bind.
    rewrite (grep_file_lines (limit_only m) re multipleFiles file _ w Hopen Hrd).
    destruct (grep_lines_limit file (file_lines (Str.cat (fst chunks))) 1 emitted Hle)
      as [n' Hn'].
    fold mine in Hn'. rewrite Hn'. clear Hn'.
    destruct (m <? Z.of_nat (length (emitted ++ mine))) eqn:Hlim.
    + apply Z.ltb_lt in Hlim.
      replace (m <? Z.of_nat (length (emitted ++ mine ++ others))) with true
        by (symmetry; apply Z.ltb_lt; rewrite !length_app in *; lia).
      cbn [fst]. do 3 f_equal.
      rewrite app_assoc.
      rewrite (firstn_app (Z.to_nat m) (emitted ++ mine)%list others).
      replace (Z.to_nat m - length (emitted ++ mine))%nat with 0%nat by lia.
      cbn [firstn]. rewrite app_nil_r. reflexivity.
    + apply Z.ltb_ge in Hlim.
      specialize (IH (sys_close f w2) contents' w_all (emitted ++ mine)%list Hrest Hlim).
      cbn zeta in IH. fold others in IH. rewrite <- app_assoc in IH.
      exact IH.
Qed.

(** Were the count-only flag set together with a limit, the early return
    would report the count after the increment, one more than the limit. *)
Remark grep_line_count_past_limit :
  forall file line n out,
    found re line = true ->
    grep_line (mkGrepOpts false false false false true false m) re multipleFiles
              file line n (m, out)
    = inl (mkResult 0 (to_string (m + 1)) "").
Proof.
  intros file line n out Hfound.
  unfold grep_line, found in *. cbn [opt_o opt_v opt_m opt_c opt_n] in *.
  rewrite int_incr_below by exact m_below.
  destruct (matchesPattern line re false) as [matched matchedText].
  cbn [fst] in Hfound. subst matched.
  replace (m =? -1) with false by (symmetry; apply Z.eqb_neq; lia).
  replace (m <? m + 1) with true by (symmetry; apply Z.ltb_lt; lia).
  reflexivity.
Qed.

End GrepLimit.

Section GrepLimitTheorem.

Context {W : Type} {os : OS W} {R : Type} {rx : RegexLib R}.

Lemma grep_flags_limit_only :
  forall mtext m pattern rest,
    Stoi.stoi mtext 10 = StoiOk m ->
    Ascii.eqb (Str.front pattern) "-" = false ->
    grep_flags ("-m" :: mtext :: pattern :: rest) 0 grep_defaults
    = GrepArgs (limit_only m) (pattern :: rest).
Proof.
  intros mtext m pattern rest Hstoi Hfront.
  cbn [grep_flags]. change (Ascii.eqb (Str.front "-m") "-") with true.
  change ("-m" == "-i") with false. change ("-m" == "-n") with false.
  change ("-m" == "-v") with false. change ("-m" == "-w") with false.
  change ("-m" == "-c") with false. change ("-m" == "-o") with false.
  change ("-m" == "-m") with true. cbv iota. cbn [negb Z.add Z.ltb Z.compare Pos.compare].
  rewrite Hstoi. rewrite Hfront. reflexivity.
Qed.

(** C1 (amended).  When [-m] with a value [0 <= m < INT_MAX] is the one
    flag, the pattern compiles, the files can all be opened and more than [m]
    of their lines contain the pattern, [grep] returns status 0 and exactly
    the first [m] of those lines (each after its file's name when several
    files are given), joined by newlines.  The bound is needed: the counter of
    matches is an [int] and the scan stops when it is greater than [m], which
    it cannot be for [m = INT_MAX].  The limit cannot be combined with the
    count-only flag: in either order the two flags are refused. *)
Theorem grep_limit_first_matches :
  (forall (mtext pattern file : string) (files contents : list string) (m : Z)
          (re : R) (w w_all : W),
      Stoi.stoi mtext 10 = StoiOk m ->
      0 <= m ->
      m < INT_MAX ->
      Ascii.eqb (Str.front pattern) "-" = false ->
      regex_compile pattern false = Some re ->
      read_files (file :: files) w = (Some contents, w_all) ->
      m < Z.of_nat (length (matching_lines re (1 <? length (file :: files))%nat
                                           (file :: files) contents)) ->
      fst (grepCommand ("-m" :: mtext :: pattern :: file :: files) w)
      = Ret (mkResult 0
               (Str.join LF
                  (firstn (Z.to_nat m)
                     (matching_lines re (1 <? length (file :: files))%nat
                                     (file :: files) contents))) ""))
  /\ (forall (mtext : string) (m : Z) (rest : list string) (w : W),
         Stoi.stoi mtext 10 = StoiOk m ->
         grepCommand (R := R) ("-m" :: mtext :: "-c" :: rest) w
         = (Ret (mkResult 1 "" "grep: only one flag can be used at a time"), w))
  /\ (forall (rest : list string) (w : W),
         grepCommand (R := R) ("-c" :: "-m" :: rest) w
         = (Ret (mkResult 1 "" "grep: only one flag can be used at a time"), w)).
Proof.
  split; [|split].
  - intros mtext pattern file files contents m re w w_all
           Hstoi Hm Hlt Hfront Hre Hread Hmore.
    unfold grepCommand, grepCommand_body.
    change (length ("-m" :: mtext :: pattern :: file :: files) <? 2)%nat with false.
    cbv iota.
    rewrite (@grep_flags_limit_only mtext m pattern (file :: files) Hstoi Hfront).
    cbn [limit_only opt_w opt_i]. rewrite Hre. mred.
    pose proof (@grep_files_limit W os R rx m re (1 <? length (file :: files))%nat
                  Hm Hlt (file :: files) w contents w_all [] Hread) as H.
    specialize (H Hm). cbv zeta in H. cbn [app] in H.
    apply Z.ltb_lt in Hmore. rewrite Hmore in H.
    change (unlines []) with "" in H.
    change (Z.of_nat (length (@nil string))) with 0 in H.
    match type of H with fst ?t = _ => destruct t as [s w1] end.
    cbn [fst] in H. subst s. reflexivity.
  - intros mtext m rest w Hstoi.
    unfold grepCommand, grepCommand_body.
    change (length ("-m" :: mtext :: "-c" :: rest) <? 2)%nat with false. cbv iota.
    cbn [grep_flags]. change (Ascii.eqb (Str.front "-m") "-") with true.
    change ("-m" == "-i") with false. change ("-m" == "-n") with false.
    change ("-m" == "-v") with false. change ("-m" == "-w") with false.
    change ("-m" == "-c") with false. change ("-m" == "-o") with false.
    change ("-m" == "-m") with true. cbv iota.
    cbn [negb Z.add Z.ltb Z.compare Pos.compare].
    rewrite Hstoi. reflexivity.
  - intros rest w. reflexivity.
Qed.

End GrepLimitTheorem.

(** *** Handlers that always return *)

Section Totality.

Context {W : Type} {os : OS W} {R : Type} {rx : RegexLib R}.

Lemma help_returns : forall args, yields returned (helpCommand_body (W := W) args).
Proof. chan. Qed.

Lemma echo_returns : forall args, yields returned (echoCommand_body (W := W) args).
Proof. chan. Qed.

Lemma pause_returns : forall args, yields returned (pauseCommand_body args).
Proof. chan. Qed.

Lemma ls_returns : forall args, yields returned (lsCommand_body args).
Proof. chan. Qed.

Lemma touch_returns : forall args, yields returned (touchCommand_body args).
Proof. chan. Qed.

Lemma cp_returns : forall args, yields returned (cpCommand_body args).
Proof. chan. Qed.

Lemma chown_returns : forall args, yields returned (chownCommand_body args).
Proof. chan. Qed.

Lemma clr_returns : forall args, yields returned (clrCommand_body (W := W) args).
Proof. chan. Qed.

Lemma pwd_returns : forall args, yields returned (pwdCommand_body args).
Proof. chan. Qed.

Lemma environ_returns : forall args, yields returned (environCommand_body args).
Proof. chan. Qed.

Lemma cat_returns : forall args, yields returned (catCommand_body args).
Proof. chan. Qed.

Lemma wc_returns : forall args, yields returned (wcCommand_body args).
Proof. chan. Qed.

Lemma chmod_returns : forall args, yields returned (chmodCommand_body args).
Proof. chan. Qed.

Lemma mkdir_p_loop_returns :
  forall rest partial, exits returned (mkdir_p_loop rest partial).
Proof.
  induction rest as [|c rest IH]; intros partial; cbn [mkdir_p_loop].
  - chan.
  - chan; apply IH.
Qed.

Lemma mkdir_returns : forall args, yields returned (mkdirCommand_body args).
Proof.
  intros args. unfold mkdirCommand_body.
  destruct args as [|a rest]; [chan|].
  destruct (mkdir_flags (a :: rest) false) as [r|[recurse paths]].
  - chan.
  - destruct paths; chan; apply mkdir_p_loop_returns.
Qed.

Lemma rmdir_p_loop_returns :
  forall fuel path,
    (String.length path < fuel)%nat -> yields returned (rmdir_p_loop fuel path).
Proof.
  induction fuel as [|fuel IH]; intros path Hlen; [lia|].
  cbn [rmdir_p_loop].
  destruct (Str.empty path); [chan|].
  apply yields_bind; [apply exits_call|].
  intros [e|]; [chan|].
  destruct (Str.find_last_of is_slash path) as [pos|] eqn:Hf; [|chan].
  destruct ((Str.take pos path == "") || (Str.take pos path == "/")); [chan|].
  apply IH.
  assert (Hq : cut_last_slash path = Some (Str.take pos path))
    by (unfold cut_last_slash; rewrite Hf; reflexivity).
  apply cut_last_slash_shorter in Hq. lia.
Qed.

Lemma rmdir_returns : forall args, yields returned (rmdirCommand_body args).
Proof.
  intros args. unfold rmdirCommand_body.
  destruct args as [|a [|b [|c rest]]]; chan.
  apply rmdir_p_loop_returns. lia.
Qed.

Lemma yields_returned_run :
  forall (m : M W CommandResult) w,
    yields returned m -> exists r w', run m w = (Ret r, w').
Proof.
  intros m w H. unfold run. specialize (H w).
  destruct (m w) as [[r|o] w'].
  - exists r, w'. reflexivity.
  - destruct o; try contradiction. exists r, w'. reflexivity.
Qed.

(** Apart from [cd], [grep], [quit], [rm] and [mv], every handler returns a
    result on every argument list and in every world. *)
Lemma handlers_return :
  forall (fuel : nat) (c : command) (args : list string) (w : W),
    always_returns c = true ->
    exists r w', handler_of (R := R) fuel c args w = (Ret r, w').
Proof.
  intros fuel c args w H.
  destruct c; try discriminate H; cbn [handler_of]; apply yields_returned_run.
  - apply help_returns.
  - apply echo_returns.
  - apply pause_returns.
  - apply ls_returns.
  - apply ls_returns.
  - apply rmdir_returns.
  - apply touch_returns.
  - apply cp_returns.
  - apply chown_returns.
  - apply clr_returns.
  - apply pwd_returns.
  - apply environ_returns.
  - apply cat_returns.
  - apply wc_returns.
  - apply mkdir_returns.
  - apply chmod_returns.
Qed.

End Totality.

(** *** mkdir -p on the in-memory file system *)

Module MemFacts.

Import Mem MemSpec.

Lemma path_eqb_eq : forall p q, path_eqb p q = true <-> p = q.
Proof.
  induction p as [|a p IH]; intros [|b q]; simpl; split; intros H;
    try reflexivity; try discriminate.
  - apply andb_true_iff in H. destruct H as [H1 H2].
    apply String.eqb_eq in H1. apply IH in H2. subst. reflexivity.
  - inversion H; subst. apply andb_true_iff. split.
    + apply String.eqb_refl.
    + apply IH. reflexivity.
Qed.

Lemma path_eqb_refl : forall p, path_eqb p p = true.
Proof. intros p. apply path_eqb_eq. reflexivity. Qed.

Lemma lookup_store_other :
  forall fs q n p, p <> q -> lookup (store fs q n) p = lookup fs p.
Proof.
  induction fs as [|[q' m] fs IH]; intros q n p Hne; simpl.
  - destruct (path_eqb q p) eqn:H; [|reflexivity].
    apply path_eqb_eq in H. subst. contradiction.
  - destruct (path_eqb q' q) eqn:Hq; simpl.
    + apply path_eqb_eq in Hq. subst q'.
      destruct (path_eqb q p) eqn:H; [|reflexivity].
      apply path_eqb_eq in H. subst. contradiction.
    + rewrite IH by exact Hne. reflexivity.
Qed.

Lemma lookup_store_same :
  forall fs q n, lookup (store fs q n) q = Some n.
Proof.
  induction fs as [|[q' m] fs IH]; intros q n; simpl.
  - rewrite path_eqb_refl. reflexivity.
  - destruct (path_eqb q' q) eqn:Hq; simpl.
    + rewrite path_eqb_refl. reflexivity.
    + rewrite Hq. apply IH.
Qed.

Lemma extends_refl : forall fs, extends fs fs.
Proof. intros fs p n H. exact H. Qed.

Lemma extends_store :
  forall fs q n, lookup fs q = None -> extends fs (store fs q n).
Proof.
  intros fs q n Hq p x Hp.
  rewrite lookup_store_other; [exact Hp|].
  intros Heq. subst. rewrite Hq in Hp. discriminate.
Qed.

Lemma grows_refl : forall w, grows w w.
Proof. intros w. split; [reflexivity | apply extends_refl]. Qed.

Lemma grows_trans : forall w1 w2 w3, grows w1 w2 -> grows w2 w3 -> grows w1 w3.
Proof.
  intros w1 w2 w3 [Hc1 He1] [Hc2 He2]. split.
  - rewrite Hc2. exact Hc1.
  - intros p n H. apply He2, He1, H.
Qed.

Lemma walk_extends :
  forall fs fs' comps cur q,
    extends fs fs' -> walk fs cur comps = inr q -> walk fs' cur comps = inr q.
Proof.
  intros fs fs' comps. induction comps as [|c rest IH]; intros cur q Hext H; simpl in *.
  - exact H.
  - destruct (lookup fs cur) as [n|] eqn:Hl; [|discriminate].
    rewrite (Hext _ _ Hl).
    destruct (is_directory n); [|discriminate].
    apply IH; assumption.
Qed.

Lemma present_grows :
  forall w w' p, grows w w' -> present w p = true -> present w' p = true.
Proof.
  intros w w' p [Hcwd Hext] H. unfold present, resolve_entry, start in *.
  rewrite Hcwd.
  destruct (Str.empty p); [discriminate|].
  destruct (walk (files w) _ _) as [e|q] eqn:Hw; [discriminate|].
  rewrite (walk_extends _ _ Hext Hw).
  destruct (lookup (files w) q) as [n|] eqn:Hl; [|discriminate].
  rewrite (Hext _ _ Hl). reflexivity.
Qed.

Lemma grows_set_errno : forall w e, grows w (set_errno w e).
Proof. intros w e. split; [reflexivity | apply extends_refl]. Qed.

(** What [mkdir] does to the tree, whatever it returns. *)
Lemma mkdir_grows :
  forall p mode w r w', mkdir p mode w = (r, w') -> grows w w'.
Proof.
  intros p mode w r w' H. unfold mkdir, fail_with in H.
  destruct (resolve_entry w p) as [e|q].
  - inversion H; subst. apply grows_set_errno.
  - destruct (lookup (files w) q) eqn:Hl.
    + inversion H; subst. apply grows_set_errno.
    + destruct (parent_writable (files w) q); inversion H; subst.
      * split; [reflexivity | apply extends_store, Hl].
      * apply grows_set_errno.
Qed.

(** After a [mkdir] that succeeded or found the name taken, the name exists. *)
Lemma mkdir_present :
  forall p mode w r w',
    mkdir p mode w = (r, w') ->
    r = None \/ r = Some EEXIST ->
    present w' p = true.
Proof.
  intros p mode w r w' H Hr. unfold mkdir, fail_with in H.
  unfold present, resolve_entry in *.
  destruct (Str.empty p).
  - inversion H; subst. destruct Hr as [Hr|Hr]; discriminate Hr.
  - destruct (walk (files w) (start w p) (trim (components p))) as [e|q] eqn:Hw.
    + inversion H; subst. clear H.
      destruct Hr as [Hr|Hr]; [discriminate Hr|].
      exfalso. inversion Hr as [He]. clear Hr.
      revert Hw He. generalize (start w p). generalize (trim (components p)).
      induction l as [|c l IH]; intros cur Hw He; simpl in Hw; [discriminate|].
      destruct (lookup (files w) cur) as [n|].
      * destruct (is_directory n); [eapply IH; eassumption|].
        inversion Hw; subst. discriminate.
      * inversion Hw; subst. discriminate.
    + destruct (lookup (files w) q) as [n|] eqn:Hl.
      * inversion H; subst. cbn [files set_errno cwd].
        change (start (set_errno w EEXIST) p) with (start w p).
        rewrite Hw, Hl. reflexivity.
      * destruct (parent_writable (files w) q).
        -- inversion H; subst. cbn [files set_files].
           change (start (set_files w ?fs) p) with (start w p).
           rewrite (walk_extends _ _ (extends_store _ _ _ Hl) Hw).
           rewrite lookup_store_same. reflexivity.
        -- inversion H; subst. destruct Hr as [Hr|Hr]; discriminate Hr.
Qed.

(** On a name that exists, [mkdir] fails with [EEXIST] and leaves the tree
    alone. *)
Lemma mkdir_exists :
  forall p mode w,
    present w p = true -> mkdir p mode w = (Some EEXIST, set_errno w EEXIST).
Proof.
  intros p mode w H. unfold present, mkdir in *.
  destruct (resolve_entry w p) as [e|q]; [discriminate|].
  destruct (lookup (files w) q); [reflexivity | discriminate].
Qed.

End MemFacts.

Lemma errno_eqb_eq : forall a b, errno_eqb a b = true -> a = b.
Proof.
  intros a b H. destruct a, b; try reflexivity; try discriminate H.
  simpl in H. apply Z.eqb_eq in H. subst. reflexivity.
Qed.

Section MkdirExits.

Context {W : Type} {os : OS W}.

(** The [-p] loops leave the handler only with a failure. *)
Lemma mkdir_p_loop_fails :
  forall rest partial (w w' : W) o,
    mkdir_p_loop rest partial w = (Done o, w') -> exists msg, o = Ret (failure msg).
Proof.
  induction rest as [|c rest IH]; intros partial w w' o H; cbn [mkdir_p_loop] in H.
  - discriminate.
  - destruct (negb (Ascii.eqb c Str.slash) && negb (Str.empty rest));
      [eapply IH; eassumption|].
    destruct ((partial ++ Str.of_char c == "/") || (partial ++ Str.of_char c == "//"));
      [eapply IH; eassumption|].
    revert H. mred.
    destruct (sys_mkdir (partial ++ Str.of_char c) 493 w) as [[e|] w1].
    + destruct (negb (errno_eqb e EEXIST)).
      * intros H. inversion H. eexists. reflexivity.
      * intros H. eapply IH; eassumption.
    + intros H. eapply IH; eassumption.
Qed.

Lemma mkdir_paths_fail :
  forall paths (w w' : W) o,
    for_each (mkdir_path true) paths tt w = (Done o, w') ->
    exists msg, o = Ret (failure msg).
Proof.
  induction paths as [|p rest IH]; intros w w' o H; cbn [for_each] in H.
  - discriminate.
  - unfold bind in H. unfold mkdir_path at 1 in H. cbn [negb] in H.
    destruct (mkdir_p_loop p "" w) as [[[]|o1] w1] eqn:Hl.
    + eapply IH; eassumption.
    + inversion H; subst. eapply mkdir_p_loop_fails; eassumption.
Qed.

Lemma mkdir_flags_fail :
  forall args recurse r, mkdir_flags args recurse = inl r -> status r = 1.
Proof.
  induction args as [|a rest IH]; intros recurse r H; cbn [mkdir_flags] in H.
  - discriminate.
  - destruct (Ascii.eqb (Str.front a) "-"); [|discriminate].
    destruct (a == "-p"); [eapply IH; eassumption|].
    inversion H. reflexivity.
Qed.

Lemma mkdir_flags_recurse :
  forall args recurse paths,
    mkdir_flags args true = inr (recurse, paths) -> recurse = true.
Proof.
  induction args as [|a rest IH]; intros recurse paths H; cbn [mkdir_flags] in H.
  - inversion H. reflexivity.
  - destruct (Ascii.eqb (Str.front a) "-").
    + destruct (a == "-p"); [eapply IH; eassumption | discriminate].
    + inversion H. reflexivity.
Qed.

End MkdirExits.

(** What makes [mkdir -p] idempotent, for any operating system: the tree
    only grows under [mkdir]; a name that [mkdir] created or found taken
    exists afterwards and keeps existing while the tree grows; and [mkdir] on
    an existing name fails with [EEXIST] without touching the tree. *)
Section MkdirLaws.

Context {W : Type} {os : OS W}.

Variable grows : W -> W -> Prop.
Variable same_tree : W -> W -> Prop.
Variable present : W -> string -> bool.

Hypothesis grows_refl : forall w, grows w w.
Hypothesis grows_trans : forall w1 w2 w3, grows w1 w2 -> grows w2 w3 -> grows w1 w3.
Hypothesis same_tree_refl : forall w, same_tree w w.
Hypothesis same_tree_trans :
  forall w1 w2 w3, same_tree w1 w2 -> same_tree w2 w3 -> same_tree w1 w3.
Hypothesis same_tree_grows : forall w w', same_tree w w' -> grows w w'.
Hypothesis mkdir_grows :
  forall p mode w r w', sys_mkdir p mode w = (r, w') -> grows w w'.
Hypothesis mkdir_present :
  forall p mode w r w',
    sys_mkdir p mode w = (r, w') -> r = None \/ r = Some EEXIST -> present w' p = true.
Hypothesis present_grows :
  forall w w' p, grows w w' -> present w p = true -> present w' p = true.
Hypothesis mkdir_exists :
  forall p mode w,
    present w p = true ->
    exists w', sys_mkdir p mode w = (Some EEXIST, w') /\ same_tree w w'.

(** A first run that completes leaves every prefix it went through in place. *)
Lemma mkdir_p_loop_first :
  forall rest partial w w',
    mkdir_p_loop rest partial w = (Next tt, w') ->
    grows w w' /\ forallb (present w') (mkdir_p_targets rest partial) = true.
Proof.
  induction rest as [|c rest IH]; intros partial w w' H;
    cbn [mkdir_p_loop mkdir_p_targets] in *.
  - inversion H; subst. split; [apply grows_refl | reflexivity].
  - destruct (negb (Ascii.eqb c Str.slash) && negb (Str.empty rest));
      [apply IH, H|].
    destruct ((partial ++ Str.of_char c == "/") || (partial ++ Str.of_char c == "//"));
      [apply IH, H|].
    revert H. mred.
    destruct (sys_mkdir (partial ++ Str.of_char c) 493 w) as [r w1] eqn:Hm.
    assert (Hgo : r = None \/ r = Some EEXIST ->
                  mkdir_p_loop rest (partial ++ Str.of_char c) w1 = (Next tt, w') ->
                  grows w w'
                  /\ forallb (present w')
                       (String.append partial (Str.of_char c)
                        :: mkdir_p_targets rest (String.append partial (Str.of_char c)))
                     = true).
    { intros Hr Hloop. destruct (IH _ _ _ Hloop) as [Hg Hp].
      split.
      - eapply grows_trans; [eapply mkdir_grows; eassumption | exact Hg].
      - cbn [forallb]. rewrite Hp.
        rewrite (present_grows Hg (mkdir_present _ _ _ Hm Hr)). reflexivity. }
    destruct r as [e|].
    + destruct (negb (errno_eqb e EEXIST)) eqn:He; [discriminate|].
      apply negb_false_iff, errno_eqb_eq in He. subst e.
      apply Hgo. right; reflexivity.
    + apply Hgo. left; reflexivity.
Qed.

(** A run over prefixes that all exist changes nothing in the tree. *)
Lemma mkdir_p_loop_second :
  forall rest partial w,
    forallb (present w) (mkdir_p_targets rest partial) = true ->
    exists w', mkdir_p_loop rest partial w = (Next tt, w') /\ same_tree w w'.
Proof.
  induction rest as [|c rest IH]; intros partial w H;
    cbn [mkdir_p_loop mkdir_p_targets] in *.
  - exists w. split; [reflexivity | apply same_tree_refl].
  - destruct (negb (Ascii.eqb c Str.slash) && negb (Str.empty rest));
      [apply IH, H|].
    destruct ((partial ++ Str.of_char c == "/") || (partial ++ Str.of_char c == "//"));
      [apply IH, H|].
    cbn [forallb] in H. apply andb_true_iff in H. destruct H as [Hp Hrest].
    mred.
    destruct (mkdir_exists 493 Hp) as [w1 [Hm Hs]].
    rewrite Hm. cbn [errno_eqb negb].
    destruct (IH (partial ++ Str.of_char c) w1) as [w' [Hl Hs']].
    { rewrite forallb_forall in *. intros x Hx.
      apply (present_grows (same_tree_grows Hs)). apply Hrest, Hx. }
    exists w'. split; [exact Hl | eapply same_tree_trans; eassumption].
Qed.

Lemma mkdir_paths_first :
  forall paths w w',
    for_each (mkdir_path true) paths tt w = (Next tt, w') ->
    grows w w'
    /\ forallb (present w') (flat_map (fun p => mkdir_p_targets p "") paths) = true.
Proof.
  induction paths as [|p rest IH]; intros w w' H; cbn [for_each] in H.
  - inversion H; subst. split; [apply grows_refl | reflexivity].
  - unfold bind in H. unfold mkdir_path at 1 in H. cbn [negb] in H.
    destruct (mkdir_p_loop p "" w) as [[[]|o1] w1] eqn:Hl; [|discriminate].
    destruct (mkdir_p_loop_first _ _ _ Hl) as [Hg1 Hp1].
    destruct (IH _ _ H) as [Hg2 Hp2].
    split; [eapply grows_trans; eassumption|].
    cbn [flat_map]. rewrite forallb_app, Hp2.
    rewrite andb_true_r. rewrite forallb_forall in *.
    intros x Hx. apply (present_grows Hg2). apply Hp1, Hx.
Qed.

Lemma mkdir_paths_second :
  forall paths w,
    forallb (present w) (flat_map (fun p => mkdir_p_targets p "") paths) = true ->
    exists w', for_each (mkdir_path true) paths tt w = (Next tt, w') /\ same_tree w w'.
Proof.
  induction paths as [|p rest IH]; intros w H; cbn [for_each].
  - exists w. split; [reflexivity | apply same_tree_refl].
  - cbn [flat_map] in H. rewrite forallb_app in H.
    apply andb_true_iff in H. destruct H as [Hp Hrest].
    destruct (mkdir_p_loop_second _ _ _ Hp) as [w1 [Hl Hs1]].
    unfold bind. unfold mkdir_path at 1. cbn [negb]. rewrite Hl.
    destruct (IH w1) as [w2 [Hl2 Hs2]].
    { rewrite forallb_forall in *. intros x Hx.
      apply (present_grows (same_tree_grows Hs1)). apply Hrest, Hx. }
    exists w2. split; [exact Hl2 | eapply same_tree_trans; eassumption].
Qed.

(** Under these laws a second [mkdir -p] succeeds and keeps the tree. *)
Lemma mkdir_p_twice :
  forall (paths : list string) (w w1 : W) (r : CommandResult),
    mkdirCommand ("-p" :: paths) w = (Ret r, w1) ->
    status r = 0 ->
    exists w2,
      mkdirCommand ("-p" :: paths) w1 = (Ret (mkResult 0 "" ""), w2)
      /\ same_tree w1 w2.
Proof.
  intros paths w w1 r Hrun Hstatus.
  unfold mkdirCommand, mkdirCommand_body in *.
  change (mkdir_flags ("-p" :: paths) false) with (mkdir_flags paths true) in *.
  destruct (mkdir_flags paths true) as [err|[recurse ps]] eqn:Hflags.
  - inversion Hrun; subst. rewrite (mkdir_flags_fail _ _ Hflags) in Hstatus.
    discriminate.
  - destruct ps as [|p ps]; [inversion Hrun; subst; discriminate|].
    rewrite (mkdir_flags_recurse _ Hflags) in *.
    unfold run, bind in Hrun.
    destruct (for_each (mkdir_path true) (p :: ps) tt w) as [[[]|o] w'] eqn:Hfirst.
    + inversion Hrun; subst. clear Hrun.
      destruct (mkdir_paths_first _ _ Hfirst) as [_ Hpresent].
      destruct (mkdir_paths_second _ _ Hpresent) as [w2 [Hsecond Hsame]].
      exists w2. unfold run, bind. rewrite Hsecond. split; [reflexivity | exact Hsame].
    + inversion Hrun; subst.
      destruct (mkdir_paths_fail _ _ Hfirst) as [msg Hmsg].
      inversion Hmsg; subst. discriminate.
Qed.

End MkdirLaws.

Module MkdirTwice.

Import Mem MemSpec MemFacts.

Lemma same_tree_refl : forall w, same_tree w w.
Proof. intros w. split; reflexivity. Qed.

Lemma same_tree_trans :
  forall w1 w2 w3, same_tree w1 w2 -> same_tree w2 w3 -> same_tree w1 w3.
Proof. intros w1 w2 w3 [F1 C1] [F2 C2]. split; congruence. Qed.

Lemma same_tree_grows : forall w w', same_tree w w' -> grows w w'.
Proof.
  intros w w' [F C]. split; [exact C | rewrite F; apply extends_refl].
Qed.

Lemma mkdir_exists_same_tree :
  forall p mode w,
    present w p = true ->
    exists w', mkdir p mode w = (Some EEXIST, w') /\ same_tree w w'.
Proof.
  intros p mode w H. exists (set_errno w EEXIST).
  split; [apply mkdir_exists, H | split; reflexivity].
Qed.

(** C3.  When [mkdir -p] has succeeded on its paths, running it again on the
    same paths succeeds too and leaves the directory tree as the first run
    left it: nothing is created and no node is modified. *)
Theorem mkdir_p_idempotent :
  forall (paths : list string) (w w1 : world) (r : CommandResult),
    mkdirCommand ("-p" :: paths) w = (Ret r, w1) ->
    status r = 0 ->
    exists w2,
      mkdirCommand ("-p" :: paths) w1 = (Ret (mkResult 0 "" ""), w2)
      /\ files w2 = files w1.
Proof.
  intros paths w w1 r Hrun Hstatus.
  destruct (mkdir_p_twice (os := Mem.os) grows same_tree present
              grows_refl grows_trans same_tree_refl same_tree_trans same_tree_grows
              mkdir_grows mkdir_present present_grows mkdir_exists_same_tree
              paths w Hrun Hstatus) as [w2 [Hsecond [Hfiles _]]].
  exists w2. split; assumption.
Qed.

End MkdirTwice.

(** ** Runs on the sample world *)

Lemma cp_many_sources_need_directory_witness :
  (3 <= length ["f.txt"; "g.txt"; "nodir"])%nat
  /\ cpCommand ["f.txt"; "g.txt"; "nodir"] Sample.w0
     = (Ret (mkResult 1 "" "cp: target 'nodir' is not a directory"), Sample.w0).
Proof.
  split.
  - simpl; lia.
  - apply (cp_many_sources_need_directory ["f.txt"; "g.txt"; "nodir"] Sample.w0).
    + simpl; lia.
    + reflexivity.
Defined.

Lemma mv_exdev_copy_then_unlink_witness :
  exists w' : Mem.world,
    mvCommand ["/ro/x"; "/mnt/y"] Sample.w0
    = (Ret (mkResult 1 "" "mv: copied but failed to remove original '/ro/x'"), w')
    /\ Mem.lookup (Mem.files w') ["x"; "ro"] = Some (Sample.reg "data")
    /\ option_map Mem.n_kind (Mem.lookup (Mem.files w') ["y"; "mnt"])
       = Some (Mem.Regular "data").
Proof.
  eexists. split.
  - refine (proj1 (@mv_exdev_copy_then_unlink _ _ "/ro/x" "/mnt/y" _ Sample.w0
                     _ _ _ _ _ _ _ _ _ _ (Some EACCES) _ _ _ _ _ _ _)).
    + reflexivity.
    + reflexivity.
    + reflexivity.
    + reflexivity.
    + reflexivity.
    + reflexivity.
    + reflexivity.
  - split; reflexivity.
Defined.

Lemma handlers_keep_one_channel_witness :
  (status (mkResult 1 "" "") = 0 -> error (mkResult 1 "" "") = "")
  /\ (status (mkResult 1 "" "") = 1 -> output (mkResult 1 "" "") = "").
Proof.
  apply (@handlers_keep_one_channel _ _ _ Mem.regex 0%nat CmdGrep
           ["zzz"; "f.txt"] Sample.w0 Sample.w0).
  reflexivity.
Defined.

(** C7.  [chmod 7z f.txt]: the token [7z] is not octal text, yet [std::stoi]
    reads its leading digit, the handler reports success and the file's
    permission bits become 7. *)
Theorem chmod_accepts_trailing_garbage :
  Stoi.stoi "7z" 8 = StoiOk 7
  /\ exists w' : Mem.world,
      chmodCommand ["7z"; "f.txt"] Sample.w0 = (Ret (mkResult 0 "" ""), w')
      /\ option_map Mem.n_mode (Mem.lookup (Mem.files w') ["f.txt"; "u"; "home"])
         = Some 7.
Proof.
  split; [reflexivity|].
  eexists. split; reflexivity.
Qed.



Example wc_trailing_newline :
  wcCommand ["-l"; "g.txt"] Sample.w0 = (Ret (mkResult 0 "2 g.txt" ""), Sample.w0).
Proof. reflexivity. Qed.

Lemma mkdir_p_idempotent_witness :
  exists w2,
    mkdirCommand ["-p"; "a/b/c"] Sample.w1 = (Ret (mkResult 0 "" ""), w2)
    /\ Mem.files w2 = Mem.files Sample.w1.
Proof.
  apply (MkdirTwice.mkdir_p_idempotent ["a/b/c"] Sample.w0 (r := mkResult 0 "" "")).
  - reflexivity.
  - reflexivity.
Defined.

Lemma rmdir_p_walks_upward_witness :
  "a/b/c//" <> ""
  /\ rmdirCommand ["-p"; "a/b/c//"] Sample.w1
     = rmdir_each ["a/b/c"; "a/b"; "a"] Sample.w1.
Proof.
  assert (H : "a/b/c//" <> "") by discriminate.
  split; [exact H|].
  pose proof (rmdir_p_walks_upward Sample.w1 H) as Hw. cbv zeta in Hw.
  exact (proj1 (proj2 (proj2 Hw))).
Defined.

Example rmdir_p_removes_the_chain :
  fst (rmdirCommand ["-p"; "a/b/c//"] Sample.w1) = Ret (mkResult 0 "" "")
  /\ Mem.files (snd (rmdirCommand ["-p"; "a/b/c//"] Sample.w1)) = Mem.files Sample.w0.
Proof. split; reflexivity. Qed.

Example rmdir_p_stops_at_first_failure :
  fst (rmdirCommand ["-p"; "/home/u/a/b/c"] Sample.w1)
  = Ret (mkResult 1 "" "rmdir: failed to remove '/home/u': directory not empty").
Proof. reflexivity. Qed.

(** Trailing slashes are removed once, before the walk: a doubled slash
    inside the path makes the walk visit the same directory twice. *)
Example rmdir_p_doubled_slash :
  fst (rmdirCommand ["-p"; "a//b"] Sample.w2)
  = Ret (mkResult 1 "" "rmdir: failed to remove 'a': no such file or directory")
  /\ Mem.files (snd (rmdirCommand ["-p"; "a//b"] Sample.w2)) = Mem.files Sample.w0.
Proof. split; reflexivity. Qed.

Lemma grep_no_match_is_silent_witness :
  grepCommand ["zzz"; "f.txt"; "g.txt"] Sample.w0 = (Ret (mkResult 1 "" ""), Sample.w0).
Proof.
  apply (@grep_no_match_is_silent _ _ _ Mem.regex ["zzz"; "f.txt"; "g.txt"]
           Sample.w0 Sample.w0 grep_defaults "zzz" "f.txt" ["g.txt"]
           [Sample.f_text; Sample.g_text] (Mem.mkLiteral "zzz" false false false)).
  - reflexivity.
  - reflexivity.
  - reflexivity.
  - reflexivity.
  - reflexivity.
Defined.

Lemma grep_limit_first_matches_witness :
  fst (grepCommand ["-m"; "2"; "foo"; "f.txt"] Sample.w0)
  = Ret (mkResult 0 ("foo one" ++ LF ++ "foo two") "").
Proof.
  apply (proj1 (@grep_limit_first_matches _ _ _ Mem.regex)
           "2" "foo" "f.txt" [] [Sample.f_text] 2
           (Mem.mkLiteral "foo" false false false) Sample.w0 Sample.w0).
  - reflexivity.
  - lia.
  - reflexivity.
  - reflexivity.
  - reflexivity.
  - reflexivity.
  - vm_compute. reflexivity.
Defined.

Example grep_limit_two_files :
  fst (grepCommand ["-m"; "3"; "a"; "f.txt"; "g.txt"] Sample.w0)
  = Ret (mkResult 0 ("f.txt:bar" ++ LF ++ "g.txt:alpha" ++ LF ++ "g.txt:beta") "").
Proof. reflexivity. Qed.

(** C1, as stated, fails: with three matching lines, [-m 2] together with
    [-c] does not report the count 2; in either order the second flag is
    refused. *)
Lemma grep_limit_with_count_refused :
  2 < Z.of_nat (length (matching_lines (Mem.mkLiteral "foo" false false false) false
                                       ["f.txt"] [Sample.f_text]))
  /\ grepCommand ["-m"; "2"; "-c"; "foo"; "f.txt"] Sample.w0
     = (Ret (mkResult 1 "" "grep: only one flag can be used at a time"), Sample.w0)
  /\ grepCommand ["-c"; "-m"; "2"; "foo"; "f.txt"] Sample.w0
     = (Ret (mkResult 1 "" "grep: only one flag can be used at a time"), Sample.w0)
  /\ fst (grepCommand ["-m"; "2"; "-c"; "foo"; "f.txt"] Sample.w0)
     <> Ret (mkResult 0 "2" "")
  /\ fst (grepCommand ["-c"; "-m"; "2"; "foo"; "f.txt"] Sample.w0)
     <> Ret (mkResult 0 "2" "").
Proof.
  repeat split; try reflexivity; intros H; discriminate H.
Qed.

(** ** Further properties of the handlers *)

(** *** Text helpers *)

Lemma fold_left_append :
  forall (A : Type) (f : A -> string) (l : list A) (acc : string),
    fold_left (fun out x => out ++ f x) l acc = acc ++ Str.cat (map f l).
Proof.
  intros A f l. induction l as [|x l IH]; intros acc; simpl.
  - rewrite sapp_nil_r. reflexivity.
  - rewrite IH, sapp_assoc. reflexivity.
Qed.

Lemma fold_left_append_chunks :
  forall (l : list string) (acc : string),
    fold_left append l acc = acc ++ Str.cat l.
Proof.
  induction l as [|x l IH]; intros acc; simpl.
  - rewrite sapp_nil_r. reflexivity.
  - rewrite IH, sapp_assoc. reflexivity.
Qed.

Lemma stripTrailingNewline_unlines :
  forall l, stripTrailingNewline (unlines l) = Str.join LF l.
Proof.
  intros l. destruct l as [|x l] using rev_ind.
  - reflexivity.
  - rewrite unlines_snoc, join_snoc, <- sapp_assoc.
    apply stripTrailingNewline_line.
Qed.

(** X1.  [stripTrailingNewline] removes one newline from the end of a text
    and no more, and leaves a text that does not end in a newline as it is. *)
Theorem stripTrailingNewline_one_newline :
  forall s,
    stripTrailingNewline (s ++ LF) = s
    /\ (Str.ends_with Str.nl s = false -> stripTrailingNewline s = s).
Proof.
  intros s. split.
  - apply stripTrailingNewline_line.
  - intros H. unfold stripTrailingNewline. rewrite H.
    rewrite andb_false_r. reflexivity.
Qed.

Section TextHandlers.

Context {W : Type} {os : OS W}.

(** X2.  [echo] never fails and touches nothing: its output is every
    argument followed by one space, the last one included. *)
Theorem echo_appends_space_to_each :
  forall (args : list string) (w : W),
    echoCommand args w
    = (Ret (mkResult 0 (Str.cat (map (fun arg => arg ++ " ") args)) ""), w).
Proof.
  intros args w. unfold echoCommand, echoCommand_body, run, ret, ok.
  rewrite (fold_left_append (fun arg => arg ++ " ") args ""). reflexivity.
Qed.

(** X3.  [environ] without argument prints the entries of the environment in
    the order the system gives them, one per line, without a final newline. *)
Theorem environ_lists_entries :
  forall (w : W),
    environCommand [] w = (Ret (mkResult 0 (Str.join LF (sys_environ w)) ""), w).
Proof.
  intros w. unfold environCommand, environCommand_body. mred.
  rewrite (fold_left_append (fun e => e ++ LF) (sys_environ w) "").
  cbn [append]. fold (unlines (sys_environ w)).
  rewrite stripTrailingNewline_unlines. reflexivity.
Qed.

Lemma cat_files_loop :
  forall files sofar w,
    for_each cat_file files (unlines sofar) w
    = match cat_files files w with
      | (CatAll contents, w') => (Next (unlines (sofar ++ contents)), w')
      | (CatOpenFailed file e, w') =>
          (Done (Ret (failure ("cat: cannot open " ++ file ++ ": " ++ strerror e))), w')
      | (CatReadFailed file e, w') =>
          (Done (Ret (failure ("cat: error reading " ++ file ++ ": " ++ strerror e))), w')
      end.
Proof.
  induction files as [|file rest IH]; intros sofar w; cbn [for_each cat_files].
  - rewrite app_nil_r. reflexivity.
  - unfold bind. unfold cat_file at 1. mred.
    destruct (sys_open file O_RDONLY 0 w) as [[e|f] w1]; [reflexivity|].
    mred. destruct (sys_read_chunks f 4096 w1) as [[chunks rd] w2]. cbn [fst snd].
    destruct rd as [e|]; [reflexivity|].
    mred. rewrite fold_left_append_chunks.
    replace ((unlines sofar ++ Str.cat chunks) ++ LF)
      with (unlines (sofar ++ [Str.cat chunks]))
      by (rewrite unlines_snoc, sapp_assoc; reflexivity).
    rewrite IH.
    destruct (cat_files rest (sys_close f w2)) as [[contents|g e|g e] w3];
      try reflexivity.
    rewrite <- app_assoc. reflexivity.
Qed.

(** X4.  [cat] prints the contents of its files in order, joined by
    newlines, however [read] cuts them into buffers; at the first file that
    cannot be opened or read it returns that file's error alone, and what was
    read before is dropped. *)
Theorem cat_joins_contents :
  forall (file : string) (files : list string) (w : W),
    catCommand (file :: files) w
    = match cat_files (file :: files) w with
      | (CatAll contents, w') => (Ret (mkResult 0 (Str.join LF contents) ""), w')
      | (CatOpenFailed f e, w') =>
          (Ret (mkResult 1 "" ("cat: cannot open " ++ f ++ ": " ++ strerror e)), w')
      | (CatReadFailed f e, w') =>
          (Ret (mkResult 1 "" ("cat: error reading " ++ f ++ ": " ++ strerror e)), w')
      end.
Proof.
  intros file files w. unfold catCommand, catCommand_body, run, bind.
  change "" with (unlines []) at 1.
  rewrite (cat_files_loop (file :: files) [] w).
  destruct (cat_files (file :: files) w) as [[contents|g e|g e] w']; try reflexivity.
  cbn [app]. unfold ret, ok. rewrite stripTrailingNewline_unlines. reflexivity.
Qed.

End TextHandlers.

(** *** grep without a limit *)

Section GrepUnlimited.

Context {W : Type} {os : OS W} {R : Type} {rx : RegexLib R}.

Variables (o : grep_opts) (re : R) (multipleFiles : bool).

Hypothesis no_limit : opt_m o = -1.

Lemma number_lines_length :
  forall lines n, length (number_lines n lines) = length lines.
Proof.
  induction lines as [|line rest IH]; intros n; cbn [number_lines length];
    [reflexivity | rewrite IH; reflexivity].
Qed.

Lemma printed_of_file_length :
  forall file content,
    (length (printed_of_file o re multipleFiles file content)
     <= length (file_lines content))%nat.
Proof.
  intros file content. unfold printed_of_file.
  rewrite length_map.
  etransitivity; [apply filter_length_le|].
  rewrite number_lines_length. apply le_n.
Qed.

Lemma grep_line_unlimited :
  forall file line n emitted,
    opt_c o = false ->
    Z.of_nat (length emitted) < INT_MAX ->
    grep_line o re multipleFiles file line n
              (Z.of_nat (length emitted), unlines emitted)
    = inr (if selected o re line
           then (Z.of_nat (length (emitted ++ [printed_line o re multipleFiles file (n, line)])),
                 unlines (emitted ++ [printed_line o re multipleFiles file (n, line)]))
           else (Z.of_nat (length emitted), unlines emitted)).
Proof.
  intros file line n emitted Hc Hlt.
  unfold grep_line, selected, printed_line, line_prefix, line_text.
  rewrite int_incr_below by exact Hlt.
  cbn [fst snd].
  destruct (matchesPattern line re (opt_o o)) as [matched matchedText].
  cbn [fst snd]. rewrite no_limit, Hc, Z.eqb_refl. cbn [negb andb].
  destruct (if opt_v o then negb matched else matched); [|reflexivity].
  rewrite unlines_snoc, length_app. cbn [length].
  f_equal. apply f_equal2; [lia|].
  destruct multipleFiles, (opt_n o), (opt_v o && negb (opt_o o));
    cbn [append]; rewrite ?sapp_assoc; reflexivity.
Qed.

(** The lines of one file, as long as the line number and the counter of
    matches stay within the range of [int]. *)
Lemma grep_lines_unlimited :
  forall file lines n emitted,
    opt_c o = false ->
    n + Z.of_nat (length lines) <= INT_MAX ->
    Z.of_nat (length emitted) + Z.of_nat (length lines) <= INT_MAX ->
    grep_lines o re multipleFiles file lines n
               (Z.of_nat (length emitted), unlines emitted)
    = inr (n + Z.of_nat (length lines),
           (Z.of_nat (length (emitted
              ++ map (printed_line o re multipleFiles file)
                     (filter (fun numbered => selected o re (snd numbered))
                             (number_lines n lines)))),
            unlines (emitted
              ++ map (printed_line o re multipleFiles file)
                     (filter (fun numbered => selected o re (snd numbered))
                             (number_lines n lines))))).
Proof.
  intros file lines. induction lines as [|line rest IH]; intros n emitted Hc Hn Hk.
  - cbn [grep_lines number_lines filter map length Z.of_nat]. rewrite app_nil_r.
    rewrite Z.add_0_r. reflexivity.
  - cbn [grep_lines number_lines filter snd]. cbn [length] in Hn, Hk.
    rewrite (grep_line_unlimited file line n emitted Hc) by lia.
    rewrite int_incr_below by lia.
    destruct (selected o re line).
    + rewrite IH; [| exact Hc | lia | rewrite length_app; cbn [length]; lia].
      cbn [map]. rewrite <- !app_assoc. cbn [app].
      f_equal. apply f_equal2; [cbn [length]; lia | reflexivity].
    + rewrite IH; [| exact Hc | lia | lia].
      f_equal. apply f_equal2; [cbn [length]; lia | reflexivity].
Qed.

Lemma grep_files_unlimited :
  forall files w contents w' emitted,
    opt_c o = false ->
    read_files files w = (Some contents, w') ->
    Z.of_nat (length emitted) + Z.of_nat (length (flat_map file_lines contents))
    < INT_MAX ->
    for_each (grep_file o re multipleFiles) files
             (Z.of_nat (length emitted), unlines emitted) w
    = (Next (Z.of_nat (length (emitted ++ printed_lines o re multipleFiles files contents)),
             unlines (emitted ++ printed_lines o re multipleFiles files contents)), w').
Proof.
  induction files as [|file rest IH]; intros w contents w' emitted Hc Hread Hsmall;
    cbn [read_files for_each] in *.
  - inversion Hread; subst. cbn [printed_lines]. rewrite app_nil_r. reflexivity.
  - destruct (sys_open file O_RDONLY 0 w) as [[e|f] w1] eqn:Hopen; [discriminate|].
    destruct (sys_read_chunks f 1024 w1) as [chunks w2] eqn:Hrd.
    destruct (read_files rest (sys_close f w2)) as [[contents'|] w3] eqn:Hrest;
      [|discriminate].
    inversion Hread; subst. clear Hread.
    cbn [flat_map] in Hsmall. rewrite length_app in Hsmall.
    unfold bind. rewrite (grep_file_lines o re multipleFiles file _ w Hopen Hrd).
    rewrite (grep_lines_unlimited file _ 1 emitted Hc) by lia.
    fold (printed_of_file o re multipleFiles file (Str.cat (fst chunks))).
    pose proof (printed_of_file_length file (Str.cat (fst chunks))) as Hlen.
    rewrite (IH _ contents' w' _ Hc Hrest) by (rewrite length_app; lia).
    cbn [printed_lines]. rewrite <- app_assoc. reflexivity.
Qed.

(** With the count-only flag the accumulator only counts. *)
Lemma grep_lines_count :
  forall file lines n k,
    opt_c o = true ->
    n + Z.of_nat (length lines) <= INT_MAX ->
    k + Z.of_nat (length lines) <= INT_MAX ->
    grep_lines o re multipleFiles file lines n (k, "")
    = inr (n + Z.of_nat (length lines),
           (k + Z.of_nat (length (filter (selected o re) lines)), "")).
Proof.
  intros file lines. induction lines as [|line rest IH]; intros n k Hc Hn Hk.
  - cbn [grep_lines filter length Z.of_nat]. rewrite !Z.add_0_r. reflexivity.
  - cbn [grep_lines filter]. cbn [length] in Hn, Hk.
    assert (Hline : grep_line o re multipleFiles file line n (k, "")
                    = inr (if selected o re line then (k + 1, "") else (k, ""))).
    { unfold grep_line, selected. rewrite int_incr_below by lia.
      destruct (matchesPattern line re (opt_o o)) as [matched matchedText].
      cbn [fst]. rewrite no_limit, Hc, Z.eqb_refl. cbn [negb andb].
      destruct (if opt_v o then negb matched else matched); reflexivity. }
    rewrite Hline. rewrite int_incr_below by lia.
    destruct (selected o re line); (rewrite IH; [| exact Hc | lia | lia]);
      cbn [length]; f_equal; apply f_equal2; try (f_equal; lia); lia.
Qed.

Lemma grep_files_count :
  forall files w contents w' k,
    opt_c o = true ->
    read_files files w = (Some contents, w') ->
    0 <= k ->
    k + Z.of_nat (length (flat_map file_lines contents)) < INT_MAX ->
    for_each (grep_file o re multipleFiles) files (k, "") w
    = (Next (k + Z.of_nat (length (filter (selected o re) (flat_map file_lines contents))),
             ""), w').
Proof.
  induction files as [|file rest IH]; intros w contents w' k Hc Hread Hk Hsmall;
    cbn [read_files for_each] in *.
  - inversion Hread; subst. cbn [flat_map filter length Z.of_nat].
    rewrite Z.add_0_r. reflexivity.
  - destruct (sys_open file O_RDONLY 0 w) as [[e|f] w1] eqn:Hopen; [discriminate|].
    destruct (sys_read_chunks f 1024 w1) as [chunks w2] eqn:Hrd.
    destruct (read_files rest (sys_close f w2)) as [[contents'|] w3] eqn:Hrest;
      [|discriminate].
    inversion Hread; subst. clear Hread.
    cbn [flat_map] in Hsmall. rewrite length_app in Hsmall.
    unfold bind. rewrite (grep_file_lines o re multipleFiles file _ w Hopen Hrd).
    rewrite (grep_lines_count file _ 1 k Hc) by lia.
    pose proof (filter_length_le (selected o re) (file_lines (Str.cat (fst chunks))))
      as Hlen.
    rewrite (IH _ contents' w' _ Hc Hrest) by lia.
    cbn [flat_map]. rewrite filter_app, length_app.
    f_equal. f_equal. f_equal. lia.
Qed.

(** Without a limit the scan of a file never returns early. *)
Lemma grep_lines_no_early_return :
  forall file lines n acc,
    exists n' acc', grep_lines o re multipleFiles file lines n acc = inr (n', acc').
Proof.
  intros file lines. induction lines as [|line rest IH]; intros n acc;
    cbn [grep_lines].
  - exists n, acc. reflexivity.
  - assert (Hline : exists acc',
               grep_line o re multipleFiles file line n acc = inr acc').
    { destruct acc as [k out]. unfold grep_line.
      destruct (matchesPattern line re (opt_o o)) as [matched matchedText].
      rewrite no_limit, Z.eqb_refl. cbn [negb andb].
      destruct (if opt_v o then negb matched else matched);
        [destruct (negb (opt_c o))|]; eexists; reflexivity. }
    destruct Hline as [acc' Hline]. rewrite Hline. apply IH.
Qed.

Lemma grep_files_unopened :
  forall files w acc file,
    first_unopened files w = Some file ->
    exists w',
      for_each (grep_file o re multipleFiles) files acc w
      = (Done (Ret (failure ("grep: cannot open file '" ++ file ++ "'"))), w').
Proof.
  induction files as [|f0 rest IH]; intros w acc file H;
    cbn [first_unopened for_each] in *.
  - discriminate.
  - unfold bind.
    destruct (sys_open f0 O_RDONLY 0 w) as [[e|f] w1] eqn:Hopen.
    + inversion H; subst. exists w1.
      unfold grep_file. mred. rewrite Hopen. reflexivity.
    + destruct (sys_read_chunks f 1024 w1) as [chunks w2] eqn:Hrd.
      rewrite (grep_file_lines o re multipleFiles f0 acc w Hopen Hrd).
      destruct (grep_lines_no_early_return f0 (file_lines (Str.cat (fst chunks))) 1 acc)
        as [n' [acc' Hl]].
      rewrite Hl. apply IH, H.
Qed.

End GrepUnlimited.

Section GrepOutput.

Context {W : Type} {os : OS W} {R : Type} {rx : RegexLib R}.

Lemma grep_enough_arguments :
  forall args o pattern file files,
    grep_flags args 0 grep_defaults = GrepArgs o (pattern :: file :: files) ->
    (length args <? 2)%nat = false.
Proof.
  intros args o pattern file files H.
  apply grep_flags_rest_length in H. cbn [length] in H.
  apply Nat.ltb_ge. lia.
Qed.

(** X5.  Without limit and without the count-only flag, [grep] on a pattern
    that compiles and files that can all be opened and have fewer than
    [INT_MAX] lines together prints the selected lines of the files in order,
    joined by newlines: each after its file's name when several files are
    given and after its line number under [-n], and reduced to the matched
    text under [-o].  With no selected line the result is the silent
    failure.  The bound keeps the line number and the counter of matches,
    both of type [int], from overflowing. *)
Theorem grep_prints_selected_lines :
  forall (args : list string) (w w' : W) (o : grep_opts) (pattern file : string)
         (files contents : list string) (re : R),
    grep_flags args 0 grep_defaults = GrepArgs o (pattern :: file :: files) ->
    opt_c o = false ->
    opt_m o = -1 ->
    regex_compile (if opt_w o then "\b" ++ pattern ++ "\b" else pattern) (opt_i o)
    = Some re ->
    read_files (file :: files) w = (Some contents, w') ->
    Z.of_nat (length (flat_map file_lines contents)) < INT_MAX ->
    grepCommand args w
    = (Ret match printed_lines o re (1 <? length (file :: files))%nat
                               (file :: files) contents with
           | [] => mkResult 1 "" ""
           | line :: lines => mkResult 0 (Str.join LF (line :: lines)) ""
           end, w').
Proof.
  intros args w w' o pattern file files contents re Hflags Hc Hm Hre Hread Hsmall.
  unfold grepCommand, grepCommand_body.
  rewrite (grep_enough_arguments _ Hflags), Hflags, Hre. mred.
  pose proof (@grep_files_unlimited W os R rx o re (1 <? length (file :: files))%nat
                Hm (file :: files) w contents w' [] Hc Hread Hsmall) as H.
  cbn [app] in H. change (unlines []) with "" in H.
  change (Z.of_nat (length (@nil string))) with 0 in H.
  rewrite H. rewrite Hc.
  destruct (printed_lines o re (1 <? length (file :: files))%nat (file :: files) contents)
    as [|line lines].
  - reflexivity.
  - replace (Z.of_nat (length (line :: lines)) =? 0) with false
      by (symmetry; apply Z.eqb_neq; cbn [length]; lia).
    unfold ret, ok. rewrite stripTrailingNewline_unlines. reflexivity.
Qed.

(** X6.  With the count-only flag, [grep] on a pattern that compiles and
    files that can all be opened and have fewer than [INT_MAX] lines together
    returns status 0 and the number of selected lines of all the files
    together, also when that number is zero.  The bound keeps the counter of
    matches and the line number, both of type [int], from overflowing. *)
Theorem grep_counts_selected_lines :
  forall (args : list string) (w w' : W) (o : grep_opts) (pattern file : string)
         (files contents : list string) (re : R),
    grep_flags args 0 grep_defaults = GrepArgs o (pattern :: file :: files) ->
    opt_c o = true ->
    opt_m o = -1 ->
    regex_compile (if opt_w o then "\b" ++ pattern ++ "\b" else pattern) (opt_i o)
    = Some re ->
    read_files (file :: files) w = (Some contents, w') ->
    Z.of_nat (length (flat_map file_lines contents)) < INT_MAX ->
    grepCommand args w
    = (Ret (mkResult 0 (to_string (Z.of_nat (selected_count o re contents))) ""), w').
Proof.
  intros args w w' o pattern file files contents re Hflags Hc Hm Hre Hread Hsmall.
  unfold grepCommand, grepCommand_body.
  rewrite (grep_enough_arguments _ Hflags), Hflags, Hre. mred.
  rewrite (@grep_files_count W os R rx o re (1 <? length (file :: files))%nat
             Hm (file :: files) w contents w' 0 Hc Hread (Z.le_refl 0) Hsmall).
  rewrite Hc. reflexivity.
Qed.

(** X7.  When the text after [-m] is not a number that [std::stoi] accepts,
    [grep] does not return a result: the exception of [std::stoi] leaves the
    handler, before any file is opened. *)
Theorem grep_bad_limit_throws :
  forall (mtext : string) (rest : list string) (w : W),
    Stoi.stoi mtext 10 = StoiInvalidArgument \/ Stoi.stoi mtext 10 = StoiOutOfRange ->
    grepCommand (R := R) ("-m" :: mtext :: rest) w = (Throw "stoi", w).
Proof.
  intros mtext rest w H.
  unfold grepCommand, grepCommand_body.
  change (length ("-m" :: mtext :: rest) <? 2)%nat with false. cbv iota.
  cbn [grep_flags]. change (Ascii.eqb (Str.front "-m") "-") with true.
  change ("-m" == "-i") with false. change ("-m" == "-n") with false.
  change ("-m" == "-v") with false. change ("-m" == "-w") with false.
  change ("-m" == "-c") with false. change ("-m" == "-o") with false.
  change ("-m" == "-m") with true. cbv iota.
  cbn [negb Z.add Z.ltb Z.compare Pos.compare].
  destruct H as [H|H]; rewrite H; reflexivity.
Qed.

(** X8.  Without a limit, when one of the files cannot be opened, [grep]
    returns the error that names the first such file and prints none of the
    lines found in the files before it. *)
Theorem grep_unopened_file_drops_output :
  forall (args : list string) (w : W) (o : grep_opts) (pattern file bad : string)
         (files : list string) (re : R),
    grep_flags args 0 grep_defaults = GrepArgs o (pattern :: file :: files) ->
    opt_m o = -1 ->
    regex_compile (if opt_w o then "\b" ++ pattern ++ "\b" else pattern) (opt_i o)
    = Some re ->
    first_unopened (file :: files) w = Some bad ->
    fst (grepCommand args w)
    = Ret (mkResult 1 "" ("grep: cannot open file '" ++ bad ++ "'")).
Proof.
  intros args w o pattern file bad files re Hflags Hm Hre Hbad.
  unfold grepCommand, grepCommand_body.
  rewrite (grep_enough_arguments _ Hflags), Hflags, Hre. mred.
  destruct (@grep_files_unopened W os R rx o re (1 <? length (file :: files))%nat
              Hm (file :: files) w (0, "") bad Hbad) as [w' H].
  rewrite H. reflexivity.
Qed.

End GrepOutput.

(** *** wc: words and characters *)

Lemma wc_char_words :
  forall st c,
    wc_words (wc_char st c)
    = if wc_space c then wc_words st
      else if negb (inWord st) then size_incr (wc_words st) else wc_words st.
Proof.
  intros st c. unfold wc_char.
  destruct (Ascii.eqb c Str.nl), (wc_space c), (negb (inWord st)); reflexivity.
Qed.

Lemma wc_char_inWord :
  forall st c, inWord (wc_char st c) = negb (wc_space c).
Proof.
  intros st c. unfold wc_char.
  destruct (Ascii.eqb c Str.nl), (wc_space c), (inWord st) eqn:Hw;
    cbn [negb inWord]; try reflexivity; exact Hw.
Qed.

Lemma wc_char_chars :
  forall st c, wc_chars (wc_char st c) = size_incr (wc_chars st).
Proof.
  intros st c. unfold wc_char.
  destruct (Ascii.eqb c Str.nl), (wc_space c), (negb (inWord st)); reflexivity.
Qed.

Lemma wc_char_lines :
  forall st c,
    wc_lines (wc_char st c)
    = if Ascii.eqb c Str.nl then size_incr (wc_lines st) else wc_lines st.
Proof.
  intros st c. unfold wc_char.
  destruct (Ascii.eqb c Str.nl), (wc_space c), (negb (inWord st)); reflexivity.
Qed.

Lemma wc_buffer_in_range :
  forall s st, wc_in_range st -> wc_in_range (wc_buffer s st).
Proof.
  induction s as [|c s IH]; intros st H; cbn [wc_buffer]; [exact H|].
  apply IH. destruct H as [Hl [Hw Hc]]. unfold wc_in_range.
  rewrite wc_char_lines, wc_char_words, wc_char_chars.
  pose proof (size_incr_range (wc_lines st)).
  pose proof (size_incr_range (wc_words st)).
  pose proof (size_incr_range (wc_chars st)).
  destruct (Ascii.eqb c Str.nl), (wc_space c), (negb (inWord st)); repeat split; lia.
Qed.

Lemma wc_buffer_chars :
  forall s st,
    wc_chars (wc_buffer s st) mod SIZE_MODULUS
    = (wc_chars st + Z.of_nat (String.length s)) mod SIZE_MODULUS.
Proof.
  induction s as [|c s IH]; intros st; cbn [wc_buffer String.length].
  - rewrite Z.add_0_r. reflexivity.
  - rewrite IH, wc_char_chars. unfold size_incr.
    rewrite Zplus_mod_idemp_l. f_equal. lia.
Qed.

Lemma empty_app_char : forall cur c, Str.empty (cur ++ Str.of_char c) = false.
Proof. intros cur c. destruct cur; reflexivity. Qed.

Lemma wc_buffer_words :
  forall s st cur,
    inWord st = negb (Str.empty cur) ->
    wc_words (wc_buffer s st) mod SIZE_MODULUS
    = (wc_words st + Z.of_nat (length (words_from s cur))
       - (if inWord st then 1 else 0)) mod SIZE_MODULUS.
Proof.
  induction s as [|c s IH]; intros st cur Hin; cbn [wc_buffer words_from].
  - rewrite Hin. destruct (Str.empty cur); cbn [negb length Z.of_nat];
      f_equal; lia.
  - destruct (wc_space c) eqn:Hs.
    + rewrite (IH (wc_char st c) "")
        by (rewrite wc_char_inWord, Hs; reflexivity).
      rewrite wc_char_words, wc_char_inWord, Hs. cbn [negb].
      rewrite Hin. destruct (Str.empty cur); cbn [negb length]; f_equal; lia.
    + rewrite (IH (wc_char st c) (cur ++ Str.of_char c))
        by (rewrite wc_char_inWord, Hs, empty_app_char; reflexivity).
      rewrite wc_char_words, wc_char_inWord, Hs. cbn [negb].
      destruct (inWord st); cbn [negb].
      * reflexivity.
      * unfold size_incr.
        rewrite <- Z.add_sub_assoc, Zplus_mod_idemp_l. f_equal. lia.
Qed.

Lemma words_from_bound :
  forall s cur, (length (words_from s cur) <= String.length s + 1)%nat.
Proof.
  induction s as [|c s IH]; intros cur; cbn [words_from String.length].
  - destruct (Str.empty cur); simpl; lia.
  - destruct (wc_space c).
    + specialize (IH ""). destruct (Str.empty cur); cbn [length]; lia.
    + specialize (IH (cur ++ Str.of_char c)). lia.
Qed.

Lemma wc_init_in_range : wc_in_range wc_init.
Proof. unfold wc_in_range, wc_init, SIZE_MODULUS. simpl. lia. Qed.

(** The three counts for a file that is not empty and below the largest size
    of a file, whatever the buffers. *)
Lemma wc_counts_all :
  forall chunks,
    Str.cat chunks <> "" ->
    Z.of_nat (String.length (Str.cat chunks)) <= OFF_MAX ->
    wc_counts chunks
    = (expected_lines (Str.cat chunks),
       Z.of_nat (length (words_of (Str.cat chunks))),
       Z.of_nat (String.length (Str.cat chunks))).
Proof.
  intros chunks Hne Hsize.
  pose proof (wc_counts_lines chunks Hne Hsize) as Hlines.
  unfold wc_counts, wc_read in *. rewrite wc_read_cat in *.
  set (content := Str.cat chunks) in *.
  pose proof (wc_buffer_in_range content wc_init_in_range) as [_ [Hw Hc]].
  pose proof (wc_buffer_chars content wc_init) as Hchars.
  pose proof (wc_buffer_words content wc_init "" eq_refl) as Hwords.
  pose proof (words_from_bound content "") as Hb.
  assert (HM : OFF_MAX + 2 < SIZE_MODULUS) by reflexivity.
  cbn [wc_init wc_chars wc_words inWord Z.add] in Hchars, Hwords.
  rewrite (Z.mod_small _ _ Hc) in Hchars.
  rewrite (Z.mod_small _ _ Hw) in Hwords.
  rewrite Z.mod_small in Hchars by lia.
  rewrite Z.sub_0_r, Z.mod_small in Hwords by lia.
  cbn [fst] in Hlines.
  rewrite Hlines, Hchars, Hwords. reflexivity.
Qed.

Section WcMore.

Context {W : Type} {os : OS W}.

(** X9.  [wc] without flag on a non-empty file that is read to its end
    reports three counts before the file's name: the lines (the newline
    characters, plus one for a last line without newline), the words (the
    maximal runs of characters other than space, tab, newline and carriage
    return) and the characters; none of them depends on how [read] cuts the
    file into buffers. *)
Theorem wc_reports_lines_words_chars :
  forall (filename : string) (w w1 w2 : W) (f : fd) (chunks : list string),
    filename <> "-l" -> filename <> "-w" -> filename <> "-c" ->
    isFileEmpty filename w = false ->
    sys_open filename O_RDONLY 0 w = (inr f, w1) ->
    sys_read_chunks f 4096 w1 = ((chunks, None), w2) ->
    Str.cat chunks <> "" ->
    Z.of_nat (String.length (Str.cat chunks)) <= OFF_MAX ->
    wcCommand [filename] w
    = (Ret (mkResult 0
              (to_string (expected_lines (Str.cat chunks)) ++ " "
               ++ to_string (Z.of_nat (length (words_of (Str.cat chunks)))) ++ " "
               ++ to_string (Z.of_nat (String.length (Str.cat chunks))) ++ " "
               ++ filename) ""),
       sys_close f w2).
Proof.
  intros filename w w1 w2 f chunks Hl Hw Hc Hempty Hopen Hread Hne Hsize.
  apply String.eqb_neq in Hl, Hw, Hc.
  unfold wcCommand, wcCommand_body.
  assert (Ho : fold_left wc_arg [filename] (mkWcOpts false false false [])
               = mkWcOpts false false false [filename]).
  { cbn [fold_left]. unfold wc_arg. rewrite Hl, Hw, Hc. reflexivity. }
  rewrite Ho.
  cbn [countLines countWords countChars wc_files negb andb app for_each].
  unfold wc_file. mred. rewrite Hempty, Hopen. mred. rewrite Hread. mred.
  cbn [fst snd]. rewrite (wc_counts_all chunks Hne Hsize). mred.
  unfold wc_report. cbn [countLines countWords countChars].
  unfold ok. do 3 f_equal.
  match goal with
  | |- stripTrailingNewline ?s = ?t => replace s with (t ++ LF)
  end.
  - apply stripTrailingNewline_line.
  - rewrite !sapp_assoc. reflexivity.
Qed.

(** X10.  For a file whose size is reported as zero, [wc] without flag
    prints three zeros before the file's name, and does not open the file. *)
Theorem wc_empty_file_zeros :
  forall (filename : string) (w : W),
    filename <> "-l" -> filename <> "-w" -> filename <> "-c" ->
    isFileEmpty filename w = true ->
    wcCommand [filename] w = (Ret (mkResult 0 ("0 0 0 " ++ filename) ""), w).
Proof.
  intros filename w Hl Hw Hc Hempty.
  apply String.eqb_neq in Hl, Hw, Hc.
  unfold wcCommand, wcCommand_body.
  assert (Ho : fold_left wc_arg [filename] (mkWcOpts false false false [])
               = mkWcOpts false false false [filename]).
  { cbn [fold_left]. unfold wc_arg. rewrite Hl, Hw, Hc. reflexivity. }
  rewrite Ho.
  cbn [countLines countWords countChars wc_files negb andb app for_each].
  unfold wc_file. mred. rewrite Hempty. mred.
  unfold wc_report. cbn [countLines countWords countChars append].
  unfold ok. do 3 f_equal.
  change (String "0" (String " " (String "0" (String " " (String "0"
            (String " " (filename ++ LF)))))))
    with (("0 0 0 " ++ filename) ++ LF).
  apply stripTrailingNewline_line.
Qed.

End WcMore.

(** *** cp and mv: the name inside a directory *)

Lemma find_last_of_app_name :
  forall (p : ascii -> bool) (c : ascii) (name dir : string),
    p c = true ->
    Str.find_last_of p name = None ->
    Str.find_last_of p (dir ++ String c name) = Some (String.length dir).
Proof.
  intros p c name dir Hc Hname. induction dir as [|d dir IH].
  - cbn [append Str.find_last_of String.length]. rewrite Hname, Hc. reflexivity.
  - cbn [append Str.find_last_of String.length]. rewrite IH. reflexivity.
Qed.

Lemma drop_app_name :
  forall (c : ascii) (name dir : string),
    Str.drop (String.length dir + 1) (dir ++ String c name) = name.
Proof.
  intros c name dir. induction dir as [|d dir IH].
  - reflexivity.
  - cbn [append String.length Nat.add Str.drop]. exact IH.
Qed.

Section CopyMove.

Context {W : Type} {os : OS W}.

Lemma cp_writes_ok :
  forall fdSrc fdDest finalDest chunks w w',
    write_chunks fdDest chunks w = (true, w') ->
    for_each (cp_write fdSrc fdDest finalDest) chunks tt w = (Next tt, w').
Proof.
  induction chunks as [|chunk rest IH]; intros w w' H.
  - simpl in H. inversion H. reflexivity.
  - simpl in H. cbn [for_each]. unfold cp_write at 1. mred.
    destruct (sys_write fdDest chunk w) as [r w1].
    destruct (wrote_all r chunk); [|discriminate].
    mred. apply IH, H.
Qed.

(** X11.  [cp] of one source that is not a directory: the destination file
    is the destination itself, or, when the destination is an existing
    directory, the entry in it named by what follows the last slash of the
    source.  The source is opened, then the destination is created or
    truncated, every buffer read is written to it in order, both are closed,
    and the result is status 0. *)
Theorem cp_one_source_copies_buffers :
  forall (dir name dest : string) (w w1 w2 w3 w4 : W) (fdSrc fdDest : fd)
         (chunks : list string),
    Str.find_last_of is_slash name = None ->
    is_dir_stat (sys_stat (dir ++ "/" ++ name) w) = false ->
    sys_open (dir ++ "/" ++ name) O_RDONLY 0 w = (inr fdSrc, w1) ->
    sys_open (if is_dir_stat (sys_stat dest w) then dest ++ "/" ++ name else dest)
             (Z.lor (Z.lor O_WRONLY O_CREAT) O_TRUNC) 420 w1 = (inr fdDest, w2) ->
    sys_read_chunks fdSrc 1024 w2 = ((chunks, None), w3) ->
    write_chunks fdDest chunks w3 = (true, w4) ->
    cpCommand [dir ++ "/" ++ name; dest] w
    = (Ret (mkResult 0 "" ""), sys_close fdDest (sys_close fdSrc w4)).
Proof.
  intros dir name dest w w1 w2 w3 w4 fdSrc fdDest chunks
         Hname Hsrc Hin Hout Hrd Hwr.
  unfold cpCommand, cpCommand_body. mred. cbn [last length Nat.sub Nat.ltb Nat.leb].
  cbn [andb firstn for_each]. mred.
  unfold cp_source. mred. rewrite Hsrc.
  change (dir ++ "/" ++ name) with (dir ++ String "/" name) in *.
  rewrite (find_last_of_app_name is_slash "/" name dir eq_refl Hname).
  rewrite drop_app_name.
  rewrite Hin. mred.
  destruct (is_dir_stat (sys_stat dest w)); rewrite Hout; mred; rewrite Hrd; mred;
    cbn [fst snd];
    rewrite (cp_writes_ok fdSrc fdDest _ chunks w3 Hwr); reflexivity.
Qed.

(** X12.  [mv] whose destination is an existing directory renames the source
    to the entry of that directory named by what follows the last slash or
    backslash of the source, adding a slash only when the directory's name
    does not end in one.  When [rename] succeeds the result is status 0; when
    it fails for another reason than [EXDEV] the result is the failed-move
    error, and nothing is copied or removed. *)
Theorem mv_into_directory_renames :
  forall (dir name dest : string) (c : ascii) (w w1 : W) (r : option errno),
    Str.find_last_of is_slash_or_backslash name = None ->
    is_dir_stat (sys_stat dest w) = true ->
    Str.back dest = Some c ->
    r <> Some EXDEV ->
    sys_rename (dir ++ "/" ++ name)
               (if is_slash_or_backslash c then dest ++ name else (dest ++ "/") ++ name) w
    = (r, w1) ->
    mvCommand [dir ++ "/" ++ name; dest] w
    = (Ret match r with
           | None => mkResult 0 "" ""
           | Some e =>
               mkResult 1 ""
                 ("mv: failed to move '" ++ (dir ++ "/" ++ name) ++ "' to '"
                  ++ (if is_slash_or_backslash c then dest ++ name
                      else (dest ++ "/") ++ name)
                  ++ "': " ++ strerror e)
           end, w1).
Proof.
  intros dir name dest c w w1 r Hname Hdir Hback Hr Hren.
  unfold mvCommand, mvCommand_body. mred. rewrite Hdir.
  unfold mv_dest.
  change (dir ++ "/" ++ name) with (dir ++ String "/" name) in *.
  rewrite (find_last_of_app_name is_slash_or_backslash "/" name dir eq_refl Hname).
  rewrite drop_app_name, Hback.
  destruct (is_slash_or_backslash c); cbn [negb]; mred; rewrite Hren;
    (destruct r as [e|]; [|reflexivity]);
    (destruct (errno_eqb e EXDEV) eqn:He;
     [apply errno_eqb_eq in He; subst; exfalso; apply Hr; reflexivity | reflexivity]).
Qed.

End CopyMove.

(** *** rmdir -p and trailing slashes *)

Lemma app_char_inj :
  forall a b c d, a ++ Str.of_char c = b ++ Str.of_char d -> a = b.
Proof.
  induction a as [|x a IH]; intros b c d H.
  - destruct b as [|y b]; [reflexivity|].
    simpl in H. inversion H as [[Hx Hb]]. destruct b; discriminate Hb.
  - destruct b as [|y b].
    + simpl in H. inversion H as [[Hx Ha]]. destruct a; discriminate Ha.
    + simpl in H. inversion H as [[Hx Hab]]. f_equal. eapply IH, Hab.
Qed.

Lemma slashes_succ : forall k, slashes (S k) = slashes k ++ Str.of_char Str.slash.
Proof. intros k. rewrite <- slashes_snoc. reflexivity. Qed.

Lemma slashes_add : forall a b, slashes a ++ slashes b = slashes (a + b).
Proof.
  induction a as [|a IH]; intros b; simpl; [reflexivity|].
  rewrite IH. reflexivity.
Qed.

Lemma ends_with_slashes :
  forall p k, Str.ends_with Str.slash (p ++ slashes (S k)) = true.
Proof.
  intros p k. rewrite slashes_succ, <- sapp_assoc, ends_with_app_char.
  apply Ascii.eqb_refl.
Qed.

Lemma app_slashes_unique :
  forall k k' p p',
    Str.ends_with Str.slash p = false ->
    Str.ends_with Str.slash p' = false ->
    p ++ slashes k = p' ++ slashes k' ->
    p = p'.
Proof.
  induction k as [|k IH]; intros k' p p' Hp Hp' H.
  - destruct k' as [|k'].
    + cbn [slashes] in H. rewrite !sapp_nil_r in H. exact H.
    + change (slashes 0) with "" in H. rewrite sapp_nil_r in H.
      rewrite H, ends_with_slashes in Hp. discriminate.
  - destruct k' as [|k'].
    + change (slashes 0) with "" in H. rewrite sapp_nil_r in H.
      rewrite <- H, ends_with_slashes in Hp'. discriminate.
    + rewrite !slashes_succ, <- !sapp_assoc in H.
      apply app_char_inj in H. eapply IH; eassumption.
Qed.

Lemma strip_trailing_slashes_app :
  forall path k,
    strip_trailing_slashes (path ++ slashes k) = strip_trailing_slashes path.
Proof.
  intros path k.
  destruct (strip_loop_spec (fuel := String.length path) path (le_n _))
    as [[k0 H0] E0].
  destruct (strip_loop_spec (fuel := String.length (path ++ slashes k))
              (path ++ slashes k) (le_n _)) as [[k1 H1] E1].
  fold (strip_trailing_slashes path) in H0, E0.
  fold (strip_trailing_slashes (path ++ slashes k)) in H1, E1.
  apply (@app_slashes_unique k1 (k0 + k) _ _ E1 E0).
  rewrite <- H1. rewrite H0 at 1. rewrite sapp_assoc, slashes_add. reflexivity.
Qed.

Section RmdirSlashes.

Context {W : Type} {os : OS W}.

(** X13.  Slashes added at the end of the operand of [rmdir -p] change
    nothing: the same directories are removed and the same result is
    returned. *)
Theorem rmdir_p_ignores_trailing_slashes :
  forall (path : string) (k : nat) (w : W),
    path <> "" ->
    rmdirCommand ["-p"; path ++ slashes k] w = rmdirCommand ["-p"; path] w.
Proof.
  intros path k w Hne.
  unfold rmdirCommand, rmdirCommand_body.
  change ("-p" == "-p") with true. cbv iota.
  replace (Str.empty path) with false by (destruct path; [contradiction | reflexivity]).
  replace (Str.empty (path ++ slashes k)) with false
    by (destruct path; [contradiction | reflexivity]).
  rewrite strip_trailing_slashes_app. reflexivity.
Qed.

End RmdirSlashes.

(** *** mkdir -p, prefix by prefix *)

Lemma mkdir_p_targets_stops :
  forall rest partial t,
    In t (mkdir_p_targets rest partial) ->
    (exists a b, rest = a ++ b /\ t = partial ++ a
                 /\ (b = "" \/ Str.ends_with Str.slash t = true))
    /\ t <> "/" /\ t <> "//".
Proof.
  induction rest as [|c rest IH]; intros partial t Hin; cbn [mkdir_p_targets] in Hin.
  - contradiction.
  - assert (Hrec : In t (mkdir_p_targets rest (partial ++ Str.of_char c)) ->
                   (exists a b, String c rest = a ++ b /\ t = partial ++ a
                                /\ (b = "" \/ Str.ends_with Str.slash t = true))
                   /\ t <> "/" /\ t <> "//").
    { intros H. destruct (IH _ _ H) as [[a [b [Hab [Ht Hb]]]] Hno].
      split; [|exact Hno].
      exists (String c a), b. repeat split.
      - simpl. rewrite Hab. reflexivity.
      - rewrite Ht, sapp_assoc. reflexivity.
      - exact Hb. }
    destruct (negb (Ascii.eqb c Str.slash) && negb (Str.empty rest)) eqn:Hskip;
      [apply Hrec, Hin|].
    destruct ((partial ++ Str.of_char c == "/") || (partial ++ Str.of_char c == "//"))
      eqn:Hroot; [apply Hrec, Hin|].
    destruct Hin as [Heq|Hin]; [|apply Hrec, Hin].
    subst t. apply orb_false_iff in Hroot. destruct Hroot as [H1 H2].
    apply String.eqb_neq in H1. apply String.eqb_neq in H2.
    split; [|split; assumption].
    exists (Str.of_char c), rest. repeat split.
    apply andb_false_iff in Hskip. destruct Hskip as [Hs|Hs].
    + right. rewrite ends_with_app_char. apply negb_false_iff in Hs. exact Hs.
    + left. apply negb_false_iff in Hs. apply empty_true, Hs.
Qed.

Lemma mkdir_p_targets_last :
  forall rest partial,
    rest <> "" ->
    partial ++ rest <> "/" -> partial ++ rest <> "//" ->
    exists l, mkdir_p_targets rest partial = app l [partial ++ rest].
Proof.
  induction rest as [|c rest IH]; intros partial Hne H1 H2; [contradiction|].
  cbn [mkdir_p_targets].
  assert (Hassoc : (partial ++ Str.of_char c) ++ rest = partial ++ String c rest).
  { rewrite sapp_assoc. reflexivity. }
  destruct rest as [|d rest'].
  - cbn [Str.empty negb andb]. rewrite andb_false_r.
    rewrite <- Hassoc, sapp_nil_r in H1, H2.
    apply String.eqb_neq in H1. apply String.eqb_neq in H2. rewrite H1, H2.
    cbn [orb mkdir_p_targets]. exists []. rewrite <- Hassoc, sapp_nil_r. reflexivity.
  - destruct (IH (partial ++ Str.of_char c)) as [l Hl];
      [discriminate | rewrite Hassoc; exact H1 | rewrite Hassoc; exact H2 |].
    rewrite Hassoc in Hl.
    destruct (negb (Ascii.eqb c Str.slash) && negb (Str.empty (String d rest')));
      [exists l; exact Hl|].
    destruct ((partial ++ Str.of_char c == "/") || (partial ++ Str.of_char c == "//"));
      [exists l; exact Hl|].
    exists ((partial ++ Str.of_char c) :: l). rewrite Hl. reflexivity.
Qed.

Section MkdirPrefixes.

Context {W : Type} {os : OS W}.

Lemma mkdir_p_loop_each :
  forall rest partial (w : W),
    match mkdir_p_loop rest partial w with
    | (Next _, w') => mkdir_each_tolerant (mkdir_p_targets rest partial) w
                      = (Ret (mkResult 0 "" ""), w')
    | (Done o, w') => mkdir_each_tolerant (mkdir_p_targets rest partial) w = (o, w')
    end.
Proof.
  induction rest as [|c rest IH]; intros partial w;
    cbn [mkdir_p_loop mkdir_p_targets].
  - reflexivity.
  - destruct (negb (Ascii.eqb c Str.slash) && negb (Str.empty rest)); [apply IH|].
    destruct ((partial ++ Str.of_char c == "/") || (partial ++ Str.of_char c == "//"));
      [apply IH|].
    cbn [mkdir_each_tolerant]. mred.
    destruct (sys_mkdir (partial ++ Str.of_char c) 493 w) as [[e|] w1].
    + destruct (errno_eqb e EEXIST); cbn [negb]; [apply IH | reflexivity].
    + apply IH.
Qed.

(** X14.  [mkdir -p path] calls [mkdir] on the beginnings of [path] that end
    in a slash and then on [path] itself, in order of length, the root and a
    doubled slash left out.  A name that already exists is let through; any
    other failure ends the command with that path's error. *)
Theorem mkdir_p_goes_prefix_by_prefix :
  forall (path : string) (w : W),
    Ascii.eqb (Str.front path) "-" = false ->
    mkdirCommand ["-p"; path] w = mkdir_each_tolerant (mkdir_p_targets path "") w
    /\ Forall (mkdir_stop path) (mkdir_p_targets path "")
    /\ (path <> "" -> path <> "/" -> path <> "//" ->
        exists l, mkdir_p_targets path "" = app l [path]).
Proof.
  intros path w Hfront. split; [|split].
  - unfold mkdirCommand, mkdirCommand_body.
    change (mkdir_flags ["-p"; path] false) with (mkdir_flags [path] true).
    cbn [mkdir_flags]. rewrite Hfront.
    unfold run, bind. cbn [for_each]. unfold bind, mkdir_path. cbn [negb].
    pose proof (mkdir_p_loop_each path "" w) as H.
    destruct (mkdir_p_loop path "" w) as [[[]|o] w']; rewrite H; reflexivity.
  - apply Forall_forall. intros t Hin.
    destruct (mkdir_p_targets_stops _ _ _ Hin) as [[a [b [Hab [Ht Hb]]]] [H1 H2]].
    cbn [append] in Ht. subst a.
    split; [|split; assumption].
    exists b. split; assumption.
  - intros Hne H1 H2.
    destruct (mkdir_p_targets_last "" Hne) as [l Hl]; [exact H1 | exact H2 |].
    exists l. exact Hl.
Qed.

End MkdirPrefixes.

(** *** mkdir without -p, run again *)

Module MkdirAgain.

Import Mem MemSpec MemFacts.

Lemma mkdir_plain_each :
  forall paths (w : world),
    match for_each (mkdir_path false) paths tt w with
    | (Next _, w') => grows w w'
    | (Done o, _) => exists msg, o = Ret (failure msg)
    end.
Proof.
  induction paths as [|p rest IH]; intros w; cbn [for_each].
  - apply grows_refl.
  - unfold bind at 1. unfold mkdir_path at 1. cbn [negb]. mred.
    change (sys_mkdir p 493 w) with (mkdir p 493 w).
    destruct (mkdir p 493 w) as [[e|] w1] eqn:Hm.
    + eexists. reflexivity.
    + specialize (IH w1).
      destruct (for_each (mkdir_path false) rest tt w1) as [[[]|o] w2].
      * eapply grows_trans; [eapply mkdir_grows, Hm | exact IH].
      * exact IH.
Qed.

(** X15.  On the in-memory system, when [mkdir] without [-p] has created its
    directories, the same command run again fails on the first of them with
    "File exists" and leaves the tree as it was. *)
Theorem mkdir_again_file_exists :
  forall (path : string) (paths : list string) (w w1 : world) (r : CommandResult),
    Ascii.eqb (Str.front path) "-" = false ->
    mkdirCommand (path :: paths) w = (Ret r, w1) ->
    status r = 0 ->
    exists w2,
      mkdirCommand (path :: paths) w1
      = (Ret (failure ("mkdir: cannot create directory '" ++ path ++ "': File exists")),
         w2)
      /\ same_tree w1 w2.
Proof.
  intros path paths w w1 r Hfront Hrun Hst.
  unfold mkdirCommand, mkdirCommand_body in *.
  cbn [mkdir_flags] in *. rewrite Hfront in *.
  unfold run in *. cbn [for_each] in *.
  unfold mkdir_path in Hrun at 1. cbn [negb] in Hrun.
  cbv beta iota delta [bind call give ret] in Hrun.
  change (sys_mkdir path 493 w) with (mkdir path 493 w) in Hrun.
  destruct (mkdir path 493 w) as [[e|] wa] eqn:Hm.
  { inversion Hrun; subst. cbn in Hst. discriminate Hst. }
  pose proof (mkdir_plain_each paths wa) as Hrest.
  destruct (for_each (mkdir_path false) paths tt wa) as [[[]|o] wb].
  2:{ destruct Hrest as [msg ->]. inversion Hrun; subst. cbn in Hst. discriminate Hst. }
  inversion Hrun; subst.
  assert (Hp : present w1 path = true).
  { eapply present_grows; [exact Hrest|].
    eapply mkdir_present; [exact Hm | left; reflexivity]. }
  exists (set_errno w1 EEXIST). split; [|split; reflexivity].
  unfold bind at 1. unfold bind at 1. unfold mkdir_path at 1. cbn [negb]. mred.
  change (sys_mkdir path 493 w1) with (mkdir path 493 w1).
  rewrite (@mkdir_exists path 493 w1 Hp). reflexivity.
Qed.

End MkdirAgain.

(** *** ls: which entries are listed *)

Lemma ends_with_app_nonempty :
  forall c a b, b <> "" -> Str.ends_with c (a ++ b) = Str.ends_with c b.
Proof.
  intros c a b Hb. induction a as [|d a IH]; [reflexivity|].
  change (String d a ++ b) with (String d (a ++ b)).
  rewrite ends_with_cons; [exact IH|].
  destruct a; [exact Hb | discriminate].
Qed.

Lemma stripTrailingNewline_other :
  forall s, Str.ends_with Str.nl s = false -> stripTrailingNewline s = s.
Proof.
  intros s H. unfold stripTrailingNewline. rewrite H, andb_false_r. reflexivity.
Qed.

Lemma cat_spaced_no_newline :
  forall l, Str.ends_with Str.nl (Str.cat (map (fun n => n ++ " ") l)) = false.
Proof.
  induction l as [|x l IH]; [reflexivity|].
  cbn [map]. change (Str.cat ((x ++ " ") :: map (fun n => n ++ " ") l))
    with ((x ++ " ") ++ Str.cat (map (fun n => n ++ " ") l)).
  destruct (Str.cat (map (fun n => n ++ " ") l)) as [|d rest] eqn:Hc.
  - rewrite sapp_nil_r. apply (ends_with_app_char Str.nl " " x).
  - rewrite ends_with_app_nonempty; [exact IH | discriminate].
Qed.

Lemma given_cons :
  forall flag a rest, given flag (a :: rest) = (a == flag) || given flag rest.
Proof. reflexivity. Qed.

Section LsEntries.

Context {W : Type} {os : OS W}.

Lemma ls_args_parse :
  forall (args : list string) (o : ls_opts) (w : W),
    ls_accepts args = true ->
    for_each ls_arg args o w
    = (Next (mkLsOpts (showAll o || given "-a" args)
                      (almostAll o || given "-A" args)
                      (longList o || given "-l" args)
                      (ls_paths o ++ ls_operands args)), w).
Proof.
  induction args as [|a rest IH]; intros o w Hacc.
  - cbn [for_each given existsb ls_operands filter]. unfold ret.
    rewrite !orb_false_r, app_nil_r. destruct o; reflexivity.
  - cbn [ls_accepts forallb] in Hacc. apply andb_prop in Hacc.
    destruct Hacc as [Ha Hrest]. fold (ls_accepts rest) in Hrest.
    cbn [for_each]. unfold bind. rewrite !given_cons.
    unfold ls_operands. cbn [filter]. fold (ls_operands rest).
    unfold ls_arg at 1. unfold ls_is_flag at 1.
    destruct (a == "-a") eqn:E1.
    { apply String.eqb_eq in E1. subst a. unfold ret. rewrite (IH _ _ Hrest).
      cbn [showAll almostAll longList ls_paths String.eqb Ascii.eqb Bool.eqb
           orb negb andb].
      rewrite !orb_true_r. reflexivity. }
    destruct (a == "-A") eqn:E2.
    { apply String.eqb_eq in E2. subst a. unfold ret. rewrite (IH _ _ Hrest).
      cbn [showAll almostAll longList ls_paths String.eqb Ascii.eqb Bool.eqb
           orb negb andb].
      rewrite !orb_true_r. reflexivity. }
    destruct (a == "-l") eqn:E3.
    { apply String.eqb_eq in E3. subst a. unfold ret. rewrite (IH _ _ Hrest).
      cbn [showAll almostAll longList ls_paths String.eqb Ascii.eqb Bool.eqb
           orb negb andb].
      rewrite !orb_true_r. reflexivity. }
    unfold ls_is_flag in Ha. rewrite E1, E2, E3 in Ha. cbn [orb] in Ha.
    apply negb_true_iff in Ha. unfold ls_refused in Ha. rewrite Ha.
    unfold ret. rewrite (IH _ _ Hrest).
    cbn [showAll almostAll longList ls_paths orb negb].
    rewrite <- app_assoc. reflexivity.
Qed.

Lemma ls_entries_short :
  forall (o : ls_opts) (p : string) (names : list string) (out : string) (w : W),
    longList o = false ->
    for_each (ls_entry o p) names out w
    = (Next (out ++ Str.cat (map (fun n => n ++ " ")
                                 (filter (ls_shown (showAll o) (almostAll o)) names))),
       w).
Proof.
  intros o p names out w Hl. revert out.
  induction names as [|n rest IH]; intros out.
  - cbn [for_each filter map]. unfold ret. change (Str.cat []) with "".
    rewrite sapp_nil_r. reflexivity.
  - cbn [for_each filter]. unfold bind. unfold ls_entry at 1. unfold ls_shown at 1.
    rewrite Hl.
    destruct (almostAll o); destruct (showAll o); cbn [negb andb orb].
    + destruct ((n == ".") || (n == "..")); cbn [negb]; unfold ret.
      * apply IH.
      * rewrite IH. cbn [map].
        change (Str.cat ((n ++ " ") :: ?l)) with ((n ++ " ") ++ Str.cat l).
        rewrite sapp_assoc. reflexivity.
    + destruct ((n == ".") || (n == "..")); cbn [negb]; unfold ret.
      * apply IH.
      * rewrite IH. cbn [map].
        change (Str.cat ((n ++ " ") :: ?l)) with ((n ++ " ") ++ Str.cat l).
        rewrite sapp_assoc. reflexivity.
    + unfold ret. rewrite IH. cbn [map].
      change (Str.cat ((n ++ " ") :: ?l)) with ((n ++ " ") ++ Str.cat l).
      rewrite sapp_assoc. reflexivity.
    + destruct (Ascii.eqb (Str.front n) "."); cbn [negb]; unfold ret.
      * apply IH.
      * rewrite IH. cbn [map].
        change (Str.cat ((n ++ " ") :: ?l)) with ((n ++ " ") ++ Str.cat l).
        rewrite sapp_assoc. reflexivity.
Qed.

(** X16.  [ls] without [-l] on one directory (the operand, or [.] when there
    is none) prints the listed entries in the order [readdir] gives them,
    each followed by a space.  The flags may stand anywhere among the
    arguments; with [-A] every entry but [.] and [..] is listed, whether or
    not [-a] is given too; otherwise [-a] lists every entry, and without
    either flag the names that start with a dot are left out. *)
Theorem ls_lists_shown_names :
  forall (args : list string) (p : string) (info : stat_t) (names : list string)
         (w w' : W),
    ls_accepts args = true ->
    given "-l" args = false ->
    ls_targets args = [p] ->
    sys_stat p w = inr info ->
    S_ISDIR (st_mode info) = true ->
    sys_readdir_all p w = (inr names, w') ->
    lsCommand args w
    = (Ret (ok (Str.cat (map (fun n => n ++ " ")
                             (filter (ls_shown (given "-a" args) (given "-A" args))
                                     names)))), w').
Proof.
  intros args p info names w w' Hacc Hl Ht Hstat Hdir Hread.
  unfold lsCommand, lsCommand_body, run. unfold bind at 1.
  rewrite (ls_args_parse _ (mkLsOpts false false false []) w Hacc).
  cbn [showAll almostAll longList ls_paths orb app].
  fold (ls_targets args). rewrite Ht, Hl.
  unfold bind at 1. cbn [for_each]. unfold bind at 1. unfold ls_path at 1.
  unfold bind at 1. unfold ask at 1. rewrite Hstat, Hdir.
  cbn [negb length Nat.ltb Nat.leb]. unfold bind at 1. unfold call at 1.
  rewrite Hread.
  rewrite ls_entries_short by reflexivity.
  cbn [showAll almostAll]. unfold ret. cbn [append].
  rewrite stripTrailingNewline_other by apply cat_spaced_no_newline.
  reflexivity.
Qed.

End LsEntries.

(** *** rm: what counts as the recursive option *)

Section RmOption.

Context {W : Type} {os : OS W}.

(** X17.  Before the operands of [rm], any argument that starts with a dash
    and has an [r] somewhere in it acts as [-r], whatever else it is made of. *)
Theorem rm_any_option_with_r :
  forall (fuel : nat) (flag : string) (rest : list string) (w : W),
    Ascii.eqb (Str.front flag) "-" = true ->
    Str.find "r" flag <> None ->
    rest <> [] ->
    rmCommand fuel (flag :: rest) w = rmCommand fuel ("-r" :: rest) w.
Proof.
  intros fuel flag rest w Hfront Hr Hrest.
  destruct fuel as [|fuel]; [reflexivity|].
  unfold rmCommand. cbn [rmCommand_fuel].
  destruct rest as [|a rest]; [contradiction|].
  change (rm_flags ("-r" :: a :: rest) false) with (rm_flags (a :: rest) true).
  replace (rm_flags (flag :: a :: rest) false) with (rm_flags (a :: rest) true);
    [reflexivity|].
  cbn [rm_flags]. rewrite Hfront.
  destruct (Str.find "r" flag); [reflexivity | contradiction].
Qed.

End RmOption.

(** *** rmdir -p on slashes alone *)

Section RmdirRoot.

Context {W : Type} {os : OS W}.

(** X18.  [rmdir -p] on an operand made of slashes alone removes nothing and
    reports success. *)
Theorem rmdir_p_only_slashes :
  forall (k : nat) (w : W),
    rmdirCommand ["-p"; slashes (S k)] w = (Ret (mkResult 0 "" ""), w).
Proof.
  intros k w. unfold rmdirCommand, rmdirCommand_body.
  change ("-p" == "-p") with true. cbv iota.
  change (Str.empty (slashes (S k))) with false. cbv iota.
  pose proof (strip_trailing_slashes_app "" (S k)) as H.
  change ("" ++ slashes (S k)) with (slashes (S k)) in H.
  rewrite H. reflexivity.
Qed.

End RmdirRoot.

(** *** wc: the flags *)

Lemma wc_args_parse :
  forall (args : list string) (o : wc_opts),
    fold_left wc_arg args o
    = mkWcOpts (countLines o || given "-l" args)
               (countWords o || given "-w" args)
               (countChars o || given "-c" args)
               (wc_files o ++ wc_operands args).
Proof.
  induction args as [|a rest IH]; intros o.
  - cbn [fold_left given existsb wc_operands filter].
    rewrite !orb_false_r, app_nil_r. destruct o; reflexivity.
  - cbn [fold_left]. rewrite IH, !given_cons.
    unfold wc_operands. cbn [filter]. fold (wc_operands rest).
    unfold wc_arg, wc_is_flag.
    destruct (a == "-l") eqn:E1.
    { apply String.eqb_eq in E1. subst a.
      cbn [countLines countWords countChars wc_files String.eqb Ascii.eqb Bool.eqb
           orb negb andb].
      rewrite !orb_true_r. reflexivity. }
    destruct (a == "-w") eqn:E2.
    { apply String.eqb_eq in E2. subst a.
      cbn [countLines countWords countChars wc_files String.eqb Ascii.eqb Bool.eqb
           orb negb andb].
      rewrite !orb_true_r. reflexivity. }
    destruct (a == "-c") eqn:E3.
    { apply String.eqb_eq in E3. subst a.
      cbn [countLines countWords countChars wc_files String.eqb Ascii.eqb Bool.eqb
           orb negb andb].
      rewrite !orb_true_r. reflexivity. }
    cbn [countLines countWords countChars wc_files orb negb].
    rewrite <- app_assoc. reflexivity.
Qed.

Section WcFlags.

Context {W : Type} {os : OS W}.

(** X19.  [wc] looks only at which of [-l], [-w] and [-c] occur among its
    arguments, not at where or how often: two argument lists with the same
    flags and the same operands in the same order give the same run.  Giving
    all three flags is the same as giving none. *)
Theorem wc_flags_anywhere :
  forall (args args' : list string) (w : W),
    wc_operands args = wc_operands args' ->
    (given "-l" args = given "-l" args'
     /\ given "-w" args = given "-w" args'
     /\ given "-c" args = given "-c" args')
    \/ (given "-l" args && given "-w" args && given "-c" args = true
        /\ given "-l" args' || given "-w" args' || given "-c" args' = false) ->
    wcCommand args w = wcCommand args' w.
Proof.
  intros args args' w Hop Hflags.
  unfold wcCommand, wcCommand_body. rewrite !wc_args_parse.
  cbn [countLines countWords countChars wc_files orb app]. rewrite Hop.
  destruct Hflags as [[Hl [Hw Hc]] | [Hall Hnone]].
  - rewrite Hl, Hw, Hc. reflexivity.
  - apply andb_prop in Hall. destruct Hall as [Hall Hc].
    apply andb_prop in Hall. destruct Hall as [Hl Hw].
    apply orb_false_iff in Hnone. destruct Hnone as [Hnone Hc'].
    apply orb_false_iff in Hnone. destruct Hnone as [Hl' Hw'].
    rewrite Hl, Hw, Hc, Hl', Hw', Hc'. reflexivity.
Qed.

End WcFlags.

(** *** chmod: reading the permissions *)

Lemma octal_digit_plain :
  forall c,
    Stoi.digit_in 8 c <> None ->
    Stoi.isspace c = false /\ Ascii.eqb c "-" = false /\ Ascii.eqb c "+" = false.
Proof.
  intros c. destruct c as [[] [] [] [] [] [] [] []]; vm_compute; intros H;
    try (exfalso; apply H; reflexivity); repeat split.
Qed.

Lemma digits_stop :
  forall (perm junk : string) (acc : option Z),
    all_octal perm = true ->
    Stoi.digit_in 8 (Str.front junk) = None ->
    Stoi.digits 8 (perm ++ junk) acc = Stoi.digits 8 perm acc.
Proof.
  induction perm as [|c perm IH]; intros junk acc Hoct Hjunk.
  - cbn [append Stoi.digits]. destruct junk as [|d junk]; [reflexivity|].
    cbn [Stoi.digits]. cbn [Str.front] in Hjunk. rewrite Hjunk. reflexivity.
  - cbn [append Stoi.digits]. cbn [all_octal] in Hoct.
    destruct (Stoi.digit_in 8 c); [|discriminate].
    apply IH; assumption.
Qed.

Lemma stoi_stops_after_octal :
  forall (perm junk : string),
    perm <> "" ->
    all_octal perm = true ->
    Stoi.digit_in 8 (Str.front junk) = None ->
    Stoi.stoi (perm ++ junk) 8 = Stoi.stoi perm 8.
Proof.
  intros perm junk Hne Hoct Hjunk.
  destruct perm as [|c perm]; [contradiction|].
  assert (Hc : Stoi.digit_in 8 c <> None).
  { cbn [all_octal] in Hoct. destruct (Stoi.digit_in 8 c); [discriminate | discriminate]. }
  destruct (@octal_digit_plain _ Hc) as [Hsp [Hminus Hplus]].
  unfold Stoi.stoi. cbn [append Stoi.skip_space]. rewrite Hsp, Hminus, Hplus.
  change (String c (perm ++ junk)) with (String c perm ++ junk).
  rewrite (@digits_stop _ _ None Hoct Hjunk). reflexivity.
Qed.

Lemma digit_in_octal_char :
  forall d, 0 <= d <= 7 -> Stoi.digit_in 8 (octal_char d) = Some d.
Proof.
  intros d Hd.
  assert (H : d = 0 \/ d = 1 \/ d = 2 \/ d = 3 \/ d = 4 \/ d = 5 \/ d = 6 \/ d = 7)
    by lia.
  repeat (destruct H as [H|H]; [subst d; reflexivity|]).
  subst d; reflexivity.
Qed.

Lemma stoi_three_octal_digits :
  forall u g o,
    0 <= u <= 7 -> 0 <= g <= 7 -> 0 <= o <= 7 ->
    Stoi.stoi (String (octal_char u) (String (octal_char g) (String (octal_char o) ""))) 8
    = StoiOk (64 * u + 8 * g + o).
Proof.
  intros u g o Hu Hg Ho.
  pose proof (@digit_in_octal_char _ Hu) as Du.
  pose proof (@digit_in_octal_char _ Hg) as Dg.
  pose proof (@digit_in_octal_char _ Ho) as Do.
  assert (Hc : Stoi.digit_in 8 (octal_char u) <> None) by (rewrite Du; discriminate).
  destruct (@octal_digit_plain _ Hc) as [Hsp [Hminus Hplus]].
  unfold Stoi.stoi. cbn [Stoi.skip_space]. rewrite Hsp, Hminus, Hplus.
  cbn [Stoi.digits]. rewrite Du, Dg, Do.
  replace ((u * 8 + g) * 8 + o) with (64 * u + 8 * g + o) by lia.
  replace ((INT_MIN <=? 64 * u + 8 * g + o) && (64 * u + 8 * g + o <=? INT_MAX))
    with true; [reflexivity|].
  symmetry. apply andb_true_intro. unfold INT_MIN, INT_MAX.
  split; apply Z.leb_le; lia.
Qed.

Section ChmodDigits.

Context {W : Type} {os : OS W}.

(** X20.  [chmod] reads the permissions up to the first character that is
    not an octal digit and takes no notice of the rest: after a non-empty run
    of octal digits, any text that does not start with one changes nothing. *)
Theorem chmod_ignores_text_after_digits :
  forall (perm junk filename : string) (w : W),
    perm <> "" ->
    all_octal perm = true ->
    Stoi.digit_in 8 (Str.front junk) = None ->
    chmodCommand [perm ++ junk; filename] w = chmodCommand [perm; filename] w.
Proof.
  intros perm junk filename w Hne Hoct Hjunk.
  unfold chmodCommand, chmodCommand_body.
  rewrite (@stoi_stops_after_octal _ _ Hne Hoct Hjunk). reflexivity.
Qed.

(** X21.  Three octal digits [u], [g] and [o] given to [chmod] make one call
    of the system's [chmod] on the file with the mode [64u + 8g + o]; its
    outcome is the command's. *)
Theorem chmod_three_digits_mode :
  forall (u g o : Z) (filename : string) (w : W),
    0 <= u <= 7 -> 0 <= g <= 7 -> 0 <= o <= 7 ->
    chmodCommand
      [String (octal_char u) (String (octal_char g) (String (octal_char o) ""));
       filename] w
    = match sys_chmod filename (64 * u + 8 * g + o) w with
      | (Some e, w') =>
          (Ret (mkResult 1 "" ("chmod: failed to change permissions for '" ++ filename
                               ++ "': " ++ strerror e)), w')
      | (None, w') => (Ret (mkResult 0 "" ""), w')
      end.
Proof.
  intros u g o filename w Hu Hg Ho.
  unfold chmodCommand, chmodCommand_body.
  rewrite (@stoi_three_octal_digits _ _ _ Hu Hg Ho). mred.
  replace (to_mode_t (64 * u + 8 * g + o)) with (64 * u + 8 * g + o).
  - destruct (sys_chmod filename (64 * u + 8 * g + o) w) as [[e|] w']; reflexivity.
  - unfold to_mode_t, MODE_MODULUS. symmetry. apply Z.mod_small. lia.
Qed.

End ChmodDigits.

(** *** The status of a returned result *)

Lemma binary_ok : forall out, binary_status (Ret (ok out)).
Proof. intros out; left; reflexivity. Qed.

Lemma binary_failure : forall msg, binary_status (Ret (failure msg)).
Proof. intros msg; right; reflexivity. Qed.

Lemma binary_silent : binary_status (Ret (mkResult 1 "" "")).
Proof. right; reflexivity. Qed.

Create HintDb bin.

#[local] Hint Resolve binary_ok binary_failure binary_silent : bin.

(** One step along the structure of a handler body, as for the one-channel
    rule. *)
Ltac bin_step :=
  match goal with
  | |- forall _, _ => intro
  | |- yields _ (bind _ _) => apply yields_bind
  | |- yields _ (ret _) => apply yields_ret
  | |- yields _ (give _) => apply yields_give
  | |- yields _ (halt _) => apply yields_halt
  | |- exits _ (bind _ _) => apply exits_bind
  | |- exits _ (ret _) => apply exits_ret
  | |- exits _ (ask _) => apply exits_ask
  | |- exits _ (call _) => apply exits_call
  | |- exits _ (act _) => apply exits_act
  | |- exits _ (give _) => apply exits_give
  | |- exits _ (halt _) => apply exits_halt
  | |- exits _ (for_each _ _ _) => apply exits_for_each
  | |- yields _ (match ?x with _ => _ end) => destruct x
  | |- exits _ (match ?x with _ => _ end) => destruct x
  | |- binary_status _ => solve [auto with bin | exact I]
  end.

Ltac bin := autounfold with chan; repeat (bin_step; autounfold with chan).

Section Statuses.

Context {W : Type} {os : OS W}.

Lemma rmdir_p_loop_binary :
  forall fuel path, yields binary_status (rmdir_p_loop fuel path).
Proof.
  induction fuel as [|fuel IH]; intros path; cbn [rmdir_p_loop].
  - bin.
  - bin. apply IH.
Qed.

Lemma rmdir_binary : forall args, yields binary_status (rmdirCommand_body args).
Proof.
  intros args. unfold rmdirCommand_body.
  destruct args as [|a [|b [|c rest]]]; bin.
  apply rmdir_p_loop_binary.
Qed.

Lemma mkdir_p_loop_binary :
  forall rest partial, exits binary_status (mkdir_p_loop rest partial).
Proof.
  induction rest as [|c rest IH]; intros partial; cbn [mkdir_p_loop].
  - bin.
  - bin; apply IH.
Qed.

Lemma mkdir_flags_binary :
  forall args recurse r, mkdir_flags args recurse = inl r -> binary_status (Ret r).
Proof.
  induction args as [|a rest IH]; intros recurse r H; cbn [mkdir_flags] in H.
  - discriminate.
  - destruct (Ascii.eqb (Str.front a) "-"); [|discriminate].
    destruct (a == "-p").
    + apply (IH true), H.
    + inversion H. apply binary_failure.
Qed.

Lemma mkdir_binary : forall args, yields binary_status (mkdirCommand_body args).
Proof.
  intros args. unfold mkdirCommand_body.
  destruct args as [|a rest]; [bin|].
  destruct (mkdir_flags (a :: rest) false) as [r|[recurse paths]] eqn:Hf.
  - apply yields_give. apply (mkdir_flags_binary _ _ Hf).
  - destruct paths; bin; apply mkdir_p_loop_binary.
Qed.

Lemma rm_flags_binary :
  forall args recursive r, rm_flags args recursive = inl r -> binary_status (Ret r).
Proof.
  induction args as [|a rest IH]; intros recursive r H; cbn [rm_flags] in H.
  - discriminate.
  - destruct (Ascii.eqb (Str.front a) "-"); [|discriminate].
    destruct (Str.find "r" a).
    + destruct rest.
      * inversion H. apply binary_failure.
      * apply (IH true), H.
    + inversion H. apply binary_failure.
Qed.

Lemma rm_child_binary :
  forall (self : handler (W := W)) path name u,
    exits binary_status (rm_child self path name u).
Proof.
  intros self path name u. unfold rm_child.
  destruct ((name == ".") || (name == "..")); [bin|].
  intros w. destruct (self _ w) as [[r| | | |] w']; exact I.
Qed.

Lemma rm_binary :
  forall fuel args, yields binary_status (rmCommand_fuel fuel args).
Proof.
  induction fuel as [|fuel IH]; intros args; cbn [rmCommand_fuel].
  - bin.
  - destruct args as [|a rest]; [bin|].
    destruct (rm_flags (a :: rest) false) as [r|[recursive paths]] eqn:Hf.
    + apply yields_give. apply (rm_flags_binary _ _ Hf).
    + bin; apply rm_child_binary.
Qed.

End Statuses.

Section GrepStatuses.

Context {W : Type} {os : OS W} {R : Type} {rx : RegexLib R}.

Lemma grep_flags_binary :
  forall args flagCount o r,
    grep_flags args flagCount o = GrepReturn r -> binary_status (Ret r).
Proof.
  fix IH 1.
  intros [|flag rest] flagCount o r H; cbn [grep_flags] in H.
  - discriminate.
  - repeat match type of H with
           | (if ?c then _ else _) = _ => destruct c
           | match ?x with _ => _ end = _ => destruct x
           end;
      try discriminate;
      try (inversion H; apply binary_failure);
      try (eapply IH; eassumption).
Qed.

Lemma grep_line_binary :
  forall o (re : R) multipleFiles file line lineNumber acc r,
    grep_line o re multipleFiles file line lineNumber acc = inl r ->
    binary_status (Ret r).
Proof.
  intros o re multipleFiles file line lineNumber [totalMatches out] r H.
  unfold grep_line in H.
  destruct (matchesPattern line re (opt_o o)) as [matched matchedText].
  repeat match type of H with
         | (if ?c then _ else _) = _ => destruct c
         end;
    try discriminate; inversion H; apply binary_ok.
Qed.

Lemma grep_drain_binary :
  forall fuel o (re : R) multipleFiles file st r,
    grep_drain fuel o re multipleFiles file st = inl r -> binary_status (Ret r).
Proof.
  induction fuel as [|fuel IH];
    intros o re multipleFiles file [[lineBuffer lineNumber] acc] r H;
    cbn [grep_drain] in H.
  - destruct (Str.find Str.nl lineBuffer); discriminate.
  - destruct (Str.find Str.nl lineBuffer) as [pos|]; [|discriminate].
    destruct (grep_line o re multipleFiles file (Str.take pos lineBuffer) lineNumber acc)
      as [r'|acc'] eqn:Hl.
    + inversion H; subst. eapply grep_line_binary; eassumption.
    + eapply IH; eassumption.
Qed.

Lemma grep_chunks_binary :
  forall chunks o (re : R) multipleFiles file st r,
    grep_chunks o re multipleFiles file chunks st = inl r -> binary_status (Ret r).
Proof.
  induction chunks as [|chunk rest IH];
    intros o re multipleFiles file [[lineBuffer lineNumber] acc] r H;
    cbn [grep_chunks] in H.
  - discriminate.
  - destruct (grep_drain (String.length (lineBuffer ++ chunk)) o re multipleFiles file
                (lineBuffer ++ chunk, lineNumber, acc)) as [r'|st'] eqn:Hd.
    + inversion H; subst. eapply grep_drain_binary; eassumption.
    + eapply IH; eassumption.
Qed.

Lemma grep_file_binary :
  forall o (re : R) multipleFiles file acc,
    exits binary_status (grep_file o re multipleFiles file acc).
Proof.
  intros o re multipleFiles file acc. unfold grep_file.
  apply exits_bind; [apply exits_call|]. intros [e|f]; [apply exits_give, binary_failure|].
  apply exits_bind; [apply exits_call|]. intros chunks.
  destruct (grep_chunks o re multipleFiles file (fst chunks) ("", 1, acc))
    as [r|[[lineBuffer lineNumber] acc']] eqn:Hc.
  - apply exits_bind; [apply exits_act|]. intros _. apply exits_give.
    eapply grep_chunks_binary; eassumption.
  - destruct (negb (Str.empty lineBuffer)).
    + destruct (grep_line o re multipleFiles file lineBuffer lineNumber acc')
        as [r|acc''] eqn:Hl.
      * apply exits_bind; [apply exits_act|]. intros _. apply exits_give.
        eapply grep_line_binary; eassumption.
      * apply exits_bind; [apply exits_act|]. intros _. apply exits_ret.
    + apply exits_bind; [apply exits_act|]. intros _. apply exits_ret.
Qed.

Lemma grep_binary :
  forall args, yields binary_status (grepCommand_body (R := R) args).
Proof.
  intros args. unfold grepCommand_body.
  destruct (length args <? 2)%nat; [apply yields_give, binary_failure|].
  destruct (grep_flags args 0 grep_defaults) as [r|what|o rest] eqn:Hf.
  - apply yields_give. eapply grep_flags_binary; eassumption.
  - apply yields_halt. exact I.
  - destruct rest as [|pattern [|file files]];
      try (apply yields_give, binary_failure).
    destruct (regex_compile _ (opt_i o)) as [re|];
      [|apply yields_give, binary_failure].
    apply yields_bind.
    + apply exits_for_each. intros. apply grep_file_binary.
    + intros [totalMatches out].
      destruct (opt_c o); [apply yields_ret, binary_ok|].
      destruct (totalMatches =? 0);
        [apply yields_ret, binary_silent | apply yields_ret, binary_ok].
Qed.

Lemma handlers_binary :
  forall (fuel : nat) (c : command) (args : list string),
    yields binary_status
      (match c with
       | CmdHelp => helpCommand_body args
       | CmdEcho => echoCommand_body args
       | CmdPause => pauseCommand_body args
       | CmdLs => lsCommand_body args
       | CmdDir => dirCommand_body args
       | CmdCd => cdCommand_body args
       | CmdRmdir => rmdirCommand_body args
       | CmdTouch => touchCommand_body args
       | CmdCp => cpCommand_body args
       | CmdChown => chownCommand_body args
       | CmdGrep => grepCommand_body (R := R) args
       | CmdQuit => quitCommand_body args
       | CmdClr => clrCommand_body args
       | CmdPwd => pwdCommand_body args
       | CmdEnviron => environCommand_body args
       | CmdCat => catCommand_body args
       | CmdWc => wcCommand_body args
       | CmdMkdir => mkdirCommand_body args
       | CmdRm => rmCommand_fuel fuel args
       | CmdMv => mvCommand_body args
       | CmdChmod => chmodCommand_body args
       end).
Proof.
  intros fuel c args. destruct c;
    first [ apply rmdir_binary | apply mkdir_binary | apply rm_binary
          | apply grep_binary | bin ].
Qed.

(** X22.  Whatever handler is called, a result that it returns has status 0
    or status 1, so that the shell's main loop always writes it.  With status
    0 it writes, on standard output, the output without the sentinel prefix
    and no newline when the output starts with the sentinel, and otherwise
    the output, followed by a newline unless it is empty.  With status 1 it
    writes the error text on standard error, followed by a newline on
    standard output unless the text is empty. *)
Theorem handlers_status_zero_or_one :
  forall (fuel : nat) (c : command) (args : list string) (w w' : W)
         (r : CommandResult),
    handler_of (R := R) fuel c args w = (Ret r, w') ->
    (status r = 0
     /\ render r
        = if Str.starts_with NO_NL (output r) then [Emit Stdout (Str.drop 9 (output r))]
          else Emit Stdout (output r)
               :: (if Str.empty (output r) then [] else [Emit Stdout LF]))
    \/ (status r = 1
        /\ render r
           = Emit Stderr (error r)
             :: (if Str.empty (error r) then [] else [Emit Stdout LF])).
Proof.
  intros fuel c args w w' r H.
  assert (Hs : binary_status (Ret r)).
  { eapply (yields_run (m := match c with
       | CmdHelp => helpCommand_body args
       | CmdEcho => echoCommand_body args
       | CmdPause => pauseCommand_body args
       | CmdLs => lsCommand_body args
       | CmdDir => dirCommand_body args
       | CmdCd => cdCommand_body args
       | CmdRmdir => rmdirCommand_body args
       | CmdTouch => touchCommand_body args
       | CmdCp => cpCommand_body args
       | CmdChown => chownCommand_body args
       | CmdGrep => grepCommand_body (R := R) args
       | CmdQuit => quitCommand_body args
       | CmdClr => clrCommand_body args
       | CmdPwd => pwdCommand_body args
       | CmdEnviron => environCommand_body args
       | CmdCat => catCommand_body args
       | CmdWc => wcCommand_body args
       | CmdMkdir => mkdirCommand_body args
       | CmdRm => rmCommand_fuel fuel args
       | CmdMv => mvCommand_body args
       | CmdChmod => chmodCommand_body args
       end)); [apply handlers_binary|].
    rewrite <- H. destruct c; reflexivity. }
  destruct r as [s out err]. cbn [binary_status status] in Hs.
  cbn [status output error].
  destruct Hs as [Hs|Hs]; subst s; [left | right]; (split; [reflexivity|]);
    unfold render; cbn [status output error Z.eqb Pos.eqb].
  - destruct (Str.starts_with NO_NL out), (Str.empty out); reflexivity.
  - destruct (Str.empty err); reflexivity.
Qed.

End GrepStatuses.


(** ** Further runs on the sample world *)

Lemma stripTrailingNewline_one_newline_witness :
  stripTrailingNewline ("ab" ++ LF) = "ab" /\ stripTrailingNewline "ab" = "ab".
Proof.
  split.
  - apply (proj1 (stripTrailingNewline_one_newline "ab")).
  - apply (proj2 (stripTrailingNewline_one_newline "ab")). reflexivity.
Defined.

Lemma grep_prints_selected_lines_witness :
  grepCommand ["-n"; "foo"; "f.txt"; "g.txt"] Sample.w0
  = (Ret (mkResult 0 ("f.txt:1:foo one" ++ LF ++ "f.txt:3:foo two" ++ LF
                      ++ "f.txt:4:foo three") ""), Sample.w0).
Proof.
  eapply eq_trans.
  - eapply (@grep_prints_selected_lines _ _ _ Mem.regex
              ["-n"; "foo"; "f.txt"; "g.txt"] Sample.w0 Sample.w0
              (mkGrepOpts false true false false false false (-1))
              "foo" "f.txt" ["g.txt"] [Sample.f_text; Sample.g_text]
              (Mem.mkLiteral "foo" false false false)).
    + reflexivity.
    + reflexivity.
    + reflexivity.
    + reflexivity.
    + reflexivity.
    + reflexivity.
  - reflexivity.
Defined.

Lemma grep_counts_selected_lines_witness :
  grepCommand ["-c"; "zzz"; "f.txt"; "g.txt"] Sample.w0
  = (Ret (mkResult 0 "0" ""), Sample.w0).
Proof.
  eapply eq_trans.
  - eapply (@grep_counts_selected_lines _ _ _ Mem.regex
              ["-c"; "zzz"; "f.txt"; "g.txt"] Sample.w0 Sample.w0
              (mkGrepOpts false false false false true false (-1))
              "zzz" "f.txt" ["g.txt"] [Sample.f_text; Sample.g_text]
              (Mem.mkLiteral "zzz" false false false)).
    + reflexivity.
    + reflexivity.
    + reflexivity.
    + reflexivity.
    + reflexivity.
    + reflexivity.
  - reflexivity.
Defined.

Lemma grep_bad_limit_throws_witness :
  grepCommand (R := Mem.literal) ["-m"; "many"; "foo"; "f.txt"] Sample.w0
  = (Throw "stoi", Sample.w0).
Proof.
  apply (@grep_bad_limit_throws _ _ _ Mem.regex "many" ["foo"; "f.txt"] Sample.w0).
  left. reflexivity.
Defined.

Lemma grep_unopened_file_drops_output_witness :
  fst (grepCommand ["foo"; "f.txt"; "nofile"] Sample.w0)
  = Ret (mkResult 1 "" "grep: cannot open file 'nofile'").
Proof.
  apply (@grep_unopened_file_drops_output _ _ _ Mem.regex
           ["foo"; "f.txt"; "nofile"] Sample.w0 grep_defaults "foo" "f.txt" "nofile"
           ["nofile"] (Mem.mkLiteral "foo" false false false)).
  - reflexivity.
  - reflexivity.
  - reflexivity.
  - reflexivity.
Defined.

Lemma wc_reports_lines_words_chars_witness :
  exists w' : Mem.world,
    wcCommand ["f.txt"] Sample.w0 = (Ret (mkResult 0 "4 7 29 f.txt" ""), w').
Proof.
  eexists. eapply eq_trans.
  - eapply (@wc_reports_lines_words_chars _ _ "f.txt" Sample.w0).
    + discriminate.
    + discriminate.
    + discriminate.
    + reflexivity.
    + reflexivity.
    + reflexivity.
    + discriminate.
    + vm_compute. discriminate.
  - reflexivity.
Defined.

Lemma wc_empty_file_zeros_witness :
  wcCommand ["new"] (snd (touchCommand ["new"] Sample.w0))
  = (Ret (mkResult 0 "0 0 0 new" ""), snd (touchCommand ["new"] Sample.w0)).
Proof.
  apply (@wc_empty_file_zeros _ _ "new" (snd (touchCommand ["new"] Sample.w0))).
  - discriminate.
  - discriminate.
  - discriminate.
  - reflexivity.
Defined.

Lemma cp_one_source_copies_buffers_witness :
  exists w' : Mem.world,
    cpCommand ["/ro/x"; "/mnt"] Sample.w0 = (Ret (mkResult 0 "" ""), w')
    /\ option_map Mem.n_kind (Mem.lookup (Mem.files w') ["x"; "mnt"])
       = Some (Mem.Regular "data").
Proof.
  eexists. split.
  - eapply (@cp_one_source_copies_buffers _ _ "/ro" "x" "/mnt" Sample.w0).
    + reflexivity.
    + reflexivity.
    + reflexivity.
    + reflexivity.
    + reflexivity.
    + reflexivity.
  - reflexivity.
Defined.

Lemma mv_into_directory_renames_witness :
  exists w' : Mem.world,
    mvCommand ["./g.txt"; "/home"] Sample.w0 = (Ret (mkResult 0 "" ""), w')
    /\ option_map Mem.n_kind (Mem.lookup (Mem.files w') ["g.txt"; "home"])
       = Some (Mem.Regular Sample.g_text).
Proof.
  eexists. split.
  - eapply (@mv_into_directory_renames _ _ "." "g.txt" "/home" "e"%char Sample.w0 _ None).
    + reflexivity.
    + reflexivity.
    + reflexivity.
    + discriminate.
    + reflexivity.
  - reflexivity.
Defined.

Lemma rmdir_p_ignores_trailing_slashes_witness :
  rmdirCommand ["-p"; "a/b/c//"] Sample.w1 = rmdirCommand ["-p"; "a/b/c"] Sample.w1.
Proof.
  apply (@rmdir_p_ignores_trailing_slashes _ _ "a/b/c" 2 Sample.w1).
  discriminate.
Defined.

Lemma mkdir_p_goes_prefix_by_prefix_witness :
  mkdirCommand ["-p"; "/ro/a/b"] Sample.w0
  = mkdir_each_tolerant ["/ro/"; "/ro/a/"; "/ro/a/b"] Sample.w0
  /\ fst (mkdirCommand ["-p"; "/ro/a/b"] Sample.w0)
     = Ret (mkResult 1 "" "mkdir: cannot create directory '/ro/a/': Permission denied").
Proof.
  split.
  - apply (proj1 (@mkdir_p_goes_prefix_by_prefix _ _ "/ro/a/b" Sample.w0 eq_refl)).
  - reflexivity.
Defined.

Lemma mkdir_again_file_exists_witness :
  exists w2,
    mkdirCommand ["d"; "e"] (snd (mkdirCommand ["d"; "e"] Sample.w0))
    = (Ret (failure "mkdir: cannot create directory 'd': File exists"), w2)
    /\ MemSpec.same_tree (snd (mkdirCommand ["d"; "e"] Sample.w0)) w2.
Proof.
  apply (@MkdirAgain.mkdir_again_file_exists "d" ["e"] Sample.w0
           (snd (mkdirCommand ["d"; "e"] Sample.w0)) (mkResult 0 "" "")).
  - reflexivity.
  - reflexivity.
  - reflexivity.
Defined.

Lemma ls_lists_shown_names_witness :
  lsCommand ["-A"; "/home/u"; "-a"] Sample.w0 = (Ret (ok "f.txt g.txt "), Sample.w0).
Proof.
  eapply eq_trans.
  - eapply (@ls_lists_shown_names _ _ ["-A"; "/home/u"; "-a"] "/home/u" _ _ Sample.w0).
    + reflexivity.
    + reflexivity.
    + reflexivity.
    + reflexivity.
    + reflexivity.
    + reflexivity.
  - reflexivity.
Defined.

Lemma rm_any_option_with_r_witness :
  rmCommand 3 ["--force"; "/mnt"] Sample.w0 = rmCommand 3 ["-r"; "/mnt"] Sample.w0.
Proof.
  apply (@rm_any_option_with_r _ _ 3%nat "--force" ["/mnt"] Sample.w0).
  - reflexivity.
  - discriminate.
  - discriminate.
Defined.

Lemma wc_flags_anywhere_witness :
  wcCommand ["f.txt"; "-c"; "-l"; "-c"] Sample.w0 = wcCommand ["-l"; "-c"; "f.txt"] Sample.w0.
Proof.
  apply (@wc_flags_anywhere _ _ ["f.txt"; "-c"; "-l"; "-c"] ["-l"; "-c"; "f.txt"]
           Sample.w0).
  - reflexivity.
  - left. repeat split; reflexivity.
Defined.

Lemma chmod_ignores_text_after_digits_witness :
  chmodCommand ["644rw"; "f.txt"] Sample.w0 = chmodCommand ["644"; "f.txt"] Sample.w0.
Proof.
  apply (@chmod_ignores_text_after_digits _ _ "644" "rw" "f.txt" Sample.w0).
  - discriminate.
  - reflexivity.
  - reflexivity.
Defined.

Lemma chmod_three_digits_mode_witness :
  exists w' : Mem.world,
    chmodCommand ["640"; "f.txt"] Sample.w0 = (Ret (mkResult 0 "" ""), w')
    /\ option_map Mem.n_mode (Mem.lookup (Mem.files w') ["f.txt"; "u"; "home"])
       = Some 416.
Proof.
  eexists. split.
  - eapply eq_trans.
    + apply (@chmod_three_digits_mode _ _ 6 4 0 "f.txt" Sample.w0); lia.
    + reflexivity.
  - reflexivity.
Defined.

Lemma handlers_status_zero_or_one_witness :
  (status (mkResult 1 "" "") = 0
   /\ render (mkResult 1 "" "")
      = if Str.starts_with NO_NL (output (mkResult 1 "" ""))
        then [Emit Stdout (Str.drop 9 (output (mkResult 1 "" "")))]
        else Emit Stdout (output (mkResult 1 "" ""))
             :: (if Str.empty (output (mkResult 1 "" "")) then []
                 else [Emit Stdout LF]))
  \/ (status (mkResult 1 "" "") = 1
      /\ render (mkResult 1 "" "")
         = Emit Stderr (error (mkResult 1 "" ""))
           :: (if Str.empty (error (mkResult 1 "" "")) then []
               else [Emit Stdout LF])).
Proof.
  apply (@handlers_status_zero_or_one _ _ _ Mem.regex 0%nat CmdGrep
           ["zzz"; "f.txt"] Sample.w0 Sample.w0).
  reflexivity.
Defined.
